(** * Anti-unification: first-order (Plotkin) and restricted higher-order engines

    Shallow embedding of [single-order-AU.py] and [higher-order-AU.py].

    - Frozen dataclasses become inductive types; [==] on them is the
      structural boolean equality [term_eqb].
    - The [AUState] / [HOAUState] objects are mutated in place by
      [fresh_var]; here the state is passed explicitly and returned.
    - The environment is a Python [dict]: insertion ordered, with
      [env[v] = p] overwriting in place when [v] is already a key.  It is an
      association list with exactly that update ([dict_set]); [env.items()]
      is the list itself.
    - Python integers are unbounded, so the counter is a [nat], and the
      f-string [f"X{n}"] is the decimal rendering of [n] after the prefix. *)

From Stdlib Require Import List String Ascii Bool Arith Lia FinFun.
From Stdlib Require Import DecimalString DecimalNat.
Import ListNotations.
Local Open Scope string_scope.
Local Open Scope list_scope.
Set Warnings "-register-all".

(** ** Shared pieces: decimal names, dictionaries, the zip loop *)

(** [str(n)] for a non-negative Python integer. *)
Definition string_of_nat (n : nat) : string :=
  NilEmpty.string_of_uint (Nat.to_uint n).

(** [f"{prefix}{n}"]. *)
Definition fresh_name (prefix : string) (n : nat) : string :=
  String.append prefix (string_of_nat n).

Section Dict.
Context {K V : Type}.
Variable key_eqb : K -> K -> bool.

(** [d[k] = v]: replace the value in place when the key exists, append the
    entry otherwise. *)
Fixpoint dict_set (d : list (K * V)) (k : K) (v : V) : list (K * V) :=
  match d with
  | [] => [(k, v)]
  | (k', v') :: d' =>
      if key_eqb k' k then (k', v) :: d' else (k', v') :: dict_set d' k v
  end.

(** [d.get(k)]. *)
Fixpoint dict_get (d : list (K * V)) (k : K) : option V :=
  match d with
  | [] => None
  | (k', v') :: d' => if key_eqb k' k then Some v' else dict_get d' k
  end.

Definition dict_keys (d : list (K * V)) : list K := map fst d.

(** Keys minted by a counter: the dictionary holds exactly the keys
    [mk 0], ..., [mk (c - 1)], in insertion order. *)
Definition keys_wf (mk : nat -> K) (c : nat) (d : list (K * V)) : Prop :=
  dict_keys d = map mk (seq 0 c).

(** Every key of the dictionary is a minted one. *)
Definition minted_keys (mk : nat -> K) (d : list (K * V)) : Prop :=
  Forall (fun k => exists n, k = mk n) (dict_keys d).
End Dict.

Section ZipLoop.
Context {T S E : Type}.

(** The loop
    [for a1, a2 in zip(l1, l2): g, env = rec(a1, a2, st, env); out.append(g)]
    with a total body.  [zip] stops at the shorter list. *)
Definition zip_loop (rec : T -> T -> S -> E -> T * S * E) :
  list T -> list T -> S -> E -> list T * S * E :=
  fix go (l1 l2 : list T) (st : S) (env : E) : list T * S * E :=
    match l1, l2 with
    | a1 :: l1', a2 :: l2' =>
        let '(g, st1, env1) := rec a1 a2 st env in
        let '(gs, st2, env2) := go l1' l2' st1 env1 in
        (g :: gs, st2, env2)
    | _, _ => ([], st, env)
    end.

(** The same loop when the body may fail to return. *)
Definition zip_loop_opt (rec : T -> T -> S -> E -> option (T * S * E)) :
  list T -> list T -> S -> E -> option (list T * S * E) :=
  fix go (l1 l2 : list T) (st : S) (env : E) : option (list T * S * E) :=
    match l1, l2 with
    | a1 :: l1', a2 :: l2' =>
        match rec a1 a2 st env with
        | Some (g, st1, env1) =>
            match go l1' l2' st1 env1 with
            | Some (gs, st2, env2) => Some (g :: gs, st2, env2)
            | None => None
            end
        | None => None
        end
    | _, _ => Some ([], st, env)
    end.
End ZipLoop.

(** Boolean equality of two lists, element by element ([tuple.__eq__]). *)
Definition list_eqb {A : Type} (eqb : A -> A -> bool) : list A -> list A -> bool :=
  fix go (l1 l2 : list A) : bool :=
    match l1, l2 with
    | [], [] => true
    | a :: l1', b :: l2' => eqb a b && go l1' l2'
    | _, _ => false
    end.

(** [l[i] = x] on a list used as a store of objects, a reference being the
    position of its object.  References are always in range; out of range
    nothing is written. *)
Fixpoint list_set {A : Type} (l : list A) (i : nat) (x : A) : list A :=
  match l, i with
  | [], _ => []
  | _ :: l', O => x :: l'
  | a :: l', S i' => a :: list_set l' i' x
  end.

Section HeapLoop.
Context {T H : Type}.

(** The argument loop when state and environment are objects in a heap [h]
    that every call may read and write. *)
Definition heap_loop (rec : T -> T -> H -> T * H) :
  list T -> list T -> H -> list T * H :=
  fix go (l1 l2 : list T) (h : H) : list T * H :=
    match l1, l2 with
    | a1 :: l1', a2 :: l2' =>
        let '(g, h1) := rec a1 a2 h in
        let '(gs, h2) := go l1' l2' h1 in
        (g :: gs, h2)
    | _, _ => ([], h)
    end.

Definition heap_loop_opt (rec : T -> T -> H -> option (T * H)) :
  list T -> list T -> H -> option (list T * H) :=
  fix go (l1 l2 : list T) (h : H) : option (list T * H) :=
    match l1, l2 with
    | a1 :: l1', a2 :: l2' =>
        match rec a1 a2 h with
        | Some (g, h1) =>
            match go l1' l2' h1 with
            | Some (gs, h2) => Some (g :: gs, h2)
            | None => None
            end
        | None => None
        end
    | _, _ => Some ([], h)
    end.
End HeapLoop.

(** ** First-order engine ([single-order-AU.py]) *)

Module FO.

Inductive Term : Type :=
| Var (name : string)
| Const (name : string)
| Func (symbol : string) (args : list Term).

(** Dataclass [__eq__]: same class and equal field tuples. *)
Fixpoint term_eqb (a b : Term) : bool :=
  match a, b with
  | Var x, Var y => String.eqb x y
  | Const x, Const y => String.eqb x y
  | Func s l, Func s' l' => String.eqb s s' && list_eqb term_eqb l l'
  | _, _ => false
  end.

Record AUState : Type := mkAUState { counter : nat }.

(** [AUState()] *)
Definition AUState_new : AUState := mkAUState 0.

(** [AUState.fresh_var]: returns the variable and the state after
    [self.counter += 1]. *)
Definition fresh_var (st : AUState) : Term * AUState :=
  (Var (fresh_name "X" (counter st)), mkAUState (counter st + 1)).

(** [Dict[Var, Tuple[Term, Term]]]: the keys are [Var] objects. *)
Definition Env : Type := list (Term * (Term * Term)).

(** [for v, (u1, u2) in env.items(): if u1 == t1 and u2 == t2: return v] *)
Fixpoint find_pair (env : Env) (t1 t2 : Term) : option Term :=
  match env with
  | [] => None
  | (v, (u1, u2)) :: env' =>
      if term_eqb u1 t1 && term_eqb u2 t2 then Some v
      else find_pair env' t1 t2
  end.

(** Lines 80-88: reuse a variable already bound to this pair, or mint one. *)
Definition mismatch (t1 t2 : Term) (st : AUState) (env : Env)
  : Term * AUState * Env :=
  match find_pair env t1 t2 with
  | Some v => (v, st, env)
  | None =>
      let '(v, st') := fresh_var st in
      (v, st', dict_set term_eqb env v (t1, t2))
  end.

(** The body of [anti_unify] with its recursive calls abstracted as [rec]. *)
Definition anti_unify_body
    (rec : Term -> Term -> AUState -> Env -> Term * AUState * Env)
    (t1 t2 : Term) (st : AUState) (env : Env) : Term * AUState * Env :=
  if term_eqb t1 t2 then (t1, st, env)
  else
    match t1, t2 with
    | Func s1 args1, Func s2 args2 =>
        if String.eqb s1 s2 && Nat.eqb (List.length args1) (List.length args2) then
          let '(new_args, st', env') := zip_loop rec args1 args2 st env in
          (Func s1 new_args, st', env')
        else mismatch t1 t2 st env
    | _, _ => mismatch t1 t2 st env
    end.

(** [anti_unify(t1, t2, st, env)] with both [st] and [env] given, which is
    how every recursive call is made.  The result carries the state object
    after the call next to the returned pair. *)
Fixpoint anti_unify_rec (t1 t2 : Term) (st : AUState) (env : Env) {struct t1}
  : Term * AUState * Env :=
  if term_eqb t1 t2 then (t1, st, env)
  else
    match t1, t2 with
    | Func s1 args1, Func s2 args2 =>
        if String.eqb s1 s2 && Nat.eqb (List.length args1) (List.length args2) then
          let '(new_args, st', env') :=
            zip_loop anti_unify_rec args1 args2 st env in
          (Func s1 new_args, st', env')
        else mismatch t1 t2 st env
    | _, _ => mismatch t1 t2 st env
    end.

(** [anti_unify(t1, t2, st=None, env=None)]: the defaults are replaced by a
    new [AUState] and a new empty dict.  Returns [(G, env)]. *)
Definition anti_unify (t1 t2 : Term) (st : option AUState) (env : option Env)
  : Term * Env :=
  let st := match st with None => AUState_new | Some s => s end in
  let env := match env with None => [] | Some e => e end in
  let '(g, _, env') := anti_unify_rec t1 t2 st env in
  (g, env').

Inductive Error : Type :=
| ValueError (msg : string).

(** [anti_unify_list]: the length test raises before anything else runs. *)
Definition anti_unify_list (ts1 ts2 : list Term) : Error + (list Term * Env) :=
  if negb (Nat.eqb (List.length ts1) (List.length ts2)) then
    inl (ValueError "Lists must have same length for anti_unify_list")
  else
    let st := AUState_new in
    let env : Env := [] in
    let '(out, _, env') := zip_loop anti_unify_rec ts1 ts2 st env in
    inr (out, env').

(** *** The same code with its objects in a heap

    In Python [st] and [env] are references to mutable objects, and a
    function may read or write any object it can reach.  Here the heap of
    the process is explicit: all [AUState] objects and all environment
    dicts, in order of creation, a reference being a position. *)
Record Heap : Type := mkHeap { states : list AUState; dicts : list Env }.

Definition get_state (h : Heap) (st : nat) : AUState :=
  nth st (states h) AUState_new.

Definition get_dict (h : Heap) (env : nat) : Env := nth env (dicts h) [].

Definition set_state (h : Heap) (st : nat) (s : AUState) : Heap :=
  mkHeap (list_set (states h) st s) (dicts h).

Definition set_dict (h : Heap) (env : nat) (d : Env) : Heap :=
  mkHeap (states h) (list_set (dicts h) env d).

(** [AUState()]: a new object, at the end of the heap. *)
Definition new_state (h : Heap) : nat * Heap :=
  (List.length (states h), mkHeap (states h ++ [AUState_new]) (dicts h)).

(** [{}]: a new dict object. *)
Definition new_dict (h : Heap) : nat * Heap :=
  (List.length (dicts h), mkHeap (states h) (dicts h ++ [[]])).

(** [st.fresh_var()] on the object [st]: reads its counter, writes it back
    incremented. *)
Definition fresh_var_h (st : nat) (h : Heap) : Term * Heap :=
  let c := counter (get_state h st) in
  (Var (fresh_name "X" c), set_state h st (mkAUState (c + 1))).

(** Lines 80-88 on the objects [st] and [env]. *)
Definition mismatch_h (t1 t2 : Term) (st env : nat) (h : Heap) : Term * Heap :=
  match find_pair (get_dict h env) t1 t2 with
  | Some v => (v, h)
  | None =>
      let '(v, h1) := fresh_var_h st h in
      (v, set_dict h1 env (dict_set term_eqb (get_dict h1 env) v (t1, t2)))
  end.

(** [anti_unify(t1, t2, st, env)] with [st] and [env] given as references;
    the returned [env] is the reference passed in. *)
Fixpoint anti_unify_h (t1 t2 : Term) (st env : nat) (h : Heap) {struct t1}
  : Term * Heap :=
  if term_eqb t1 t2 then (t1, h)
  else
    match t1, t2 with
    | Func s1 args1, Func s2 args2 =>
        if String.eqb s1 s2 && Nat.eqb (List.length args1) (List.length args2) then
          let '(new_args, h') :=
            heap_loop (fun a1 a2 => anti_unify_h a1 a2 st env) args1 args2 h in
          (Func s1 new_args, h')
        else mismatch_h t1 t2 st env h
    | _, _ => mismatch_h t1 t2 st env h
    end.

(** A call [anti_unify(t1, t2, st, env)] made in a process whose heap is [h],
    each of [st] and [env] being a reference or [None].  Returns the
    generalization and the reference of the environment. *)
Definition anti_unify_in_heap (t1 t2 : Term) (st env : option nat) (h : Heap)
  : (Term * nat) * Heap :=
  let '(st_ref, h1) :=
    match st with None => new_state h | Some r => (r, h) end in
  let '(env_ref, h2) :=
    match env with None => new_dict h1 | Some r => (r, h1) end in
  let '(g, h3) := anti_unify_h t1 t2 st_ref env_ref h2 in
  ((g, env_ref), h3).

(** What the caller sees of a returned pair [(G, env)]: the term and the
    contents of the dict. *)
Definition result_of (r : (Term * nat) * Heap) : Term * Env :=
  (fst (fst r), get_dict (snd r) (snd (fst r))).

(** *** Notions used to state the properties *)

(** The [n]-th variable the engine mints. *)
Definition fresh_key (n : nat) : Term := Var (fresh_name "X" n).

(** Position-wise generalization of two sequences with one counter and one
    environment handed from each position to the next. *)
Inductive threaded : list Term -> list Term -> AUState -> Env ->
                     list Term -> AUState -> Env -> Prop :=
| threaded_nil st env : threaded [] [] st env [] st env
| threaded_cons a b l1 l2 st env g st1 env1 gs st2 env2 :
    anti_unify_rec a b st env = (g, st1, env1) ->
    threaded l1 l2 st1 env1 gs st2 env2 ->
    threaded (a :: l1) (b :: l2) st env (g :: gs) st2 env2.

(** Counter and environment agree: the keys are the variables minted so far. *)
Definition env_wf (st : AUState) (env : Env) : Prop :=
  keys_wf fresh_key (counter st) env.

(** What a run of the engine may do to the counter and the environment:
    the counter does not decrease, the old entries stay where they are, and
    the keys still are the minted variables. *)
Definition grows (st : AUState) (env : Env) (st' : AUState) (env' : Env) : Prop :=
  counter st <= counter st' /\
  (exists ext, env' = env ++ ext) /\
  env_wf st' env'.

(** Names of the variables occurring in a term. *)
Fixpoint vars (t : Term) : list string :=
  match t with
  | Var x => [x]
  | Const _ => []
  | Func _ args => flat_map vars args
  end.

(** No variable of the term carries a name the engine can mint. *)
Definition no_minted_name (t : Term) : Prop :=
  forall n, ~ In (fresh_name "X" n) (vars t).

(** Replace every variable of [g] that is a key of [env] by one component
    ([side]) of the pair bound to it; one pass, nothing else changes. *)
Fixpoint instantiate (side : Term * Term -> Term) (env : Env) (g : Term) : Term :=
  match g with
  | Var _ =>
      match dict_get term_eqb env g with
      | Some p => side p
      | None => g
      end
  | Const _ => g
  | Func s args => Func s (map (instantiate side env) args)
  end.

(** The instance property of one call, stated so that it survives later
    growth of the environment by further minted keys. *)
Definition instance_at (a1 a2 : Term) (st : AUState) (env : Env) : Prop :=
  forall g st' env',
    env_wf st env -> no_minted_name a1 -> no_minted_name a2 ->
    anti_unify_rec a1 a2 st env = (g, st', env') ->
    forall ext, minted_keys fresh_key ext ->
      instantiate fst (env' ++ ext) g = a1 /\
      instantiate snd (env' ++ ext) g = a2.

(** Head symbol and arity of a term: a variable or constant is its own head
    and has no arguments. *)
Definition head_symbol (t : Term) : string :=
  match t with
  | Var x => x
  | Const c => c
  | Func s _ => s
  end.

Definition arity (t : Term) : nat :=
  match t with
  | Func _ args => List.length args
  | _ => 0
  end.

(** *** Notions used for further properties *)

(** The environment with the two components of every pair exchanged. *)
Definition swap_env (env : Env) : Env :=
  map (fun e => (fst e, (snd (snd e), fst (snd e)))) env.

(** [x] occurs in [t] as a subterm (possibly [t] itself). *)
Inductive subterm (x : Term) : Term -> Prop :=
| subterm_here : subterm x x
| subterm_arg s args a : In a args -> subterm x a -> subterm x (Func s args).

(** Number of constructors of a term. *)
Fixpoint term_size (t : Term) : nat :=
  match t with
  | Var _ | Const _ => 1
  | Func _ args => S (list_sum (map term_size args))
  end.

(** The test of line 73 on two terms: both are [Func] with the same symbol
    and the same number of arguments. *)
Definition same_shape (t1 t2 : Term) : bool :=
  match t1, t2 with
  | Func s1 args1, Func s2 args2 =>
      String.eqb s1 s2 && Nat.eqb (List.length args1) (List.length args2)
  | _, _ => false
  end.

(** The result of one run, as far as variables go: the new entries [ext] have
    keys that occur in the generalization (variables [vg]), and a variable of
    the generalization is a key of the environment or occurs in both inputs
    (variables [vs1], [vs2]). *)
Definition vars_ok (vs1 vs2 vg : list string) (env env' : Env) : Prop :=
  exists ext,
    env' = env ++ ext /\
    (forall k, In k (dict_keys ext) -> exists n, k = Var n /\ In n vg) /\
    (forall n, In n vg ->
               In (Var n) (dict_keys env') \/ (In n vs1 /\ In n vs2)).

(** The subterm at a position: a position is the list of argument indices
    to follow from the root. *)
Fixpoint subterm_at (p : list nat) (t : Term) : option Term :=
  match p with
  | [] => Some t
  | i :: p' =>
      match t with
      | Func _ args =>
          match nth_error args i with
          | Some a => subterm_at p' a
          | None => None
          end
      | _ => None
      end
  end.

(** [mismatch_at p t1 t2 u1 u2]: the recursion of [anti_unify] on [(t1, t2)]
    reaches position [p], through pairs of unequal function terms of the
    same symbol and arity, and the pair [(u1, u2)] found there is handled by
    lines 80-88: the two terms differ and do not pass the test of line 73. *)
Inductive mismatch_at : list nat -> Term -> Term -> Term -> Term -> Prop :=
| mismatch_here t1 t2 :
    term_eqb t1 t2 = false -> same_shape t1 t2 = false ->
    mismatch_at [] t1 t2 t1 t2
| mismatch_below i p s1 args1 s2 args2 a1 a2 u1 u2 :
    term_eqb (Func s1 args1) (Func s2 args2) = false ->
    same_shape (Func s1 args1) (Func s2 args2) = true ->
    nth_error args1 i = Some a1 -> nth_error args2 i = Some a2 ->
    mismatch_at p a1 a2 u1 u2 ->
    mismatch_at (i :: p) (Func s1 args1) (Func s2 args2) u1 u2.

(** The call on heap objects does to the objects [st] and [env] what the
    state-passing function does to its state and environment, and leaves
    every other object alone. *)
Definition sim_at (t1 : Term) : Prop :=
  forall t2 st env ss ds,
    st < List.length ss -> env < List.length ds ->
    anti_unify_h t1 t2 st env (mkHeap ss ds)
    = let '(g, s', e') :=
        anti_unify_rec t1 t2 (nth st ss AUState_new) (nth env ds []) in
      (g, mkHeap (list_set ss st s') (list_set ds env e')).

End FO.

(** ** Higher-order engine ([higher-order-AU.py]) *)

Module HO.

Inductive Term : Type :=
| Var (name : string)
| Const (name : string)
| App (fn arg : Term)
| Lam (var : string) (body : Term).

(** Dataclass [__eq__]. *)
Fixpoint term_eqb (a b : Term) : bool :=
  match a, b with
  | Var x, Var y => String.eqb x y
  | Const x, Const y => String.eqb x y
  | App f x, App f' x' => term_eqb f f' && term_eqb x x'
  | Lam x b, Lam x' b' => String.eqb x x' && term_eqb b b'
  | _, _ => false
  end.

(** The [while isinstance(t, App)] loop of [_spine]; [args.append] adds at
    the end. *)
Fixpoint spine_loop (t : Term) (args : list Term) : Term * list Term :=
  match t with
  | App f a => spine_loop f (args ++ [a])
  | _ => (t, args)
  end.

(** [_spine]: the loop, then [args.reverse()]. *)
Definition _spine (t : Term) : Term * list Term :=
  let '(h, args) := spine_loop t [] in
  (h, rev args).

Record HOAUState : Type := mkHOAUState { counter : nat }.

(** [HOAUState()] *)
Definition HOAUState_new : HOAUState := mkHOAUState 0.

(** [HOAUState.fresh_var(prefix)]; the default prefix is ["F"]. *)
Definition fresh_var (st : HOAUState) (prefix : string) : Term * HOAUState :=
  (Var (fresh_name prefix (counter st)), mkHOAUState (counter st + 1)).

Definition Env : Type := list (Term * (Term * Term)).

(** [_apply_ctx]: [for v in ctx: t = App(t, v)]. *)
Definition _apply_ctx (f : Term) (ctx : list Term) : Term :=
  fold_left (fun t v => App t v) ctx f.

(** [_rebuild_app]: [for a in args: t = App(t, a)]. *)
Definition _rebuild_app (head : Term) (args : list Term) : Term :=
  fold_left (fun t a => App t a) args head.

Definition _fresh_bound_name (x y : string) : string :=
  if String.eqb x y then x else "z".

(** [_subst_bound(t, old, v)] *)
Fixpoint _subst_bound (t : Term) (old : string) (v : Term) : Term :=
  match t with
  | Var name => if String.eqb name old then v else t
  | Const _ => t
  | App f a => App (_subst_bound f old v) (_subst_bound a old v)
  | Lam x body =>
      if String.eqb x old then t else Lam x (_subst_bound body old v)
  end.

(** [for v, (u1, u2) in env.items(): if u1 == t1 and u2 == t2: ...] *)
Fixpoint find_pair (env : Env) (t1 t2 : Term) : option Term :=
  match env with
  | [] => None
  | (v, (u1, u2)) :: env' =>
      if term_eqb u1 t1 && term_eqb u2 t2 then Some v
      else find_pair env' t1 t2
  end.

(** Lines 135-144: reuse or mint a variable, applied to the binder context. *)
Definition mismatch (t1 t2 : Term) (ctx : list Term) (st : HOAUState) (env : Env)
  : Term * HOAUState * Env :=
  match find_pair env t1 t2 with
  | Some v => (_apply_ctx v ctx, st, env)
  | None =>
      let '(F, st') := fresh_var st "F" in
      (_apply_ctx F ctx, st', dict_set term_eqb env F (t1, t2))
  end.

(** The test of lines 122-127 on the two spines. *)
Definition rigid_rigid (h1 h2 : Term) (args1 args2 : list Term) : bool :=
  match h1, h2 with
  | Const n1, Const n2 =>
      String.eqb n1 n2 && Nat.eqb (List.length args1) (List.length args2)
  | _, _ => false
  end.

(** Lines 118-144 of [_ho_au]: the spine test, then either the argument loop
    or the mismatch.  [rec] stands for the recursive call. *)
Definition spine_case
    (rec : Term -> Term -> list Term -> HOAUState -> Env ->
           option (Term * HOAUState * Env))
    (t1 t2 : Term) (ctx : list Term) (st : HOAUState) (env : Env)
  : option (Term * HOAUState * Env) :=
  let '(h1, args1) := _spine t1 in
  let '(h2, args2) := _spine t2 in
  if rigid_rigid h1 h2 args1 args2 then
    match
      zip_loop_opt (fun a1 a2 => rec a1 a2 ctx) args1 args2 st env
    with
    | Some (new_args, st', env') => Some (_rebuild_app h1 new_args, st', env')
    | None => None
    end
  else Some (mismatch t1 t2 ctx st env).

(** The body of [_ho_au], with [rec] for its recursive calls. *)
Definition _ho_au_body
    (rec : Term -> Term -> list Term -> HOAUState -> Env ->
           option (Term * HOAUState * Env))
    (t1 t2 : Term) (ctx : list Term) (st : HOAUState) (env : Env)
  : option (Term * HOAUState * Env) :=
  if term_eqb t1 t2 then Some (t1, st, env)
  else
    match t1, t2 with
    | Lam var1 b1, Lam var2 b2 =>
        let fresh := _fresh_bound_name var1 var2 in
        let v := Var fresh in
        let body1 := _subst_bound b1 var1 v in
        let body2 := _subst_bound b2 var2 v in
        match rec body1 body2 (ctx ++ [v]) st env with
        | Some (gen_body, st', env') => Some (Lam fresh gen_body, st', env')
        | None => None
        end
    | _, _ => spine_case rec t1 t2 ctx st env
    end.

(** [_ho_au].  The recursion goes through substituted bodies and spine
    arguments, so it is bounded by [fuel], the number of nested calls
    allowed; [None] means the bound was reached. *)
Fixpoint _ho_au (fuel : nat) (t1 t2 : Term) (ctx : list Term)
    (st : HOAUState) (env : Env) {struct fuel}
  : option (Term * HOAUState * Env) :=
  match fuel with
  | O => None
  | S fuel' => _ho_au_body (_ho_au fuel') t1 t2 ctx st env
  end.

(** Number of constructors of a term: more nested calls than that are never
    needed. *)
Fixpoint term_size (t : Term) : nat :=
  match t with
  | Var _ | Const _ => 1
  | App f a => S (term_size f + term_size a)
  | Lam _ b => S (term_size b)
  end.

(** [ho_anti_unify(t1, t2)] *)
Definition ho_anti_unify (t1 t2 : Term) : option (Term * Env) :=
  let st := HOAUState_new in
  let env : Env := [] in
  match _ho_au (term_size t1) t1 t2 [] st env with
  | Some (gen, _, env') => Some (gen, env')
  | None => None
  end.

(** *** The same code with its objects in a heap *)

Record Heap : Type := mkHeap { states : list HOAUState; dicts : list Env }.

Definition get_state (h : Heap) (st : nat) : HOAUState :=
  nth st (states h) HOAUState_new.

Definition get_dict (h : Heap) (env : nat) : Env := nth env (dicts h) [].

Definition set_state (h : Heap) (st : nat) (s : HOAUState) : Heap :=
  mkHeap (list_set (states h) st s) (dicts h).

Definition set_dict (h : Heap) (env : nat) (d : Env) : Heap :=
  mkHeap (states h) (list_set (dicts h) env d).

(** [HOAUState()] *)
Definition new_state (h : Heap) : nat * Heap :=
  (List.length (states h), mkHeap (states h ++ [HOAUState_new]) (dicts h)).

(** [{}] *)
Definition new_dict (h : Heap) : nat * Heap :=
  (List.length (dicts h), mkHeap (states h) (dicts h ++ [[]])).

Definition fresh_var_h (st : nat) (prefix : string) (h : Heap) : Term * Heap :=
  let c := counter (get_state h st) in
  (Var (fresh_name prefix c), set_state h st (mkHOAUState (c + 1))).

(** Lines 135-144 on the objects [st] and [env]. *)
Definition mismatch_h (t1 t2 : Term) (ctx : list Term) (st env : nat) (h : Heap)
  : Term * Heap :=
  match find_pair (get_dict h env) t1 t2 with
  | Some v => (_apply_ctx v ctx, h)
  | None =>
      let '(F, h1) := fresh_var_h st "F" h in
      (_apply_ctx F ctx,
       set_dict h1 env (dict_set term_eqb (get_dict h1 env) F (t1, t2)))
  end.

Definition spine_case_h
    (rec : Term -> Term -> list Term -> nat -> nat -> Heap -> option (Term * Heap))
    (t1 t2 : Term) (ctx : list Term) (st env : nat) (h : Heap)
  : option (Term * Heap) :=
  let '(h1, args1) := _spine t1 in
  let '(h2, args2) := _spine t2 in
  if rigid_rigid h1 h2 args1 args2 then
    match heap_loop_opt (fun a1 a2 => rec a1 a2 ctx st env) args1 args2 h with
    | Some (new_args, h') => Some (_rebuild_app h1 new_args, h')
    | None => None
    end
  else Some (mismatch_h t1 t2 ctx st env h).

Definition _ho_au_body_h
    (rec : Term -> Term -> list Term -> nat -> nat -> Heap -> option (Term * Heap))
    (t1 t2 : Term) (ctx : list Term) (st env : nat) (h : Heap)
  : option (Term * Heap) :=
  if term_eqb t1 t2 then Some (t1, h)
  else
    match t1, t2 with
    | Lam var1 b1, Lam var2 b2 =>
        let fresh := _fresh_bound_name var1 var2 in
        let v := Var fresh in
        let body1 := _subst_bound b1 var1 v in
        let body2 := _subst_bound b2 var2 v in
        match rec body1 body2 (ctx ++ [v]) st env h with
        | Some (gen_body, h') => Some (Lam fresh gen_body, h')
        | None => None
        end
    | _, _ => spine_case_h rec t1 t2 ctx st env h
    end.

(** [_ho_au(t1, t2, ctx, st, env)] with [st] and [env] as references. *)
Fixpoint _ho_au_h (fuel : nat) (t1 t2 : Term) (ctx : list Term)
    (st env : nat) (h : Heap) {struct fuel} : option (Term * Heap) :=
  match fuel with
  | O => None
  | S fuel' => _ho_au_body_h (_ho_au_h fuel') t1 t2 ctx st env h
  end.

(** A call [ho_anti_unify(t1, t2)] made in a process whose heap is [h]. *)
Definition ho_anti_unify_in_heap (t1 t2 : Term) (h : Heap)
  : option ((Term * nat) * Heap) :=
  let '(st, h1) := new_state h in
  let '(env, h2) := new_dict h1 in
  match _ho_au_h (term_size t1) t1 t2 [] st env h2 with
  | Some (gen, h3) => Some ((gen, env), h3)
  | None => None
  end.

Definition result_of (r : (Term * nat) * Heap) : Term * Env :=
  (fst (fst r), get_dict (snd r) (snd (fst r))).

(** *** Notions used to state the properties *)

(** The [n]-th variable the engine mints. *)
Definition fresh_key (n : nat) : Term := Var (fresh_name "F" n).

Definition env_wf (st : HOAUState) (env : Env) : Prop :=
  keys_wf fresh_key (counter st) env.

Definition grows (st : HOAUState) (env : Env) (st' : HOAUState) (env' : Env)
  : Prop :=
  counter st <= counter st' /\
  (exists ext, env' = env ++ ext) /\
  env_wf st' env'.

(** Names of the variables occurring in a term (bound or free). *)
Fixpoint vars (t : Term) : list string :=
  match t with
  | Var x => [x]
  | Const _ => []
  | App f a => vars f ++ vars a
  | Lam _ b => vars b
  end.

Definition no_minted_name (t : Term) : Prop :=
  forall n, ~ In (fresh_name "F" n) (vars t).

(** The term has no binder. *)
Fixpoint lam_free (t : Term) : bool :=
  match t with
  | Var _ | Const _ => true
  | App f a => lam_free f && lam_free a
  | Lam _ _ => false
  end.

(** [x] occurs in [t] outside the scope of every [Lam x]. *)
Fixpoint free_in (x : string) (t : Term) : bool :=
  match t with
  | Var y => String.eqb y x
  | Const _ => false
  | App f a => free_in x f || free_in x a
  | Lam y b => if String.eqb y x then false else free_in x b
  end.

(** Replace every variable of [g] that is a key of [env] by one component
    ([side]) of the pair bound to it; one pass, binders are not looked at. *)
Fixpoint instantiate (side : Term * Term -> Term) (env : Env) (g : Term) : Term :=
  match g with
  | Var _ =>
      match dict_get term_eqb env g with
      | Some p => side p
      | None => g
      end
  | Const _ => g
  | App f a => App (instantiate side env f) (instantiate side env a)
  | Lam x b => Lam x (instantiate side env b)
  end.

(** What it means for a (possibly partial) call to respect [grows]. *)
Definition keeps_env
    (rec : Term -> Term -> list Term -> HOAUState -> Env ->
           option (Term * HOAUState * Env)) : Prop :=
  forall t1 t2 ctx st env g st' env',
    env_wf st env -> rec t1 t2 ctx st env = Some (g, st', env') ->
    grows st env st' env'.

(** [t] is a [Lam]. *)
Definition is_lam (t : Term) : bool :=
  match t with
  | Lam _ _ => true
  | _ => false
  end.

(** The run of [_ho_au] on [(t1, t2)] never enters the both-[Lam] case: the
    terms are equal, or the spines match rigidly and the same holds of the
    argument pairs, or the pair is a mismatch other than two [Lam]s. *)
Inductive binder_free_run : Term -> Term -> Prop :=
| bfr_equal t : binder_free_run t t
| bfr_rigid t1 t2 c args1 args2 :
    _spine t1 = (Const c, args1) ->
    _spine t2 = (Const c, args2) ->
    Forall2 binder_free_run args1 args2 ->
    binder_free_run t1 t2
| bfr_flex t1 t2 :
    is_lam t1 && is_lam t2 = false ->
    rigid_rigid (fst (_spine t1)) (fst (_spine t2))
                (snd (_spine t1)) (snd (_spine t2)) = false ->
    binder_free_run t1 t2.

(** What it means for a call to give back both inputs by instantiation, for
    inputs without minted names, when no two [Lam]s are compared, at the
    empty binder context. *)
Definition gives_instances
    (rec : Term -> Term -> list Term -> HOAUState -> Env ->
           option (Term * HOAUState * Env)) : Prop :=
  forall t1 t2 st env g st' env',
    env_wf st env ->
    binder_free_run t1 t2 ->
    no_minted_name t1 -> no_minted_name t2 ->
    rec t1 t2 [] st env = Some (g, st', env') ->
    forall ext, minted_keys fresh_key ext ->
      instantiate fst (env' ++ ext) g = t1 /\
      instantiate snd (env' ++ ext) g = t2.

(** *** Notions used for further properties *)

Definition swap_env (env : Env) : Env :=
  map (fun e => (fst e, (snd (snd e), fst (snd e)))) env.

(** [t] is an [App]. *)
Definition is_app (t : Term) : bool :=
  match t with
  | App _ _ => true
  | _ => false
  end.

(** [Lam x1 (Lam x2 (... body))] for the names [x1; x2; ...]. *)
Definition lams (names : list string) (body : Term) : Term :=
  fold_right Lam body names.

(** What it means for a call to keep a property [I] of the environment. *)
Definition keeps_inv (I : Env -> Prop)
    (rec : Term -> Term -> list Term -> HOAUState -> Env ->
           option (Term * HOAUState * Env)) : Prop :=
  forall t1 t2 ctx st env g st' env',
    env_wf st env -> I env ->
    rec t1 t2 ctx st env = Some (g, st', env') -> I env'.

(** What it means for a call to commute with the exchange of its two terms. *)
Definition exchanges
    (rec : Term -> Term -> list Term -> HOAUState -> Env ->
           option (Term * HOAUState * Env)) : Prop :=
  forall t1 t2 ctx st env g st' env',
    rec t1 t2 ctx st env = Some (g, st', env') ->
    rec t2 t1 ctx st (swap_env env) = Some (g, st', swap_env env').

(** [rec_h], working on heap objects, does to the objects [st] and [env]
    what the state-passing [rec] does to its state and environment, and
    leaves every other object alone. *)
Definition simulates
    (rec_h : Term -> Term -> list Term -> nat -> nat -> Heap ->
             option (Term * Heap))
    (rec : Term -> Term -> list Term -> HOAUState -> Env ->
           option (Term * HOAUState * Env)) : Prop :=
  forall t1 t2 ctx st env ss ds,
    st < List.length ss -> env < List.length ds ->
    rec_h t1 t2 ctx st env (mkHeap ss ds)
    = match rec t1 t2 ctx (nth st ss HOAUState_new) (nth env ds []) with
      | Some (g, s', e') =>
          Some (g, mkHeap (list_set ss st s') (list_set ds env e'))
      | None => None
      end.

End HO.

(** * Properties *)

(** ** Decimal names *)

Lemma string_of_nat_inj (m n : nat) : string_of_nat m = string_of_nat n -> m = n.
Proof.
  unfold string_of_nat; intros H.
  apply Unsigned.to_uint_inj.
  assert (Hs : Some (Nat.to_uint m) = Some (Nat.to_uint n)).
  { rewrite <- (NilEmpty.usu (Nat.to_uint m)), <- (NilEmpty.usu (Nat.to_uint n)).
    now rewrite H. }
  now injection Hs.
Qed.

Lemma append_cancel_l (p a b : string) :
  String.append p a = String.append p b -> a = b.
Proof.
  induction p as [|c p IH]; simpl; intros H; [exact H|].
  injection H as H; auto.
Qed.

Lemma fresh_name_inj (prefix : string) (m n : nat) :
  fresh_name prefix m = fresh_name prefix n -> m = n.
Proof.
  unfold fresh_name; intros H.
  apply string_of_nat_inj, (append_cancel_l prefix), H.
Qed.

(** ** Dictionaries *)

Section DictFacts.
Context {K V : Type}.
Variable key_eqb : K -> K -> bool.
Hypothesis key_eqb_eq : forall a b, key_eqb a b = true <-> a = b.

Lemma key_eqb_refl (k : K) : key_eqb k k = true.
Proof. now apply key_eqb_eq. Qed.

Lemma key_eqb_neq (a b : K) : a <> b -> key_eqb a b = false.
Proof.
  intros H; destruct (key_eqb a b) eqn:E; [|reflexivity].
  apply key_eqb_eq in E; contradiction.
Qed.

Lemma dict_set_fresh (d : list (K * V)) (k : K) (v : V) :
  ~ In k (dict_keys d) -> dict_set key_eqb d k v = d ++ [(k, v)].
Proof.
  induction d as [|[k' v'] d IH]; simpl; intros Hn; [reflexivity|].
  rewrite key_eqb_neq by tauto.
  f_equal; apply IH; tauto.
Qed.

Lemma dict_get_None (d : list (K * V)) (k : K) :
  ~ In k (dict_keys d) -> dict_get key_eqb d k = None.
Proof.
  induction d as [|[k' v'] d IH]; simpl; intros Hn; [reflexivity|].
  rewrite key_eqb_neq by tauto.
  apply IH; tauto.
Qed.

Lemma dict_get_app_r (d e : list (K * V)) (k : K) :
  ~ In k (dict_keys d) -> dict_get key_eqb (d ++ e) k = dict_get key_eqb e k.
Proof.
  induction d as [|[k' v'] d IH]; simpl; intros Hn; [reflexivity|].
  rewrite key_eqb_neq by tauto.
  apply IH; tauto.
Qed.

Lemma dict_get_app_l (d e : list (K * V)) (k : K) (v : V) :
  dict_get key_eqb d k = Some v -> dict_get key_eqb (d ++ e) k = Some v.
Proof.
  induction d as [|[k' v'] d IH]; simpl; [discriminate|].
  destruct (key_eqb k' k); auto.
Qed.

Lemma dict_get_In (d : list (K * V)) (k : K) (v : V) :
  NoDup (dict_keys d) -> In (k, v) d -> dict_get key_eqb d k = Some v.
Proof.
  induction d as [|[k' v'] d IH]; simpl; intros Hnd Hin; [contradiction|].
  inversion Hnd as [|? ? Hnot Hnd']; subst.
  destruct Hin as [Heq|Hin].
  - injection Heq as -> ->. now rewrite key_eqb_refl.
  - rewrite key_eqb_neq; [auto|].
    intros ->. apply Hnot. unfold dict_keys.
    change k with (fst (k, v)). now apply in_map.
Qed.

Variable mk : nat -> K.
Hypothesis mk_inj : forall m n, mk m = mk n -> m = n.

Local Abbreviation kwf := (keys_wf (V:=V) mk).
Local Abbreviation kminted := (minted_keys (V:=V) mk).

Lemma keys_wf_nil : kwf 0 [].
Proof. reflexivity. Qed.

Lemma keys_wf_NoDup (c : nat) (d : list (K * V)) :
  kwf c d -> NoDup (dict_keys d).
Proof.
  unfold keys_wf; intros ->.
  apply Injective_map_NoDup; [exact mk_inj | apply seq_NoDup].
Qed.

Lemma keys_wf_minted (c : nat) (d : list (K * V)) (k : K) :
  kwf c d -> In k (dict_keys d) -> exists n, n < c /\ k = mk n.
Proof.
  unfold keys_wf; intros -> Hin.
  apply in_map_iff in Hin as (n & <- & Hn).
  apply in_seq in Hn. exists n; split; [lia | reflexivity].
Qed.

Lemma keys_wf_fresh (c : nat) (d : list (K * V)) :
  kwf c d -> ~ In (mk c) (dict_keys d).
Proof.
  intros Hwf Hin.
  destruct (keys_wf_minted _ _ _ Hwf Hin) as (n & Hlt & Heq).
  apply mk_inj in Heq; lia.
Qed.

Lemma keys_wf_set (c : nat) (d : list (K * V)) (v : V) :
  kwf c d ->
  dict_set key_eqb d (mk c) v = d ++ [(mk c, v)] /\
  kwf (c + 1) (dict_set key_eqb d (mk c) v).
Proof.
  intros Hwf.
  assert (E : dict_set key_eqb d (mk c) v = d ++ [(mk c, v)])
    by (apply dict_set_fresh, keys_wf_fresh, Hwf).
  split; [exact E|].
  rewrite E. unfold keys_wf, dict_keys in *.
  rewrite map_app, Hwf, seq_app, map_app. reflexivity.
Qed.

Lemma keys_wf_all_minted (c : nat) (d : list (K * V)) :
  kwf c d -> kminted d.
Proof.
  intros Hwf. apply Forall_forall; intros k Hin.
  destruct (keys_wf_minted c d k Hwf Hin) as (n & _ & Hn). now exists n.
Qed.

Lemma minted_keys_app (d e : list (K * V)) :
  kminted (d ++ e) <-> kminted d /\ kminted e.
Proof.
  unfold minted_keys, dict_keys. rewrite map_app. apply Forall_app.
Qed.

End DictFacts.

(** ** First-order engine: basic facts *)

Module FOFacts.
Import FO.

(** Induction on terms with the hypothesis available for every argument. *)
Lemma Term_ind_args (P : Term -> Prop)
    (HVar : forall x, P (Var x))
    (HConst : forall c, P (Const c))
    (HFunc : forall s args, Forall P args -> P (Func s args)) :
  forall t, P t.
Proof.
  fix IH 1. intros [x|c|s args].
  - apply HVar.
  - apply HConst.
  - apply HFunc. induction args as [|a args IHargs]; constructor.
    + apply IH.
    + exact IHargs.
Qed.

Lemma list_eqb_eq {A : Type} (eqb : A -> A -> bool) (l1 : list A) :
  Forall (fun a => forall b, eqb a b = true <-> a = b) l1 ->
  forall l2, list_eqb eqb l1 l2 = true <-> l1 = l2.
Proof.
  induction 1 as [|a l1 Ha _ IH]; intros [|b l2]; simpl;
    try (split; [discriminate | discriminate]); [tauto|].
  rewrite andb_true_iff, Ha, IH. split.
  - intros [-> ->]; reflexivity.
  - intros E; injection E; auto.
Qed.

Lemma term_eqb_eq (a b : Term) : term_eqb a b = true <-> a = b.
Proof.
  revert b. induction a as [x|c|s args IH] using Term_ind_args;
    intros [y|d|s' args']; simpl;
    try (split; [discriminate | discriminate]).
  - rewrite String.eqb_eq. split; [now intros -> | now intros [= ->]].
  - rewrite String.eqb_eq. split; [now intros -> | now intros [= ->]].
  - rewrite andb_true_iff, String.eqb_eq, (list_eqb_eq term_eqb args IH).
    split; [now intros [-> ->] | now intros [= -> ->]].
Qed.

Lemma term_eqb_refl (t : Term) : term_eqb t t = true.
Proof. now apply term_eqb_eq. Qed.

Lemma fresh_key_inj (m n : nat) : fresh_key m = fresh_key n -> m = n.
Proof.
  unfold fresh_key; intros H. apply (fresh_name_inj "X"). congruence.
Qed.

(** The recursive function is the fixed point of its body. *)
Lemma anti_unify_rec_unfold (t1 t2 : Term) (st : AUState) (env : Env) :
  anti_unify_rec t1 t2 st env = anti_unify_body anti_unify_rec t1 t2 st env.
Proof. destruct t1; reflexivity. Qed.

Lemma find_pair_Some (env : Env) (t1 t2 v : Term) :
  find_pair env t1 t2 = Some v -> In (v, (t1, t2)) env.
Proof.
  induction env as [|[k [u1 u2]] env IH]; simpl; [discriminate|].
  destruct (term_eqb u1 t1 && term_eqb u2 t2) eqn:E.
  - intros [= ->]. apply andb_true_iff in E as [E1 E2].
    apply term_eqb_eq in E1, E2. subst. now left.
  - intros H; right; auto.
Qed.

Lemma env_wf_new : env_wf AUState_new [].
Proof. reflexivity. Qed.

Lemma grows_refl (st : AUState) (env : Env) : env_wf st env -> grows st env st env.
Proof.
  intros Hwf; repeat split; [lia | exists []; now rewrite app_nil_r | exact Hwf].
Qed.

Lemma grows_trans (st0 st1 st2 : AUState) (e0 e1 e2 : Env) :
  grows st0 e0 st1 e1 -> grows st1 e1 st2 e2 -> grows st0 e0 st2 e2.
Proof.
  intros (Hc1 & [x1 ->] & _) (Hc2 & [x2 ->] & Hwf).
  repeat split; [lia | exists (x1 ++ x2); now rewrite app_assoc | exact Hwf].
Qed.

Lemma mismatch_grows (t1 t2 : Term) (st : AUState) (env : Env) g st' env' :
  env_wf st env -> mismatch t1 t2 st env = (g, st', env') ->
  grows st env st' env'.
Proof.
  unfold mismatch; intros Hwf.
  destruct (find_pair env t1 t2) as [v|]; simpl.
  - intros [= <- <- <-]. now apply grows_refl.
  - intros [= <- <- <-].
    destruct (keys_wf_set term_eqb term_eqb_eq fresh_key fresh_key_inj
                (counter st) env (t1, t2) Hwf) as [E Hwf'].
    repeat split; simpl; [lia | eexists; exact E | exact Hwf'].
Qed.

Lemma zip_loop_grows rec (l1 : list Term) :
  Forall (fun a1 => forall a2 st env g st' env',
            env_wf st env -> rec a1 a2 st env = (g, st', env') ->
            grows st env st' env') l1 ->
  forall l2 st env gs st' env',
    env_wf st env -> zip_loop rec l1 l2 st env = (gs, st', env') ->
    grows st env st' env'.
Proof.
  induction 1 as [|a1 l1 Ha _ IH]; intros [|a2 l2] st env gs st' env' Hwf;
    simpl; try (intros [= <- <- <-]; now apply grows_refl).
  destruct (rec a1 a2 st env) as [[g st1] env1] eqn:E1.
  destruct (zip_loop rec l1 l2 st1 env1) as [[gs' st2] env2] eqn:E2.
  intros [= <- <- <-].
  pose proof (Ha _ _ _ _ _ _ Hwf E1) as G1.
  eapply grows_trans; [exact G1|].
  eapply IH; [apply G1 | exact E2].
Qed.

(** Every call keeps counter and environment in step and only appends. *)
Lemma anti_unify_rec_grows (t1 : Term) :
  forall t2 st env g st' env',
    env_wf st env -> anti_unify_rec t1 t2 st env = (g, st', env') ->
    grows st env st' env'.
Proof.
  induction t1 as [x|c|s args IH] using Term_ind_args;
    intros t2 st env g st' env' Hwf; rewrite anti_unify_rec_unfold;
    unfold anti_unify_body;
    (destruct (term_eqb _ t2);
     [intros [= <- <- <-]; now apply grows_refl|]);
    try (now apply mismatch_grows).
  destruct t2 as [y|d|s2 args2]; try (now apply mismatch_grows).
  destruct (String.eqb s s2 && Nat.eqb (List.length args) (List.length args2));
    [|now apply mismatch_grows].
  destruct (zip_loop anti_unify_rec args args2 st env) as [[gs st1] env1] eqn:E.
  intros [= <- <- <-].
  exact (zip_loop_grows anti_unify_rec args IH _ _ _ _ _ _ Hwf E).
Qed.

(** *** Instances *)

Lemma no_minted_name_Func (s : string) (args : list Term) :
  no_minted_name (Func s args) <-> Forall no_minted_name args.
Proof.
  unfold no_minted_name; simpl. rewrite Forall_forall. split.
  - intros H a Ha n Hin. apply (H n), in_flat_map. now exists a.
  - intros H n Hin. apply in_flat_map in Hin as (a & Ha & Hin).
    exact (H a Ha n Hin).
Qed.

(** A term without minted names is not touched by an environment whose keys
    are all minted. *)
Lemma instantiate_unchanged side (d : Env) (t : Term) :
  minted_keys fresh_key d -> no_minted_name t -> instantiate side d t = t.
Proof.
  intros Hd. induction t as [x|c|s args IH] using Term_ind_args; intros Ht.
  - simpl. rewrite (dict_get_None term_eqb term_eqb_eq); [reflexivity|].
    intros Hin. unfold minted_keys in Hd. rewrite Forall_forall in Hd.
    destruct (Hd _ Hin) as [n Hn]. injection Hn as Hn.
    apply (Ht n). simpl. now left.
  - reflexivity.
  - simpl. f_equal. apply no_minted_name_Func in Ht.
    induction IH as [|a args Ha _ IHargs]; [reflexivity|].
    inversion Ht; subst. simpl. f_equal; auto.
Qed.

Lemma mismatch_instance (t1 t2 : Term) (st : AUState) (env : Env) g st' env' :
  env_wf st env -> mismatch t1 t2 st env = (g, st', env') ->
  forall ext,
    instantiate fst (env' ++ ext) g = t1 /\
    instantiate snd (env' ++ ext) g = t2.
Proof.
  unfold mismatch; intros Hwf.
  destruct (find_pair env t1 t2) as [v|] eqn:Ef; simpl.
  - intros [= <- <- <-] ext.
    apply find_pair_Some in Ef.
    assert (Hget : dict_get term_eqb env v = Some (t1, t2))
      by (apply (dict_get_In term_eqb term_eqb_eq);
          [exact (keys_wf_NoDup fresh_key fresh_key_inj _ _ Hwf) | exact Ef]).
    assert (Hk : In v (dict_keys env))
      by (unfold dict_keys; change v with (fst (v, (t1, t2))); now apply in_map).
    destruct (keys_wf_minted fresh_key _ _ _ Hwf Hk) as (n & _ & ->).
    simpl. rewrite (dict_get_app_l term_eqb _ _ _ _ Hget). now split.
  - intros [= <- <- <-] ext.
    destruct (keys_wf_set term_eqb term_eqb_eq fresh_key fresh_key_inj
                (counter st) env (t1, t2) Hwf) as [E _].
    fold (fresh_key (counter st)). rewrite E, <- app_assoc. unfold fresh_key at 1 3.
    simpl instantiate. fold (fresh_key (counter st)).
    rewrite (dict_get_app_r term_eqb term_eqb_eq)
      by (exact (keys_wf_fresh fresh_key fresh_key_inj _ _ Hwf)).
    cbn [dict_get]. rewrite term_eqb_refl. now split.
Qed.

Lemma zip_loop_instance (l1 : list Term) :
  Forall (fun a1 => forall a2 st env, instance_at a1 a2 st env) l1 ->
  forall l2 st env gs st' env',
    List.length l1 = List.length l2 -> env_wf st env ->
    Forall no_minted_name l1 -> Forall no_minted_name l2 ->
    zip_loop anti_unify_rec l1 l2 st env = (gs, st', env') ->
    forall ext, minted_keys fresh_key ext ->
      map (instantiate fst (env' ++ ext)) gs = l1 /\
      map (instantiate snd (env' ++ ext)) gs = l2.
Proof.
  induction 1 as [|a1 l1 Ha _ IH]; intros [|a2 l2] st env gs st' env' Hlen Hwf H1 H2;
    simpl in *; try discriminate.
  - intros [= <- <- <-] ext _. now split.
  - destruct (anti_unify_rec a1 a2 st env) as [[g st1] env1] eqn:E1.
    destruct (zip_loop anti_unify_rec l1 l2 st1 env1) as [[gs' st2] env2] eqn:E2.
    intros [= <- <- <-] ext Hext.
    inversion H1 as [|? ? Hn1 H1']; inversion H2 as [|? ? Hn2 H2']; subst.
    pose proof (anti_unify_rec_grows _ _ _ _ _ _ _ Hwf E1) as (_ & _ & Hwf1).
    pose proof (zip_loop_grows anti_unify_rec l1
                  (proj2 (Forall_forall _ _)
                     (fun a _ => anti_unify_rec_grows a))
                  _ _ _ _ _ _ Hwf1 E2) as (_ & [e2 ->] & Hwf2).
    assert (Hrest : minted_keys fresh_key (e2 ++ ext)).
    { apply (minted_keys_app fresh_key). split; [|exact Hext].
      pose proof (keys_wf_all_minted fresh_key _ _ Hwf2) as Hall.
      apply (minted_keys_app fresh_key) in Hall. tauto. }
    destruct (Ha a2 st env g st1 env1 Hwf Hn1 Hn2 E1 (e2 ++ ext) Hrest) as [L R].
    assert (Hl : List.length l1 = List.length l2) by lia.
    destruct (IH l2 st1 env1 gs' st2 (env1 ++ e2) Hl Hwf1 H1' H2' E2 ext Hext)
      as [L' R'].
    simpl. rewrite L', R', <- app_assoc, L, R. now split.
Qed.

(** Under the name condition, the generalization instantiates back to both
    inputs, also after the environment has grown further. *)
Lemma anti_unify_rec_instance (t1 : Term) :
  forall t2 st env, instance_at t1 t2 st env.
Proof.
  induction t1 as [x|c|s args IH] using Term_ind_args;
    intros t2 st env g st' env' Hwf Hn1 Hn2; rewrite anti_unify_rec_unfold;
    unfold anti_unify_body;
    (destruct (term_eqb _ t2) eqn:Eq;
     [apply term_eqb_eq in Eq; subst t2; intros [= <- <- <-] ext Hext;
      assert (Hall : minted_keys fresh_key (env ++ ext))
        by (apply (minted_keys_app fresh_key); split;
            [exact (keys_wf_all_minted fresh_key _ _ Hwf) | exact Hext]);
      split; now apply instantiate_unchanged|]);
    try (intros Hm ext _; exact (mismatch_instance _ _ _ _ _ _ _ Hwf Hm ext)).
  destruct t2 as [y|d|s2 args2];
    try (intros Hm ext _; exact (mismatch_instance _ _ _ _ _ _ _ Hwf Hm ext)).
  destruct (String.eqb s s2 && Nat.eqb (List.length args) (List.length args2)) eqn:Es;
    [|intros Hm ext _; exact (mismatch_instance _ _ _ _ _ _ _ Hwf Hm ext)].
  apply andb_true_iff in Es as [Es El].
  apply String.eqb_eq in Es. apply Nat.eqb_eq in El. subst s2.
  destruct (zip_loop anti_unify_rec args args2 st env) as [[gs st1] env1] eqn:E.
  intros [= <- <- <-] ext Hext.
  apply no_minted_name_Func in Hn1, Hn2.
  destruct (zip_loop_instance args IH args2 st env gs st1 env1 El Hwf Hn1 Hn2 E ext Hext)
    as [L R].
  simpl. now rewrite L, R.
Qed.

End FOFacts.

(** ** Higher-order engine: basic facts *)

Module HOFacts.
Import HO.

Lemma ho_term_eqb_eq (a b : Term) : term_eqb a b = true <-> a = b.
Proof.
  revert b. induction a as [x|c|f IHf a IHa|x body IH];
    intros [y|d|f' a'|y body']; simpl;
    try (split; [discriminate | discriminate]).
  - rewrite String.eqb_eq. split; [now intros -> | now intros [= ->]].
  - rewrite String.eqb_eq. split; [now intros -> | now intros [= ->]].
  - rewrite andb_true_iff, IHf, IHa.
    split; [now intros [-> ->] | now intros [= -> ->]].
  - rewrite andb_true_iff, String.eqb_eq, IH.
    split; [now intros [-> ->] | now intros [= -> ->]].
Qed.

Lemma ho_term_eqb_refl (t : Term) : term_eqb t t = true.
Proof. now apply ho_term_eqb_eq. Qed.

Lemma ho_fresh_key_inj (m n : nat) : fresh_key m = fresh_key n -> m = n.
Proof.
  unfold fresh_key; intros H. apply (fresh_name_inj "F"). congruence.
Qed.

Lemma ho_find_pair_Some (env : Env) (t1 t2 v : Term) :
  find_pair env t1 t2 = Some v -> In (v, (t1, t2)) env.
Proof.
  induction env as [|[k [u1 u2]] env IH]; simpl; [discriminate|].
  destruct (term_eqb u1 t1 && term_eqb u2 t2) eqn:E.
  - intros [= ->]. apply andb_true_iff in E as [E1 E2].
    apply ho_term_eqb_eq in E1, E2. subst. now left.
  - intros H; right; auto.
Qed.

(** *** Spines *)

Lemma spine_loop_acc (t : Term) (acc : list Term) :
  spine_loop t acc =
  (fst (spine_loop t []), acc ++ snd (spine_loop t [])).
Proof.
  revert acc. induction t as [x|c|f IHf a _|x body _]; intros acc; simpl;
    try (now rewrite app_nil_r).
  rewrite (IHf (acc ++ [a])), (IHf [a]). simpl. now rewrite <- app_assoc.
Qed.

Lemma _spine_App (f a : Term) :
  _spine (App f a) = (fst (_spine f), snd (_spine f) ++ [a]).
Proof.
  unfold _spine. simpl. rewrite (spine_loop_acc f [a]).
  destruct (spine_loop f []) as [h r]. simpl. reflexivity.
Qed.

Lemma _spine_not_App (t : Term) :
  (forall f a, t <> App f a) -> _spine t = (t, []).
Proof. destruct t; intros H; try reflexivity. now destruct (H t1 t2). Qed.

(** Re-applying the head to the arguments gives the term back. *)
Lemma _rebuild_app_spine (t : Term) :
  _rebuild_app (fst (_spine t)) (snd (_spine t)) = t.
Proof.
  induction t as [x|c|f IHf a _|x body _]; try reflexivity.
  rewrite _spine_App. unfold _rebuild_app in *. simpl.
  rewrite fold_left_app. simpl. now rewrite IHf.
Qed.

Lemma spine_args_size (t : Term) :
  Forall (fun a => term_size a < term_size t) (snd (_spine t)).
Proof.
  induction t as [x|c|f IHf a _|x body _]; try constructor.
  rewrite _spine_App. simpl. apply Forall_app. split.
  - eapply Forall_impl; [|exact IHf]. simpl; intros; lia.
  - constructor; [lia | constructor].
Qed.

(** A property inherited by both sides of an application holds of every
    spine argument. *)
Lemma spine_args_Forall (P : Term -> Prop)
    (HApp : forall f a, P (App f a) -> P f /\ P a) (t : Term) :
  P t -> Forall P (snd (_spine t)).
Proof.
  induction t as [x|c|f IHf a _|x body _]; try constructor.
  intros H. destruct (HApp _ _ H) as [Hf Ha].
  rewrite _spine_App. simpl. apply Forall_app. split; [auto|].
  constructor; [exact Ha | constructor].
Qed.

Lemma _subst_bound_size (t : Term) (old name : string) :
  term_size (_subst_bound t old (Var name)) = term_size t.
Proof.
  induction t as [x|c|f IHf a IHa|x body IH]; simpl.
  - now destruct (String.eqb x old).
  - reflexivity.
  - now rewrite IHf, IHa.
  - destruct (String.eqb x old); simpl; [reflexivity | now rewrite IH].
Qed.

(** *** Counter and environment *)

Lemma ho_env_wf_new : env_wf HOAUState_new [].
Proof. reflexivity. Qed.

Lemma ho_grows_refl (st : HOAUState) (env : Env) :
  env_wf st env -> grows st env st env.
Proof.
  intros Hwf; repeat split; [lia | exists []; now rewrite app_nil_r | exact Hwf].
Qed.

Lemma ho_grows_trans (st0 st1 st2 : HOAUState) (e0 e1 e2 : Env) :
  grows st0 e0 st1 e1 -> grows st1 e1 st2 e2 -> grows st0 e0 st2 e2.
Proof.
  intros (Hc1 & [x1 ->] & _) (Hc2 & [x2 ->] & Hwf).
  repeat split; [lia | exists (x1 ++ x2); now rewrite app_assoc | exact Hwf].
Qed.

Lemma ho_mismatch_grows (t1 t2 : Term) ctx (st : HOAUState) (env : Env) g st' env' :
  env_wf st env -> mismatch t1 t2 ctx st env = (g, st', env') ->
  grows st env st' env'.
Proof.
  unfold mismatch; intros Hwf.
  destruct (find_pair env t1 t2) as [v|]; simpl.
  - intros [= <- <- <-]. now apply ho_grows_refl.
  - intros [= <- <- <-].
    destruct (keys_wf_set term_eqb ho_term_eqb_eq fresh_key ho_fresh_key_inj
                (counter st) env (t1, t2) Hwf) as [E Hwf'].
    repeat split; simpl; [lia | eexists; exact E | exact Hwf'].
Qed.

Lemma zip_loop_opt_grows rec ctx :
  keeps_env rec ->
  forall l1 l2 st env gs st' env',
    env_wf st env ->
    zip_loop_opt (fun a1 a2 => rec a1 a2 ctx) l1 l2 st env = Some (gs, st', env') ->
    grows st env st' env'.
Proof.
  intros Hrec. induction l1 as [|a1 l1 IH]; intros [|a2 l2] st env gs st' env' Hwf;
    simpl; try (intros [= <- <- <-]; now apply ho_grows_refl).
  destruct (rec a1 a2 ctx st env) as [[[g st1] env1]|] eqn:E1; [|discriminate].
  destruct (zip_loop_opt _ l1 l2 st1 env1) as [[[gs' st2] env2]|] eqn:E2;
    [|discriminate].
  intros [= <- <- <-].
  pose proof (Hrec _ _ _ _ _ _ _ _ Hwf E1) as G1.
  eapply ho_grows_trans; [exact G1|].
  eapply IH; [apply G1 | exact E2].
Qed.

Lemma spine_case_grows rec : keeps_env rec -> keeps_env (spine_case rec).
Proof.
  intros Hrec t1 t2 ctx st env g st' env' Hwf. unfold spine_case.
  destruct (_spine t1) as [h1 args1], (_spine t2) as [h2 args2].
  destruct (rigid_rigid h1 h2 args1 args2).
  - destruct (zip_loop_opt _ args1 args2 st env) as [[[gs st1] env1]|] eqn:E;
      [|discriminate].
    intros [= <- <- <-].
    exact (zip_loop_opt_grows rec ctx Hrec _ _ _ _ _ _ _ Hwf E).
  - intros [= H]. exact (ho_mismatch_grows _ _ _ _ _ _ _ _ Hwf H).
Qed.

Lemma _ho_au_body_grows rec : keeps_env rec -> keeps_env (_ho_au_body rec).
Proof.
  intros Hrec t1 t2 ctx st env g st' env' Hwf. unfold _ho_au_body.
  destruct (term_eqb t1 t2); [intros [= <- <- <-]; now apply ho_grows_refl|].
  destruct t1 as [x|c|f a|x b]; try (now apply spine_case_grows).
  destruct t2 as [y|d|f' a'|y b']; try (now apply spine_case_grows).
  destruct (rec _ _ _ st env) as [[[gb st1] env1]|] eqn:E; [|discriminate].
  intros [= <- <- <-]. exact (Hrec _ _ _ _ _ _ _ _ Hwf E).
Qed.

(** Every call keeps counter and environment in step and only appends. *)
Lemma _ho_au_grows (fuel : nat) : keeps_env (_ho_au fuel).
Proof.
  induction fuel as [|fuel IH].
  - intros t1 t2 ctx st env g st' env' _; discriminate.
  - exact (_ho_au_body_grows _ IH).
Qed.

(** *** Enough fuel *)

Lemma zip_loop_opt_total {S E : Type}
    (rec : Term -> Term -> S -> E -> option (Term * S * E)) (l1 : list Term) :
  Forall (fun a1 => forall a2 st env, exists r, rec a1 a2 st env = Some r) l1 ->
  forall l2 st env, exists r, zip_loop_opt rec l1 l2 st env = Some r.
Proof.
  induction 1 as [|a1 l1 Ha _ IH]; intros [|a2 l2] st env; simpl; eauto.
  destruct (Ha a2 st env) as [[[g st1] env1] ->].
  destruct (IH l2 st1 env1) as [[[gs st2] env2] ->]. eauto.
Qed.

(** A call returns as soon as the fuel covers the size of the left term. *)
Lemma _ho_au_total (fuel : nat) :
  forall t1 t2 ctx st env,
    term_size t1 <= fuel -> exists r, _ho_au fuel t1 t2 ctx st env = Some r.
Proof.
  induction fuel as [|fuel IH]; intros t1 t2 ctx st env Hsz.
  - destruct t1; simpl in Hsz; lia.
  - simpl. unfold _ho_au_body.
    destruct (term_eqb t1 t2); [eauto|].
    assert (Hspine : exists r, spine_case (_ho_au fuel) t1 t2 ctx st env = Some r).
    { unfold spine_case.
      pose proof (spine_args_size t1) as Hargs.
      destruct (_spine t1) as [h1 args1], (_spine t2) as [h2 args2].
      destruct (rigid_rigid h1 h2 args1 args2); [|eauto].
      destruct (zip_loop_opt_total (fun a1 a2 => _ho_au fuel a1 a2 ctx) args1)
        with (l2 := args2) (st := st) (env := env) as [[[gs st1] env1] ->];
        [|eauto].
      eapply Forall_impl; [|exact Hargs]. simpl.
      intros a Ha a2 st0 env0. apply IH. lia. }
    destruct t1 as [x|c|f a|x b]; try exact Hspine.
    destruct t2 as [y|d|f' a'|y b']; try exact Hspine.
    destruct (IH (_subst_bound b x (Var (_fresh_bound_name x y)))
                 (_subst_bound b' y (Var (_fresh_bound_name x y)))
                 (ctx ++ [Var (_fresh_bound_name x y)]) st env)
      as [[[gb st1] env1] E].
    + rewrite _subst_bound_size. simpl in Hsz. lia.
    + rewrite E. eauto.
Qed.

(** [ho_anti_unify] always returns. *)
Lemma ho_anti_unify_total (t1 t2 : Term) :
  exists g env, ho_anti_unify t1 t2 = Some (g, env).
Proof.
  unfold ho_anti_unify.
  destruct (_ho_au_total (term_size t1) t1 t2 [] HOAUState_new [] (le_n _))
    as [[[g st] env] ->]. eauto.
Qed.

(** *** Instances, for binder-free inputs *)

Lemma no_minted_name_App (f a : Term) :
  no_minted_name (App f a) -> no_minted_name f /\ no_minted_name a.
Proof.
  unfold no_minted_name; simpl. intros H.
  split; intros n Hin; apply (H n), in_or_app; auto.
Qed.

Lemma lam_free_App (f a : Term) :
  lam_free (App f a) = true -> lam_free f = true /\ lam_free a = true.
Proof. simpl. apply andb_true_iff. Qed.

Lemma ho_instantiate_unchanged side (d : Env) (t : Term) :
  minted_keys fresh_key d -> no_minted_name t -> instantiate side d t = t.
Proof.
  intros Hd. induction t as [x|c|f IHf a IHa|x body IH]; intros Ht.
  - simpl. rewrite (dict_get_None term_eqb ho_term_eqb_eq); [reflexivity|].
    intros Hin. unfold minted_keys in Hd. rewrite Forall_forall in Hd.
    destruct (Hd _ Hin) as [n Hn]. injection Hn as Hn.
    apply (Ht n). simpl. now left.
  - reflexivity.
  - apply no_minted_name_App in Ht as [Hf Ha]. simpl. now rewrite IHf, IHa.
  - simpl. rewrite IH; [reflexivity | exact Ht].
Qed.

Lemma instantiate_rebuild side (d : Env) (gs : list Term) :
  forall h,
    instantiate side d (_rebuild_app h gs) =
    _rebuild_app (instantiate side d h) (map (instantiate side d) gs).
Proof.
  unfold _rebuild_app. induction gs as [|g gs IH]; intros h; simpl;
    [reflexivity | now rewrite IH].
Qed.

Lemma ho_mismatch_instance (t1 t2 : Term) (st : HOAUState) (env : Env) g st' env' :
  env_wf st env -> mismatch t1 t2 [] st env = (g, st', env') ->
  forall ext,
    instantiate fst (env' ++ ext) g = t1 /\
    instantiate snd (env' ++ ext) g = t2.
Proof.
  unfold mismatch, _apply_ctx; intros Hwf.
  destruct (find_pair env t1 t2) as [v|] eqn:Ef; simpl.
  - intros [= <- <- <-] ext.
    apply ho_find_pair_Some in Ef.
    assert (Hget : dict_get term_eqb env v = Some (t1, t2))
      by (apply (dict_get_In term_eqb ho_term_eqb_eq);
          [exact (keys_wf_NoDup fresh_key ho_fresh_key_inj _ _ Hwf) | exact Ef]).
    assert (Hk : In v (dict_keys env))
      by (unfold dict_keys; change v with (fst (v, (t1, t2))); now apply in_map).
    destruct (keys_wf_minted fresh_key _ _ _ Hwf Hk) as (n & _ & ->).
    simpl. rewrite (dict_get_app_l term_eqb _ _ _ _ Hget). now split.
  - intros [= <- <- <-] ext.
    destruct (keys_wf_set term_eqb ho_term_eqb_eq fresh_key ho_fresh_key_inj
                (counter st) env (t1, t2) Hwf) as [E _].
    fold (fresh_key (counter st)). rewrite E, <- app_assoc. unfold fresh_key at 1 3.
    simpl instantiate. fold (fresh_key (counter st)).
    rewrite (dict_get_app_r term_eqb ho_term_eqb_eq)
      by (exact (keys_wf_fresh fresh_key ho_fresh_key_inj _ _ Hwf)).
    cbn [dict_get]. rewrite ho_term_eqb_refl. now split.
Qed.

Lemma zip_loop_opt_instance rec :
  keeps_env rec -> gives_instances rec ->
  forall l1 l2 st env gs st' env',
    env_wf st env ->
    Forall2 binder_free_run l1 l2 ->
    Forall no_minted_name l1 -> Forall no_minted_name l2 ->
    zip_loop_opt (fun a1 a2 => rec a1 a2 []) l1 l2 st env = Some (gs, st', env') ->
    forall ext, minted_keys fresh_key ext ->
      map (instantiate fst (env' ++ ext)) gs = l1 /\
      map (instantiate snd (env' ++ ext)) gs = l2.
Proof.
  intros Hk Hrec.
  induction l1 as [|a1 l1 IH]; intros l2 st env gs st' env' Hwf HB N1 N2;
    inversion HB as [|? a2 ? l2' HB1 HB']; subst; simpl.
  - intros [= <- <- <-] ext _. now split.
  - destruct (rec a1 a2 [] st env) as [[[g st1] env1]|] eqn:E1; [|discriminate].
    destruct (zip_loop_opt _ l1 l2' st1 env1) as [[[gs' st2] env2]|] eqn:E2;
      [|discriminate].
    intros [= <- <- <-] ext Hext.
    inversion N1; inversion N2; subst.
    pose proof (Hk _ _ _ _ _ _ _ _ Hwf E1) as (_ & _ & Hwf1).
    pose proof (zip_loop_opt_grows rec [] Hk _ _ _ _ _ _ _ Hwf1 E2)
      as (_ & [e2 ->] & Hwf2).
    assert (Hrest : minted_keys fresh_key (e2 ++ ext)).
    { apply (minted_keys_app fresh_key). split; [|exact Hext].
      pose proof (keys_wf_all_minted fresh_key _ _ Hwf2) as Hall.
      apply (minted_keys_app fresh_key) in Hall. tauto. }
    destruct (Hrec a1 a2 st env g st1 env1) with (ext := e2 ++ ext) as [L R];
      auto.
    destruct (IH l2' st1 env1 gs' st2 (env1 ++ e2)) with (ext := ext) as [L' R'];
      auto.
    simpl. rewrite L', R', <- app_assoc, L, R. now split.
Qed.

Lemma rigid_rigid_true (h1 h2 : Term) (args1 args2 : list Term) :
  rigid_rigid h1 h2 args1 args2 = true ->
  (exists c, h1 = Const c /\ h2 = Const c) /\
  List.length args1 = List.length args2.
Proof.
  destruct h1 as [x|c|f a|x b], h2 as [y|d|f' a'|y b']; simpl; try discriminate.
  intros H. apply andb_true_iff in H as [Hn Hl].
  apply String.eqb_eq in Hn. apply Nat.eqb_eq in Hl. subst. eauto.
Qed.

Lemma binder_free_run_args (l : list Term) : Forall2 binder_free_run l l.
Proof. induction l; constructor; [apply bfr_equal | assumption]. Qed.

(** In a run that meets no pair of [Lam]s, a rigid match has such runs at
    every argument pair. *)
Lemma binder_free_run_rigid (t1 t2 : Term) :
  binder_free_run t1 t2 ->
  rigid_rigid (fst (_spine t1)) (fst (_spine t2))
              (snd (_spine t1)) (snd (_spine t2)) = true ->
  Forall2 binder_free_run (snd (_spine t1)) (snd (_spine t2)).
Proof.
  intros HB Hr. inversion HB as [t|? ? c args1 args2 E1 E2 HF|? ? _ Hr']; subst.
  - apply binder_free_run_args.
  - now rewrite E1, E2.
  - congruence.
Qed.

Lemma spine_case_instance rec :
  keeps_env rec -> gives_instances rec -> gives_instances (spine_case rec).
Proof.
  intros Hk Hrec t1 t2 st env g st' env' Hwf HB N1 N2. unfold spine_case.
  pose proof (_rebuild_app_spine t1) as R1.
  pose proof (_rebuild_app_spine t2) as R2.
  pose proof (binder_free_run_rigid t1 t2 HB) as HBA.
  pose proof (spine_args_Forall _ no_minted_name_App t1 N1) as NA1.
  pose proof (spine_args_Forall _ no_minted_name_App t2 N2) as NA2.
  destruct (_spine t1) as [h1 args1], (_spine t2) as [h2 args2]. simpl in *.
  destruct (rigid_rigid h1 h2 args1 args2) eqn:Er.
  - apply rigid_rigid_true in Er as [(c & -> & ->) Hlen].
    destruct (zip_loop_opt _ args1 args2 st env) as [[[gs st1] env1]|] eqn:E;
      [|discriminate].
    intros [= <- <- <-] ext Hext.
    destruct (zip_loop_opt_instance rec Hk Hrec _ _ _ _ _ _ _
                Hwf (HBA eq_refl) NA1 NA2 E ext Hext) as [L R].
    rewrite !instantiate_rebuild, L, R. simpl. now split.
  - intros [= Hm] ext _. exact (ho_mismatch_instance _ _ _ _ _ _ _ Hwf Hm ext).
Qed.

Lemma _ho_au_body_instance rec :
  keeps_env rec -> gives_instances rec -> gives_instances (_ho_au_body rec).
Proof.
  intros Hk Hrec t1 t2 st env g st' env' Hwf HB N1 N2. unfold _ho_au_body.
  destruct (term_eqb t1 t2) eqn:Eq.
  - apply ho_term_eqb_eq in Eq; subst t2. intros [= <- <- <-] ext Hext.
    assert (Hall : minted_keys fresh_key (env ++ ext))
      by (apply (minted_keys_app fresh_key); split;
          [exact (keys_wf_all_minted fresh_key _ _ Hwf) | exact Hext]).
    split; now apply ho_instantiate_unchanged.
  - destruct t1 as [x|c|f a|x b]; try (now apply spine_case_instance).
    destruct t2 as [y|d|f' a'|y b']; try (now apply spine_case_instance).
    exfalso. inversion HB as [t|? ? c args1 args2 E1 E2 HF|? ? Hl Hr]; subst.
    + now rewrite ho_term_eqb_refl in Eq.
    + discriminate E1.
    + discriminate Hl.
Qed.

(** For inputs without minted names whose run compares no two [Lam]s, the
    generalization instantiates back to both inputs. *)
Lemma _ho_au_instance (fuel : nat) : gives_instances (_ho_au fuel).
Proof.
  induction fuel as [|fuel IH].
  - intros t1 t2 st env g st' env' _ _ _ _; discriminate.
  - exact (_ho_au_body_instance _ (_ho_au_grows fuel) IH).
Qed.

Lemma Forall2_of_Forall {A : Type} (P Q : A -> Prop) (R : A -> A -> Prop)
    (HR : forall a b, P a -> Q b -> R a b) (l1 : list A) :
  forall l2, List.length l1 = List.length l2 ->
    Forall P l1 -> Forall Q l2 -> Forall2 R l1 l2.
Proof.
  induction l1 as [|a l1 IH]; intros [|b l2] Hlen H1 H2; simpl in Hlen;
    try discriminate; constructor;
    inversion H1; inversion H2; subst; auto.
Qed.

(** Inputs without binders never lead to a pair of [Lam]s. *)
Lemma lam_free_binder_free_run (n : nat) :
  forall t1 t2, term_size t1 <= n ->
    lam_free t1 = true -> lam_free t2 = true -> binder_free_run t1 t2.
Proof.
  induction n as [|n IH]; intros t1 t2 Hsz F1 F2.
  - destruct t1; simpl in Hsz; lia.
  - destruct (rigid_rigid (fst (_spine t1)) (fst (_spine t2))
                          (snd (_spine t1)) (snd (_spine t2))) eqn:Er.
    + destruct (rigid_rigid_true _ _ _ _ Er) as [(c & E1 & E2) Hlen].
      apply (bfr_rigid t1 t2 c (snd (_spine t1)) (snd (_spine t2))).
      * rewrite <- E1. now destruct (_spine t1).
      * rewrite <- E2. now destruct (_spine t2).
      * apply (Forall2_of_Forall
                 (fun a => term_size a <= n /\ lam_free a = true)
                 (fun b => lam_free b = true)).
        -- intros a b [Ha Fa] Fb. now apply IH.
        -- exact Hlen.
        -- pose proof (spine_args_size t1) as S1.
           pose proof (spine_args_Forall _ lam_free_App t1 F1) as L1.
           rewrite Forall_forall in *. intros a Ha.
           split; [specialize (S1 a Ha); lia | exact (L1 a Ha)].
        -- exact (spine_args_Forall _ lam_free_App t2 F2).
    + apply bfr_flex; [|exact Er]. destruct t1; try reflexivity. discriminate F1.
Qed.

End HOFacts.

(** * The specification's claims *)

(** ** Worked examples of the higher-order engine *)

(** C2, as the specification words it, does not hold: the environment entry
    of [F0] is not the pair of heads [(f, g)]. *)
Lemma binder_mismatch_env_is_not_heads :
  HO.ho_anti_unify
    (HO.Lam "x" (HO.App (HO.Const "f") (HO.Var "x")))
    (HO.Lam "x" (HO.App (HO.Const "g") (HO.Var "x")))
  <> Some (HO.Lam "x" (HO.App (HO.Var "F0") (HO.Var "x")),
           [(HO.Var "F0", (HO.Const "f", HO.Const "g"))]).
Proof. vm_compute. discriminate. Qed.

(** C2 (amended): [ho_anti_unify] on [Lam x. f x] and [Lam x. g x] returns
    [Lam x. F0 x], the fresh variable applied to the bound variable, and an
    environment with the single entry [F0 |-> (f x, g x)]: the whole
    mismatched bodies, as the mismatch case stores the pair [(t1, t2)] it
    was called on. *)
Theorem binder_parametrized_mismatch :
  HO.ho_anti_unify
    (HO.Lam "x" (HO.App (HO.Const "f") (HO.Var "x")))
    (HO.Lam "x" (HO.App (HO.Const "g") (HO.Var "x")))
  = Some (HO.Lam "x" (HO.App (HO.Var "F0") (HO.Var "x")),
          [(HO.Var "F0", (HO.App (HO.Const "f") (HO.Var "x"),
                          HO.App (HO.Const "g") (HO.Var "x")))]).
Proof. reflexivity. Qed.

(** C3, as the specification words it, does not hold: the environment entry
    of [F0] is not [(G, H)]. *)
Lemma cross_name_env_is_not_heads :
  HO.ho_anti_unify
    (HO.Lam "x" (HO.App (HO.Const "T") (HO.App (HO.Const "G") (HO.Var "x"))))
    (HO.Lam "y" (HO.App (HO.Const "T") (HO.App (HO.Const "H") (HO.Var "y"))))
  <> Some (HO.Lam "z" (HO.App (HO.Const "T") (HO.App (HO.Var "F0") (HO.Var "z"))),
           [(HO.Var "F0", (HO.Const "G", HO.Const "H"))]).
Proof. vm_compute. discriminate. Qed.

(** C3 (amended): [ho_anti_unify] on [Lam x. T (G x)] and [Lam y. T (H y)]
    returns [Lam z. T (F0 z)]: the bound names [x] and [y] are both renamed
    to [z] before the bodies are compared and the rigid head [T] is kept.
    The environment has the single entry [F0 |-> (G z, H z)], the renamed
    mismatched arguments. *)
Theorem cross_name_binder_unification :
  HO.ho_anti_unify
    (HO.Lam "x" (HO.App (HO.Const "T") (HO.App (HO.Const "G") (HO.Var "x"))))
    (HO.Lam "y" (HO.App (HO.Const "T") (HO.App (HO.Const "H") (HO.Var "y"))))
  = Some (HO.Lam "z" (HO.App (HO.Const "T") (HO.App (HO.Var "F0") (HO.Var "z"))),
          [(HO.Var "F0", (HO.App (HO.Const "G") (HO.Var "z"),
                          HO.App (HO.Const "H") (HO.Var "z")))]).
Proof. reflexivity. Qed.

(** ** Reflexivity *)

Lemma HO_term_size_pos (t : HO.Term) : exists n, HO.term_size t = S n.
Proof. destruct t; simpl; eauto. Qed.

(** C4: identical inputs generalize to the input itself with an empty
    environment, in both engines, and the counter of the call is still [0]
    afterwards: no variable was minted. *)
Theorem reflexivity_of_generalization :
  (forall t : FO.Term,
      FO.anti_unify t t None None = (t, []) /\
      FO.anti_unify_rec t t FO.AUState_new [] = (t, FO.AUState_new, [])) /\
  (forall t : HO.Term,
      HO.ho_anti_unify t t = Some (t, []) /\
      HO._ho_au (HO.term_size t) t t [] HO.HOAUState_new []
      = Some (t, HO.HOAUState_new, [])).
Proof.
  split; intros t.
  - assert (E : FO.anti_unify_rec t t FO.AUState_new [] = (t, FO.AUState_new, [])).
    { rewrite FOFacts.anti_unify_rec_unfold. unfold FO.anti_unify_body.
      now rewrite FOFacts.term_eqb_refl. }
    split; [|exact E]. unfold FO.anti_unify. now rewrite E.
  - assert (E : HO._ho_au (HO.term_size t) t t [] HO.HOAUState_new []
                = Some (t, HO.HOAUState_new, [])).
    { destruct (HO_term_size_pos t) as [n ->]. simpl. unfold HO._ho_au_body.
      now rewrite HOFacts.ho_term_eqb_refl. }
    split; [|exact E]. unfold HO.ho_anti_unify. now rewrite E.
Qed.

(** ** Top-level mismatch *)

Lemma FO_mismatch_empty (t1 t2 : FO.Term) :
  FO.mismatch t1 t2 FO.AUState_new []
  = (FO.Var "X0", FO.mkAUState 1, [(FO.Var "X0", (t1, t2))]).
Proof. reflexivity. Qed.

(** C6: when the head symbols or the arities of [t1] and [t2] differ (the
    terms are then unequal), [anti_unify] returns the single variable [X0]
    with the environment [{X0: (t1, t2)}]; and the body of the function gives
    that result whatever its recursive calls would do, so none is made. *)
Theorem top_level_mismatch (t1 t2 : FO.Term) :
  FO.head_symbol t1 <> FO.head_symbol t2 \/ FO.arity t1 <> FO.arity t2 ->
  FO.anti_unify t1 t2 None None
  = (FO.Var "X0", [(FO.Var "X0", (t1, t2))]) /\
  (forall rec,
      FO.anti_unify_body rec t1 t2 FO.AUState_new []
      = (FO.Var "X0", FO.mkAUState 1, [(FO.Var "X0", (t1, t2))])).
Proof.
  intros Hdiff.
  assert (Hne : FO.term_eqb t1 t2 = false).
  { destruct (FO.term_eqb t1 t2) eqn:E; [|reflexivity].
    apply FOFacts.term_eqb_eq in E. subst. destruct Hdiff; congruence. }
  assert (Hbody : forall rec,
             FO.anti_unify_body rec t1 t2 FO.AUState_new []
             = (FO.Var "X0", FO.mkAUState 1, [(FO.Var "X0", (t1, t2))])).
  { intros rec. unfold FO.anti_unify_body. rewrite Hne.
    destruct t1 as [x|c|s1 args1]; try apply FO_mismatch_empty.
    destruct t2 as [y|d|s2 args2]; try apply FO_mismatch_empty.
    destruct (String.eqb s1 s2 && Nat.eqb (List.length args1) (List.length args2))
      eqn:E; [|apply FO_mismatch_empty].
    apply andb_true_iff in E as [Es El].
    apply String.eqb_eq in Es. apply Nat.eqb_eq in El.
    simpl in Hdiff. destruct Hdiff; contradiction. }
  split; [|exact Hbody].
  unfold FO.anti_unify. rewrite FOFacts.anti_unify_rec_unfold.
  now rewrite (Hbody FO.anti_unify_rec).
Qed.

Lemma top_level_mismatch_witness :
  FO.anti_unify (FO.Func "f" [FO.Const "a"]) (FO.Func "g" [FO.Const "a"; FO.Const "b"])
    None None
  = (FO.Var "X0",
     [(FO.Var "X0", (FO.Func "f" [FO.Const "a"],
                     FO.Func "g" [FO.Const "a"; FO.Const "b"]))]).
Proof.
  apply (top_level_mismatch
           (FO.Func "f" [FO.Const "a"])
           (FO.Func "g" [FO.Const "a"; FO.Const "b"])).
  right. simpl. lia.
Defined.

(** ** The list operation *)

Lemma FO_zip_loop_threaded (l1 : list FO.Term) :
  forall l2 st env,
    List.length l1 = List.length l2 ->
    exists out st' env',
      zip_loop FO.anti_unify_rec l1 l2 st env = (out, st', env') /\
      FO.threaded l1 l2 st env out st' env'.
Proof.
  induction l1 as [|a l1 IH]; intros [|b l2] st env Hlen; simpl in Hlen;
    try discriminate.
  - exists [], st, env. split; [reflexivity | constructor].
  - simpl. destruct (FO.anti_unify_rec a b st env) as [[g st1] env1] eqn:E1.
    destruct (IH l2 st1 env1) as (gs & st2 & env2 & E2 & Hth); [lia|].
    rewrite E2. exists (g :: gs), st2, env2.
    split; [reflexivity | econstructor; eauto].
Qed.

Lemma FO_threaded_length l1 l2 st env out st' env' :
  FO.threaded l1 l2 st env out st' env' -> List.length out = List.length l1.
Proof. induction 1; simpl; congruence. Qed.

(** C7: [anti_unify_list] fails, with the [ValueError] and nothing else,
    exactly when the lengths differ; on lists of equal length it returns one
    generalization per position, each computed by [anti_unify] from the
    counter and the environment left by the position before it, starting
    from a new state and an empty environment. *)
Theorem anti_unify_list_length_mismatch :
  (forall ts1 ts2,
      (exists e, FO.anti_unify_list ts1 ts2 = inl e) <->
      List.length ts1 <> List.length ts2) /\
  (forall ts1 ts2, List.length ts1 <> List.length ts2 ->
      FO.anti_unify_list ts1 ts2
      = inl (FO.ValueError "Lists must have same length for anti_unify_list")) /\
  (forall ts1 ts2, List.length ts1 = List.length ts2 ->
      exists out st env,
        FO.anti_unify_list ts1 ts2 = inr (out, env) /\
        List.length out = List.length ts1 /\
        FO.threaded ts1 ts2 FO.AUState_new [] out st env).
Proof.
  assert (Hfail : forall ts1 ts2, List.length ts1 <> List.length ts2 ->
      FO.anti_unify_list ts1 ts2
      = inl (FO.ValueError "Lists must have same length for anti_unify_list")).
  { intros ts1 ts2 Hne. unfold FO.anti_unify_list.
    apply Nat.eqb_neq in Hne. now rewrite Hne. }
  assert (Hok : forall ts1 ts2, List.length ts1 = List.length ts2 ->
      exists out st env,
        FO.anti_unify_list ts1 ts2 = inr (out, env) /\
        List.length out = List.length ts1 /\
        FO.threaded ts1 ts2 FO.AUState_new [] out st env).
  { intros ts1 ts2 Heq. unfold FO.anti_unify_list.
    destruct (FO_zip_loop_threaded ts1 ts2 FO.AUState_new [] Heq)
      as (out & st & env & E & Hth).
    apply Nat.eqb_eq in Heq. rewrite Heq, E. simpl.
    exists out, st, env. repeat split; [|exact Hth].
    exact (FO_threaded_length _ _ _ _ _ _ _ Hth). }
  split; [|split; assumption].
  intros ts1 ts2. split.
  - intros [e He] Heq. destruct (Hok ts1 ts2 Heq) as (out & st & env & E & _).
    congruence.
  - intros Hne. eexists. exact (Hfail ts1 ts2 Hne).
Qed.

Lemma anti_unify_list_length_mismatch_witness :
  FO.anti_unify_list [FO.Const "a"] [FO.Const "a"; FO.Const "b"]
  = inl (FO.ValueError "Lists must have same length for anti_unify_list") /\
  exists out st env,
    FO.anti_unify_list [FO.Const "a"; FO.Const "a"] [FO.Const "b"; FO.Const "b"]
    = inr (out, env) /\
    List.length out = 2 /\
    FO.threaded [FO.Const "a"; FO.Const "a"] [FO.Const "b"; FO.Const "b"]
      FO.AUState_new [] out st env.
Proof.
  destruct anti_unify_list_length_mismatch as (_ & Hfail & Hok). split.
  - apply (Hfail [FO.Const "a"] [FO.Const "a"; FO.Const "b"]). simpl. lia.
  - apply (Hok [FO.Const "a"; FO.Const "a"] [FO.Const "b"; FO.Const "b"]).
    reflexivity.
Defined.

(** ** Substitution for a bound name *)

Lemma HO_subst_bound_removes (t : HO.Term) (old name : string) :
  name <> old ->
  HO.free_in old (HO._subst_bound t old (HO.Var name)) = false.
Proof.
  intros Hne. induction t as [x|c|f IHf a IHa|x body IH]; simpl.
  - destruct (String.eqb x old) eqn:E; simpl.
    + now apply String.eqb_neq.
    + exact E.
  - reflexivity.
  - now rewrite IHf, IHa.
  - destruct (String.eqb x old) eqn:E; simpl; rewrite E; [reflexivity | exact IH].
Qed.

Lemma HO_subst_bound_not_free (t : HO.Term) (old : string) (v : HO.Term) :
  HO.free_in old t = false -> HO._subst_bound t old v = t.
Proof.
  induction t as [x|c|f IHf a IHa|x body IH]; simpl.
  - now intros ->.
  - reflexivity.
  - intros H. apply orb_false_iff in H as [Hf Ha]. now rewrite IHf, IHa.
  - destruct (String.eqb x old); [reflexivity|].
    intros H. now rewrite IH.
Qed.

(** C8: [_subst_bound t old v] puts [v] at a variable named [old], leaves
    other variables and constants alone, goes into both sides of an
    application, goes into the body of a [Lam] that binds another name, and
    returns a [Lam] that binds [old] as it is.  So no free occurrence of
    [old] is left (when [v] is a variable with another name), and a term
    where [old] is not free, such as one whose occurrences of [old] are all
    under a [Lam old], is unchanged. *)
Theorem subst_bound_shadowing :
  (forall old v, HO._subst_bound (HO.Var old) old v = v) /\
  (forall x old v, x <> old -> HO._subst_bound (HO.Var x) old v = HO.Var x) /\
  (forall c old v, HO._subst_bound (HO.Const c) old v = HO.Const c) /\
  (forall f a old v,
      HO._subst_bound (HO.App f a) old v
      = HO.App (HO._subst_bound f old v) (HO._subst_bound a old v)) /\
  (forall old body v,
      HO._subst_bound (HO.Lam old body) old v = HO.Lam old body) /\
  (forall x body old v, x <> old ->
      HO._subst_bound (HO.Lam x body) old v
      = HO.Lam x (HO._subst_bound body old v)) /\
  (forall t old name, name <> old ->
      HO.free_in old (HO._subst_bound t old (HO.Var name)) = false) /\
  (forall t old v, HO.free_in old t = false -> HO._subst_bound t old v = t).
Proof.
  split; [|split; [|split; [|split; [|split; [|split; [|split]]]]]].
  - intros old v. simpl. now rewrite String.eqb_refl.
  - intros x old v Hne. simpl. apply String.eqb_neq in Hne. now rewrite Hne.
  - reflexivity.
  - reflexivity.
  - intros old body v. simpl. now rewrite String.eqb_refl.
  - intros x body old v Hne. simpl. apply String.eqb_neq in Hne. now rewrite Hne.
  - intros t old name. apply HO_subst_bound_removes.
  - intros t old v. apply HO_subst_bound_not_free.
Qed.

Lemma subst_bound_shadowing_witness :
  HO._subst_bound
    (HO.App (HO.Var "x") (HO.Lam "x" (HO.App (HO.Var "x") (HO.Var "y"))))
    "x" (HO.Var "z")
  = HO.App (HO.Var "z") (HO.Lam "x" (HO.App (HO.Var "x") (HO.Var "y"))) /\
  HO._subst_bound (HO.Var "y") "x" (HO.Var "z") = HO.Var "y" /\
  HO._subst_bound (HO.Lam "y" (HO.Var "x")) "x" (HO.Var "z")
  = HO.Lam "y" (HO.Var "z") /\
  HO.free_in "x" (HO._subst_bound (HO.Lam "y" (HO.Var "x")) "x" (HO.Var "z"))
  = false /\
  HO._subst_bound (HO.Lam "x" (HO.Var "x")) "y" (HO.Var "z")
  = HO.Lam "x" (HO.Var "x").
Proof.
  destruct subst_bound_shadowing
    as (HVar & HVar' & _ & HApp & HLam & HLam' & Hfree & Hnot).
  split; [|split; [|split; [|split]]].
  - rewrite HApp, HVar, HLam. reflexivity.
  - apply HVar'. discriminate.
  - rewrite HLam' by discriminate. now rewrite HVar.
  - apply Hfree. discriminate.
  - apply Hnot. reflexivity.
Defined.

(** ** Fresh variables *)

Lemma FO_fresh_var_key (st : FO.AUState) :
  FO.fresh_var st = (FO.fresh_key (FO.counter st), FO.mkAUState (FO.counter st + 1)).
Proof. reflexivity. Qed.

Lemma HO_fresh_var_key (st : HO.HOAUState) :
  HO.fresh_var st "F"
  = (HO.fresh_key (HO.counter st), HO.mkHOAUState (HO.counter st + 1)).
Proof. reflexivity. Qed.

(** C10: the variables minted in a call are [X0], [X1], ... (resp. [F0],
    [F1], ...), different counter values give different variables and each
    minting raises the counter by one.  From a state whose environment keys
    are the variables minted so far -- as in a top-level call, which starts
    at counter [0] with no key -- every call, at any depth, mints a variable
    that is not yet a key, keeps the earlier entries in place, and ends in
    such a state again: the keys of the environment are pairwise distinct
    and no entry is overwritten. *)
Theorem fresh_variables_distinct :
  (forall m n, m <> n -> FO.fresh_key m <> FO.fresh_key n) /\
  (forall m n, m <> n -> HO.fresh_key m <> HO.fresh_key n) /\
  (forall st, fst (FO.fresh_var st) = FO.fresh_key (FO.counter st) /\
              FO.counter (snd (FO.fresh_var st)) = S (FO.counter st)) /\
  (forall st, fst (HO.fresh_var st "F") = HO.fresh_key (HO.counter st) /\
              HO.counter (snd (HO.fresh_var st "F")) = S (HO.counter st)) /\
  (forall st env, FO.env_wf st env ->
      ~ In (fst (FO.fresh_var st)) (dict_keys env)) /\
  (forall st env, HO.env_wf st env ->
      ~ In (fst (HO.fresh_var st "F")) (dict_keys env)) /\
  (forall t1 t2 st env g st' env',
      FO.env_wf st env -> FO.anti_unify_rec t1 t2 st env = (g, st', env') ->
      FO.grows st env st' env' /\ NoDup (dict_keys env')) /\
  (forall fuel t1 t2 ctx st env g st' env',
      HO.env_wf st env -> HO._ho_au fuel t1 t2 ctx st env = Some (g, st', env') ->
      HO.grows st env st' env' /\ NoDup (dict_keys env')) /\
  (forall t1 t2 g env,
      FO.anti_unify t1 t2 None None = (g, env) ->
      NoDup (dict_keys env) /\
      exists c, dict_keys env = map FO.fresh_key (seq 0 c)) /\
  (forall t1 t2, exists g env c,
      HO.ho_anti_unify t1 t2 = Some (g, env) /\
      NoDup (dict_keys env) /\
      dict_keys env = map HO.fresh_key (seq 0 c)).
Proof.
  assert (HFO : forall t1 t2 st env g st' env',
      FO.env_wf st env -> FO.anti_unify_rec t1 t2 st env = (g, st', env') ->
      FO.grows st env st' env' /\ NoDup (dict_keys env')).
  { intros t1 t2 st env g st' env' Hwf E.
    pose proof (FOFacts.anti_unify_rec_grows _ _ _ _ _ _ _ Hwf E) as G.
    split; [exact G|]. destruct G as (_ & _ & Hwf').
    exact (keys_wf_NoDup FO.fresh_key FOFacts.fresh_key_inj _ _ Hwf'). }
  assert (HHO : forall fuel t1 t2 ctx st env g st' env',
      HO.env_wf st env -> HO._ho_au fuel t1 t2 ctx st env = Some (g, st', env') ->
      HO.grows st env st' env' /\ NoDup (dict_keys env')).
  { intros fuel t1 t2 ctx st env g st' env' Hwf E.
    pose proof (HOFacts._ho_au_grows fuel _ _ _ _ _ _ _ _ Hwf E) as G.
    split; [exact G|]. destruct G as (_ & _ & Hwf').
    exact (keys_wf_NoDup HO.fresh_key HOFacts.ho_fresh_key_inj _ _ Hwf'). }
  split; [|split; [|split; [|split; [|split; [|split; [|split; [|split; [|split]]]]]]]].
  - intros m n Hne E. apply Hne, FOFacts.fresh_key_inj, E.
  - intros m n Hne E. apply Hne, HOFacts.ho_fresh_key_inj, E.
  - intros st. simpl. split; [reflexivity | lia].
  - intros st. simpl. split; [reflexivity | lia].
  - intros st env Hwf.
    exact (keys_wf_fresh FO.fresh_key FOFacts.fresh_key_inj _ _ Hwf).
  - intros st env Hwf.
    exact (keys_wf_fresh HO.fresh_key HOFacts.ho_fresh_key_inj _ _ Hwf).
  - exact HFO.
  - exact HHO.
  - intros t1 t2 g env. unfold FO.anti_unify.
    destruct (FO.anti_unify_rec t1 t2 FO.AUState_new []) as [[g0 st0] env0] eqn:E.
    intros [= <- <-].
    destruct (HFO _ _ _ _ _ _ _ FOFacts.env_wf_new E)
      as [(_ & _ & Hwf) Hnd].
    split; [exact Hnd | exists (FO.counter st0); exact Hwf].
  - intros t1 t2. unfold HO.ho_anti_unify.
    destruct (HOFacts._ho_au_total (HO.term_size t1) t1 t2 [] HO.HOAUState_new []
                (le_n _)) as [[[g st] env] E].
    rewrite E. exists g, env, (HO.counter st).
    destruct (HHO _ _ _ _ _ _ _ _ _ HOFacts.ho_env_wf_new E)
      as [(_ & _ & Hwf) Hnd].
    split; [reflexivity | split; [exact Hnd | exact Hwf]].
Qed.

Lemma fresh_variables_distinct_witness :
  FO.fresh_key 0 <> FO.fresh_key 1 /\
  ~ In (fst (FO.fresh_var (FO.mkAUState 1)))
       (dict_keys [(FO.Var "X0", (FO.Const "a", FO.Const "b"))]) /\
  FO.grows (FO.mkAUState 1) [(FO.Var "X0", (FO.Const "a", FO.Const "b"))]
           (FO.mkAUState 2)
           [(FO.Var "X0", (FO.Const "a", FO.Const "b"));
            (FO.Var "X1", (FO.Const "c", FO.Const "d"))] /\
  NoDup (dict_keys (snd (FO.anti_unify
                           (FO.Func "f" [FO.Const "a"; FO.Const "c"])
                           (FO.Func "f" [FO.Const "b"; FO.Const "d"])
                           None None))).
Proof.
  destruct fresh_variables_distinct
    as (Hinj & _ & _ & _ & Hfresh & _ & Hrec & _ & Htop & _).
  split; [|split; [|split]].
  - apply Hinj. discriminate.
  - apply (Hfresh (FO.mkAUState 1) [(FO.Var "X0", (FO.Const "a", FO.Const "b"))]).
    reflexivity.
  - apply (Hrec (FO.Const "c") (FO.Const "d") (FO.mkAUState 1)
             [(FO.Var "X0", (FO.Const "a", FO.Const "b"))] (FO.Var "X1")).
    + reflexivity.
    + reflexivity.
  - apply (Htop (FO.Func "f" [FO.Const "a"; FO.Const "c"])
                (FO.Func "f" [FO.Const "b"; FO.Const "d"])
                (FO.Func "f" [FO.Var "X0"; FO.Var "X1"])).
    reflexivity.
Defined.

(** ** The instance property *)

(** C1, as the specification words it, does not hold.  First-order: when an
    input carries a variable named like a minted one, here [X0], the same
    name stands for the input's variable and for the mismatch [(a, b)].
    Higher-order: under a binder the mismatch is [F0 x] in the
    generalization while [F0] is bound to the bare subterms [(a, b)], so
    putting [a] for [F0] leaves an application [a x]; and two [Lam]s with
    different bound names are both renamed to [z], so the generalization of
    [Lam x. x] and [Lam y. y] is [Lam z. z], which is neither input. *)
Lemma instance_property_fails :
  (FO.anti_unify (FO.Func "f" [FO.Var "X0"; FO.Const "a"])
                 (FO.Func "f" [FO.Var "X0"; FO.Const "b"]) None None
   = (FO.Func "f" [FO.Var "X0"; FO.Var "X0"],
      [(FO.Var "X0", (FO.Const "a", FO.Const "b"))]) /\
   FO.instantiate fst [(FO.Var "X0", (FO.Const "a", FO.Const "b"))]
                  (FO.Func "f" [FO.Var "X0"; FO.Var "X0"])
   <> FO.Func "f" [FO.Var "X0"; FO.Const "a"]) /\
  (HO.ho_anti_unify (HO.Lam "x" (HO.Const "a")) (HO.Lam "x" (HO.Const "b"))
   = Some (HO.Lam "x" (HO.App (HO.Var "F0") (HO.Var "x")),
           [(HO.Var "F0", (HO.Const "a", HO.Const "b"))]) /\
   HO.instantiate fst [(HO.Var "F0", (HO.Const "a", HO.Const "b"))]
                  (HO.Lam "x" (HO.App (HO.Var "F0") (HO.Var "x")))
   <> HO.Lam "x" (HO.Const "a")) /\
  (HO.ho_anti_unify (HO.Lam "x" (HO.Var "x")) (HO.Lam "y" (HO.Var "y"))
   = Some (HO.Lam "z" (HO.Var "z"), []) /\
   HO.instantiate fst [] (HO.Lam "z" (HO.Var "z")) <> HO.Lam "x" (HO.Var "x")).
Proof.
  split; [|split]; (split; [reflexivity | vm_compute; discriminate]).
Qed.

(** C1 (amended): for the first-order engine, when no variable of [t1] or
    [t2] has a name of the form [X<n>], replacing in the generalization every
    variable that is a key of the environment by the left (right) component
    of its entry gives [t1] ([t2]).  For the higher-order engine the same
    holds, with names [F<n>], when the run never compares two unequal [Lam]
    terms; in particular when [t1] and [t2] contain no [Lam]. *)
Theorem instance_property :
  (forall t1 t2 g env,
      FO.no_minted_name t1 -> FO.no_minted_name t2 ->
      FO.anti_unify t1 t2 None None = (g, env) ->
      FO.instantiate fst env g = t1 /\ FO.instantiate snd env g = t2) /\
  (forall t1 t2,
      HO.binder_free_run t1 t2 ->
      HO.no_minted_name t1 -> HO.no_minted_name t2 ->
      exists g env,
        HO.ho_anti_unify t1 t2 = Some (g, env) /\
        HO.instantiate fst env g = t1 /\ HO.instantiate snd env g = t2) /\
  (forall t1 t2,
      HO.lam_free t1 = true -> HO.lam_free t2 = true ->
      HO.no_minted_name t1 -> HO.no_minted_name t2 ->
      exists g env,
        HO.ho_anti_unify t1 t2 = Some (g, env) /\
        HO.instantiate fst env g = t1 /\ HO.instantiate snd env g = t2).
Proof.
  assert (HHO : forall t1 t2,
      HO.binder_free_run t1 t2 ->
      HO.no_minted_name t1 -> HO.no_minted_name t2 ->
      exists g env,
        HO.ho_anti_unify t1 t2 = Some (g, env) /\
        HO.instantiate fst env g = t1 /\ HO.instantiate snd env g = t2).
  { intros t1 t2 HB N1 N2. unfold HO.ho_anti_unify.
    destruct (HOFacts._ho_au_total (HO.term_size t1) t1 t2 [] HO.HOAUState_new []
                (le_n _)) as [[[g st] env] E].
    rewrite E. exists g, env. split; [reflexivity|].
    pose proof (HOFacts._ho_au_instance _ t1 t2 _ _ _ _ _
                  HOFacts.ho_env_wf_new HB N1 N2 E [] (Forall_nil _)) as H.
    now rewrite app_nil_r in H. }
  split; [|split].
  - intros t1 t2 g env N1 N2. unfold FO.anti_unify.
    destruct (FO.anti_unify_rec t1 t2 FO.AUState_new []) as [[g0 st0] env0] eqn:E.
    intros [= <- <-].
    pose proof (FOFacts.anti_unify_rec_instance t1 t2 _ _ _ _ _
                  FOFacts.env_wf_new N1 N2 E [] (Forall_nil _)) as H.
    now rewrite app_nil_r in H.
  - exact HHO.
  - intros t1 t2 F1 F2. apply HHO.
    exact (HOFacts.lam_free_binder_free_run _ t1 t2 (le_n _) F1 F2).
Qed.

Lemma instance_property_witness :
  (FO.instantiate fst
     [(FO.Var "X0", (FO.Const "a", FO.Const "c"));
      (FO.Var "X1", (FO.Const "b", FO.Const "d"))]
     (FO.Func "f" [FO.Var "X0"; FO.Func "g" [FO.Var "X1"]; FO.Var "y"])
   = FO.Func "f" [FO.Const "a"; FO.Func "g" [FO.Const "b"]; FO.Var "y"] /\
   FO.instantiate snd
     [(FO.Var "X0", (FO.Const "a", FO.Const "c"));
      (FO.Var "X1", (FO.Const "b", FO.Const "d"))]
     (FO.Func "f" [FO.Var "X0"; FO.Func "g" [FO.Var "X1"]; FO.Var "y"])
   = FO.Func "f" [FO.Const "c"; FO.Func "g" [FO.Const "d"]; FO.Var "y"]) /\
  (exists g env,
      HO.ho_anti_unify
        (HO.App (HO.App (HO.Const "f") (HO.Lam "x" (HO.Var "x"))) (HO.Var "u"))
        (HO.App (HO.App (HO.Const "f") (HO.Lam "x" (HO.Var "x"))) (HO.Var "w"))
      = Some (g, env) /\
      HO.instantiate fst env g
      = HO.App (HO.App (HO.Const "f") (HO.Lam "x" (HO.Var "x"))) (HO.Var "u") /\
      HO.instantiate snd env g
      = HO.App (HO.App (HO.Const "f") (HO.Lam "x" (HO.Var "x"))) (HO.Var "w")) /\
  (exists g env,
      HO.ho_anti_unify
        (HO.App (HO.App (HO.Const "f") (HO.Var "u")) (HO.Const "c"))
        (HO.App (HO.App (HO.Const "f") (HO.Var "w")) (HO.Const "c"))
      = Some (g, env) /\
      HO.instantiate fst env g
      = HO.App (HO.App (HO.Const "f") (HO.Var "u")) (HO.Const "c") /\
      HO.instantiate snd env g
      = HO.App (HO.App (HO.Const "f") (HO.Var "w")) (HO.Const "c")).
Proof.
  destruct instance_property as (HFO & HHO & HLF). split; [|split].
  - apply (HFO (FO.Func "f" [FO.Const "a"; FO.Func "g" [FO.Const "b"]; FO.Var "y"])
               (FO.Func "f" [FO.Const "c"; FO.Func "g" [FO.Const "d"]; FO.Var "y"])).
    + intros n Hin. simpl in Hin. destruct Hin as [Hin|[]]. discriminate Hin.
    + intros n Hin. simpl in Hin. destruct Hin as [Hin|[]]. discriminate Hin.
    + reflexivity.
  - apply (HHO (HO.App (HO.App (HO.Const "f") (HO.Lam "x" (HO.Var "x"))) (HO.Var "u"))
               (HO.App (HO.App (HO.Const "f") (HO.Lam "x" (HO.Var "x"))) (HO.Var "w"))).
    + apply (HO.bfr_rigid _ _ "f" [HO.Lam "x" (HO.Var "x"); HO.Var "u"]
                                  [HO.Lam "x" (HO.Var "x"); HO.Var "w"]).
      * reflexivity.
      * reflexivity.
      * constructor; [apply HO.bfr_equal|].
        constructor; [|constructor].
        apply HO.bfr_flex; reflexivity.
    + intros n Hin. simpl in Hin. destruct Hin as [Hin|[Hin|[]]]; discriminate Hin.
    + intros n Hin. simpl in Hin. destruct Hin as [Hin|[Hin|[]]]; discriminate Hin.
  - apply (HLF (HO.App (HO.App (HO.Const "f") (HO.Var "u")) (HO.Const "c"))
               (HO.App (HO.App (HO.Const "f") (HO.Var "w")) (HO.Const "c"))).
    + reflexivity.
    + reflexivity.
    + intros n Hin. simpl in Hin. destruct Hin as [Hin|[]]. discriminate Hin.
    + intros n Hin. simpl in Hin. destruct Hin as [Hin|[]]. discriminate Hin.
Defined.

(** * Further properties of the code *)

(** ** First-order engine: exchanging the inputs *)

Lemma FO_term_eqb_sym (a b : FO.Term) : FO.term_eqb a b = FO.term_eqb b a.
Proof.
  destruct (FO.term_eqb a b) eqn:E1, (FO.term_eqb b a) eqn:E2; try reflexivity.
  - apply FOFacts.term_eqb_eq in E1. subst.
    now rewrite FOFacts.term_eqb_refl in E2.
  - apply FOFacts.term_eqb_eq in E2. subst.
    now rewrite FOFacts.term_eqb_refl in E1.
Qed.

Lemma FO_find_pair_swap (env : FO.Env) (t1 t2 : FO.Term) :
  FO.find_pair (FO.swap_env env) t2 t1 = FO.find_pair env t1 t2.
Proof.
  induction env as [|[v [u1 u2]] env IH]; simpl; [reflexivity|].
  rewrite andb_comm, IH. reflexivity.
Qed.

Lemma FO_dict_set_swap (env : FO.Env) (v t1 t2 : FO.Term) :
  dict_set FO.term_eqb (FO.swap_env env) v (t2, t1)
  = FO.swap_env (dict_set FO.term_eqb env v (t1, t2)).
Proof.
  induction env as [|[k [u1 u2]] env IH]; simpl; [reflexivity|].
  destruct (FO.term_eqb k v); simpl; [reflexivity | now rewrite IH].
Qed.

Lemma FO_mismatch_swap (t1 t2 : FO.Term) st env g st' env' :
  FO.mismatch t1 t2 st env = (g, st', env') ->
  FO.mismatch t2 t1 st (FO.swap_env env) = (g, st', FO.swap_env env').
Proof.
  unfold FO.mismatch. rewrite FO_find_pair_swap.
  destruct (FO.find_pair env t1 t2) as [v|]; simpl.
  - now intros [= <- <- <-].
  - intros [= <- <- <-]. now rewrite FO_dict_set_swap.
Qed.

Lemma FO_zip_loop_swap (l1 : list FO.Term) :
  Forall (fun a1 => forall a2 st env g st' env',
            FO.anti_unify_rec a1 a2 st env = (g, st', env') ->
            FO.anti_unify_rec a2 a1 st (FO.swap_env env)
            = (g, st', FO.swap_env env')) l1 ->
  forall l2 st env gs st' env',
    zip_loop FO.anti_unify_rec l1 l2 st env = (gs, st', env') ->
    zip_loop FO.anti_unify_rec l2 l1 st (FO.swap_env env)
    = (gs, st', FO.swap_env env').
Proof.
  induction 1 as [|a1 l1 Ha _ IH]; intros [|a2 l2] st env gs st' env'; simpl;
    try (now intros [= <- <- <-]).
  destruct (FO.anti_unify_rec a1 a2 st env) as [[g st1] env1] eqn:E1.
  destruct (zip_loop FO.anti_unify_rec l1 l2 st1 env1) as [[gs' st2] env2] eqn:E2.
  intros [= <- <- <-].
  now rewrite (Ha _ _ _ _ _ _ E1), (IH _ _ _ _ _ _ E2).
Qed.

Lemma FO_anti_unify_rec_swap (t1 : FO.Term) :
  forall t2 st env g st' env',
    FO.anti_unify_rec t1 t2 st env = (g, st', env') ->
    FO.anti_unify_rec t2 t1 st (FO.swap_env env) = (g, st', FO.swap_env env').
Proof.
  induction t1 as [x|c|s args IH] using FOFacts.Term_ind_args;
    intros t2 st env g st' env'; rewrite !FOFacts.anti_unify_rec_unfold;
    unfold FO.anti_unify_body; rewrite (FO_term_eqb_sym t2);
    (destruct (FO.term_eqb _ t2) eqn:Eq;
     [apply FOFacts.term_eqb_eq in Eq; subst t2; now intros [= <- <- <-]|]).
  - destruct t2; apply FO_mismatch_swap.
  - destruct t2; apply FO_mismatch_swap.
  - destruct t2 as [y|d|s2 args2]; try apply FO_mismatch_swap.
    rewrite (String.eqb_sym s2 s), (Nat.eqb_sym (List.length args2)).
    destruct (String.eqb s s2 && Nat.eqb (List.length args) (List.length args2))
      eqn:Es; [|apply FO_mismatch_swap].
    apply andb_true_iff in Es as [Es _]. apply String.eqb_eq in Es. subst s2.
    destruct (zip_loop FO.anti_unify_rec args args2 st env)
      as [[gs st1] env1] eqn:E.
    intros [= <- <- <-].
    now rewrite (FO_zip_loop_swap args IH _ _ _ _ _ _ E).
Qed.

(** X1: exchanging the two inputs of [anti_unify] gives the same
    generalization, and the same environment with the components of every
    pair exchanged. *)
Theorem anti_unify_exchange (t1 t2 : FO.Term) :
  FO.anti_unify t2 t1 None None
  = (fst (FO.anti_unify t1 t2 None None),
     FO.swap_env (snd (FO.anti_unify t1 t2 None None))).
Proof.
  unfold FO.anti_unify.
  destruct (FO.anti_unify_rec t1 t2 FO.AUState_new []) as [[g st] env] eqn:E.
  apply FO_anti_unify_rec_swap in E. simpl in E. now rewrite E.
Qed.

(** ** First-order engine: what the environment holds *)

Lemma FO_same_shape_body rec (t1 t2 : FO.Term) st env :
  FO.term_eqb t1 t2 = false -> FO.same_shape t1 t2 = false ->
  FO.anti_unify_body rec t1 t2 st env = FO.mismatch t1 t2 st env.
Proof.
  intros Hne Hs. unfold FO.anti_unify_body. rewrite Hne.
  destruct t1 as [x|c|s1 a1]; try reflexivity.
  destruct t2 as [y|d|s2 a2]; try reflexivity.
  simpl in Hs. now rewrite Hs.
Qed.

Section FOEnvInvariant.
Import FO.

(** [P] holds of every pair of terms the recursion is called on, [I] is the
    property of the environment to be kept. *)
Variable P : Term -> Term -> Prop.
Variable I : Env -> Prop.
Hypothesis P_args : forall s1 a1 s2 a2 x y,
  P (Func s1 a1) (Func s2 a2) -> In (x, y) (combine a1 a2) -> P x y.
Hypothesis I_mismatch : forall t1 t2 st env g st' env',
  P t1 t2 -> env_wf st env -> I env ->
  term_eqb t1 t2 = false -> same_shape t1 t2 = false ->
  mismatch t1 t2 st env = (g, st', env') -> I env'.

Lemma FO_zip_loop_keeps (l1 : list Term) :
  Forall (fun a1 => forall a2 st env g st' env',
            P a1 a2 -> env_wf st env -> I env ->
            anti_unify_rec a1 a2 st env = (g, st', env') -> I env') l1 ->
  forall l2 st env gs st' env',
    (forall x y, In (x, y) (combine l1 l2) -> P x y) ->
    env_wf st env -> I env ->
    zip_loop anti_unify_rec l1 l2 st env = (gs, st', env') -> I env'.
Proof.
  induction 1 as [|a1 l1 Ha _ IH]; intros [|a2 l2] st env gs st' env' HP Hwf HI;
    simpl; try (now intros [= <- <- <-]).
  destruct (anti_unify_rec a1 a2 st env) as [[g st1] env1] eqn:E1.
  destruct (zip_loop anti_unify_rec l1 l2 st1 env1) as [[gs' st2] env2] eqn:E2.
  intros [= <- <- <-].
  pose proof (FOFacts.anti_unify_rec_grows _ _ _ _ _ _ _ Hwf E1) as (_ & _ & Hwf1).
  eapply IH; [| exact Hwf1 | | exact E2].
  - intros x y Hin. apply HP. now right.
  - eapply Ha; [| exact Hwf | exact HI | exact E1]. apply HP. now left.
Qed.

Lemma FO_anti_unify_rec_keeps (t1 : Term) :
  forall t2 st env g st' env',
    P t1 t2 -> env_wf st env -> I env ->
    anti_unify_rec t1 t2 st env = (g, st', env') -> I env'.
Proof.
  induction t1 as [x|c|s args IH] using FOFacts.Term_ind_args;
    intros t2 st env g st' env' HP Hwf HI; rewrite FOFacts.anti_unify_rec_unfold;
    match goal with
    | |- context [anti_unify_body _ ?a t2 _ _] =>
        destruct (term_eqb a t2) eqn:Eq;
        [unfold anti_unify_body; rewrite Eq; now intros [= <- <- <-]|]
    end.
  - rewrite FO_same_shape_body by (exact Eq || reflexivity).
    intros Hm. exact (I_mismatch _ _ _ _ _ _ _ HP Hwf HI Eq eq_refl Hm).
  - rewrite FO_same_shape_body by (exact Eq || reflexivity).
    intros Hm. exact (I_mismatch _ _ _ _ _ _ _ HP Hwf HI Eq eq_refl Hm).
  - destruct (same_shape (Func s args) t2) eqn:Es.
    + unfold anti_unify_body. rewrite Eq.
      destruct t2 as [y|d|s2 args2]; try discriminate Es.
      simpl in Es. rewrite Es.
      destruct (zip_loop anti_unify_rec args args2 st env)
        as [[gs st1] env1] eqn:E.
      intros [= <- <- <-].
      eapply (FO_zip_loop_keeps args IH); [| exact Hwf | exact HI | exact E].
      intros x y Hin. exact (P_args _ _ _ _ _ _ HP Hin).
    + rewrite FO_same_shape_body by assumption.
      intros Hm. exact (I_mismatch _ _ _ _ _ _ _ HP Hwf HI Eq Es Hm).
Qed.

End FOEnvInvariant.

Lemma FO_find_pair_None (env : FO.Env) (t1 t2 : FO.Term) :
  FO.find_pair env t1 t2 = None -> ~ In (t1, t2) (map snd env).
Proof.
  induction env as [|[v [u1 u2]] env IH]; simpl; [tauto|].
  destruct (FO.term_eqb u1 t1 && FO.term_eqb u2 t2) eqn:E; [discriminate|].
  intros Hn [Heq|Hin]; [|now apply IH].
  injection Heq as -> ->. now rewrite !FOFacts.term_eqb_refl in E.
Qed.

Lemma NoDup_snoc {A : Type} (l : list A) (x : A) :
  NoDup l -> ~ In x l -> NoDup (l ++ [x]).
Proof.
  intros Hnd Hn. apply NoDup_app; [exact Hnd | constructor; [tauto | constructor] |].
  intros a Ha [<-|[]]. contradiction.
Qed.

(** What a mismatch does to the environment: nothing, or one new entry at
    the end, for a pair that no entry holds yet. *)
Lemma FO_mismatch_env (t1 t2 : FO.Term) st env g st' env' :
  FO.env_wf st env -> FO.mismatch t1 t2 st env = (g, st', env') ->
  env' = env \/
  (env' = env ++ [(g, (t1, t2))] /\ ~ In (t1, t2) (map snd env)).
Proof.
  unfold FO.mismatch; intros Hwf.
  destruct (FO.find_pair env t1 t2) as [v|] eqn:Ef; simpl.
  - intros [= <- <- <-]. now left.
  - intros [= <- <- <-]. right.
    destruct (keys_wf_set FO.term_eqb FOFacts.term_eqb_eq FO.fresh_key
                FOFacts.fresh_key_inj (FO.counter st) env (t1, t2) Hwf) as [E _].
    split; [exact E | now apply FO_find_pair_None].
Qed.

(** X2: in the environment returned by [anti_unify] no two variables are
    bound to the same pair, and every pair is a real disagreement: two
    unequal terms that are not both function applications with the same
    symbol and number of arguments. *)
Theorem env_pairs_are_distinct_mismatches (t1 t2 g : FO.Term) (env : FO.Env) :
  FO.anti_unify t1 t2 None None = (g, env) ->
  NoDup (map snd env) /\
  forall v u1 u2, In (v, (u1, u2)) env ->
                  u1 <> u2 /\ FO.same_shape u1 u2 = false.
Proof.
  unfold FO.anti_unify.
  destruct (FO.anti_unify_rec t1 t2 FO.AUState_new []) as [[g0 st0] env0] eqn:E.
  intros [= <- <-].
  pose (I := fun env : FO.Env =>
               NoDup (map snd env) /\
               Forall (fun e => fst (snd e) <> snd (snd e) /\
                                FO.same_shape (fst (snd e)) (snd (snd e)) = false)
                      env).
  assert (HI : I env0).
  { apply (FO_anti_unify_rec_keeps (fun _ _ => True) I) with (6 := E);
      [trivial | | trivial | exact FOFacts.env_wf_new | split; constructor].
    intros a b st env k st' env' _ Hwf [Hnd Hall] Hne Hs Hm.
    destruct (FO_mismatch_env _ _ _ _ _ _ _ Hwf Hm) as [->|[-> Hnew]];
      [now split|].
    split.
    - rewrite map_app. now apply NoDup_snoc.
    - apply Forall_app. split; [exact Hall|].
      constructor; [|constructor]. simpl. split; [|exact Hs].
      intros ->. now rewrite FOFacts.term_eqb_refl in Hne. }
  destruct HI as [Hnd Hall]. split; [exact Hnd|].
  intros v u1 u2 Hin. rewrite Forall_forall in Hall. exact (Hall _ Hin).
Qed.

Lemma env_pairs_are_distinct_mismatches_witness :
  NoDup (map snd [(FO.Var "X0", (FO.Const "a", FO.Const "c"));
                  (FO.Var "X1", (FO.Const "b", FO.Const "d"))]).
Proof.
  apply (env_pairs_are_distinct_mismatches
           (FO.Func "f" [FO.Const "a"; FO.Func "g" [FO.Const "b"]])
           (FO.Func "f" [FO.Const "c"; FO.Func "g" [FO.Const "d"]])
           (FO.Func "f" [FO.Var "X0"; FO.Func "g" [FO.Var "X1"]])).
  reflexivity.
Defined.

Lemma FO_subterm_trans (x y z : FO.Term) :
  FO.subterm x y -> FO.subterm y z -> FO.subterm x z.
Proof.
  intros Hxy Hyz. induction Hyz as [|s args a Hin _ IH]; [exact Hxy|].
  exact (FO.subterm_arg x s args a Hin IH).
Qed.

(** X3: every pair in the environment returned by [anti_unify] is made of a
    subterm of the first input and a subterm of the second input. *)
Theorem env_pairs_are_subterms (t1 t2 g : FO.Term) (env : FO.Env) :
  FO.anti_unify t1 t2 None None = (g, env) ->
  forall v u1 u2, In (v, (u1, u2)) env ->
                  FO.subterm u1 t1 /\ FO.subterm u2 t2.
Proof.
  unfold FO.anti_unify.
  destruct (FO.anti_unify_rec t1 t2 FO.AUState_new []) as [[g0 st0] env0] eqn:E.
  intros [= <- <-].
  pose (P := fun a b : FO.Term => FO.subterm a t1 /\ FO.subterm b t2).
  pose (I := fun env : FO.Env => Forall (fun e => P (fst (snd e)) (snd (snd e))) env).
  assert (HI : I env0).
  { apply (FO_anti_unify_rec_keeps P I) with (6 := E);
      [ | | split; constructor | exact FOFacts.env_wf_new | constructor].
    - intros s1 a1 s2 a2 x y [H1 H2] Hin. split.
      + apply FO_subterm_trans with (y := FO.Func s1 a1); [|exact H1].
        apply FO.subterm_arg with (a := x); [|constructor].
        exact (in_combine_l _ _ _ _ Hin).
      + apply FO_subterm_trans with (y := FO.Func s2 a2); [|exact H2].
        apply FO.subterm_arg with (a := y); [|constructor].
        exact (in_combine_r _ _ _ _ Hin).
    - intros a b st env k st' env' HP Hwf Hall _ _ Hm.
      destruct (FO_mismatch_env _ _ _ _ _ _ _ Hwf Hm) as [->|[-> _]];
        [exact Hall|].
      apply Forall_app. split; [exact Hall|].
      constructor; [exact HP | constructor]. }
  intros v u1 u2 Hin. unfold I in HI. rewrite Forall_forall in HI.
  exact (HI _ Hin).
Qed.

Lemma env_pairs_are_subterms_witness :
  FO.subterm (FO.Const "b") (FO.Func "f" [FO.Const "a"; FO.Func "g" [FO.Const "b"]]) /\
  FO.subterm (FO.Const "d") (FO.Func "f" [FO.Const "c"; FO.Func "g" [FO.Const "d"]]).
Proof.
  apply (env_pairs_are_subterms
           (FO.Func "f" [FO.Const "a"; FO.Func "g" [FO.Const "b"]])
           (FO.Func "f" [FO.Const "c"; FO.Func "g" [FO.Const "d"]])
           (FO.Func "f" [FO.Var "X0"; FO.Func "g" [FO.Var "X1"]])
           [(FO.Var "X0", (FO.Const "a", FO.Const "c"));
            (FO.Var "X1", (FO.Const "b", FO.Const "d"))]
           eq_refl (FO.Var "X1")).
  right. left. reflexivity.
Defined.

(** ** First-order engine: lists and function terms *)

Lemma FO_anti_unify_rec_same (t : FO.Term) st env :
  FO.anti_unify_rec t t st env = (t, st, env).
Proof.
  rewrite FOFacts.anti_unify_rec_unfold. unfold FO.anti_unify_body.
  now rewrite FOFacts.term_eqb_refl.
Qed.

Lemma FO_zip_loop_same (l : list FO.Term) st env :
  zip_loop FO.anti_unify_rec l l st env = (l, st, env).
Proof.
  induction l as [|a l IH]; simpl; [reflexivity|].
  now rewrite FO_anti_unify_rec_same, IH.
Qed.

(** X4: on lists of equal length, [anti_unify_list] returns the same
    generalized arguments and the same environment as [anti_unify] on the two
    lists put under one function symbol. *)
Theorem anti_unify_list_as_function_term (s : string) (ts1 ts2 : list FO.Term) :
  List.length ts1 = List.length ts2 ->
  exists out env,
    FO.anti_unify_list ts1 ts2 = inr (out, env) /\
    FO.anti_unify (FO.Func s ts1) (FO.Func s ts2) None None
    = (FO.Func s out, env).
Proof.
  intros Hlen. unfold FO.anti_unify_list, FO.anti_unify.
  rewrite FOFacts.anti_unify_rec_unfold. unfold FO.anti_unify_body.
  apply Nat.eqb_eq in Hlen. rewrite Hlen. simpl negb. cbv iota.
  destruct (FO.term_eqb (FO.Func s ts1) (FO.Func s ts2)) eqn:Eq.
  - apply FOFacts.term_eqb_eq in Eq. injection Eq as <-.
    rewrite FO_zip_loop_same. now exists ts1, [].
  - rewrite String.eqb_refl. simpl andb. cbv iota.
    destruct (zip_loop FO.anti_unify_rec ts1 ts2 FO.AUState_new [])
      as [[out st] env].
    now exists out, env.
Qed.

Lemma anti_unify_list_as_function_term_witness :
  exists out env,
    FO.anti_unify_list [FO.Const "a"; FO.Const "a"] [FO.Const "b"; FO.Const "b"]
    = inr (out, env) /\
    FO.anti_unify (FO.Func "h" [FO.Const "a"; FO.Const "a"])
                  (FO.Func "h" [FO.Const "b"; FO.Const "b"]) None None
    = (FO.Func "h" out, env).
Proof.
  apply (anti_unify_list_as_function_term "h"
           [FO.Const "a"; FO.Const "a"] [FO.Const "b"; FO.Const "b"]).
  reflexivity.
Defined.

(** ** First-order engine: the shape of the generalization *)

(** A mismatch always returns a minted variable, and it is a key of the
    environment afterwards. *)
Lemma FO_mismatch_var (t1 t2 : FO.Term) st env g st' env' :
  FO.env_wf st env -> FO.mismatch t1 t2 st env = (g, st', env') ->
  (exists n, g = FO.fresh_key n) /\ In g (dict_keys env').
Proof.
  unfold FO.mismatch; intros Hwf.
  destruct (FO.find_pair env t1 t2) as [v|] eqn:Ef; simpl.
  - intros [= <- <- <-]. apply FOFacts.find_pair_Some in Ef.
    assert (Hk : In v (dict_keys env))
      by (unfold dict_keys; change v with (fst (v, (t1, t2))); now apply in_map).
    split; [|exact Hk].
    destruct (keys_wf_minted FO.fresh_key _ _ _ Hwf Hk) as (n & _ & ->).
    now exists n.
  - intros [= <- <- <-].
    destruct (keys_wf_set FO.term_eqb FOFacts.term_eqb_eq FO.fresh_key
                FOFacts.fresh_key_inj (FO.counter st) env (t1, t2) Hwf) as [E _].
    split; [now exists (FO.counter st)|].
    fold (FO.fresh_key (FO.counter st)). rewrite E.
    unfold dict_keys. rewrite map_app. apply in_or_app. right. now left.
Qed.

Lemma FO_term_size_pos (t : FO.Term) : 1 <= FO.term_size t.
Proof. destruct t; simpl; lia. Qed.

Lemma FO_zip_loop_size (l1 : list FO.Term) :
  Forall (fun a1 => forall a2 st env g st' env',
            FO.env_wf st env ->
            FO.anti_unify_rec a1 a2 st env = (g, st', env') ->
            FO.term_size g <= FO.term_size a1 /\
            FO.term_size g <= FO.term_size a2) l1 ->
  forall l2 st env gs st' env',
    List.length l1 = List.length l2 -> FO.env_wf st env ->
    zip_loop FO.anti_unify_rec l1 l2 st env = (gs, st', env') ->
    list_sum (map FO.term_size gs) <= list_sum (map FO.term_size l1) /\
    list_sum (map FO.term_size gs) <= list_sum (map FO.term_size l2).
Proof.
  induction 1 as [|a1 l1 Ha _ IH]; intros [|a2 l2] st env gs st' env' Hlen Hwf;
    simpl in Hlen; try discriminate; simpl.
  - intros [= <- <- <-]. simpl. lia.
  - destruct (FO.anti_unify_rec a1 a2 st env) as [[g st1] env1] eqn:E1.
    destruct (zip_loop FO.anti_unify_rec l1 l2 st1 env1) as [[gs' st2] env2] eqn:E2.
    intros [= <- <- <-].
    pose proof (FOFacts.anti_unify_rec_grows _ _ _ _ _ _ _ Hwf E1) as (_ & _ & Hwf1).
    destruct (Ha _ _ _ _ _ _ Hwf E1) as [A1 A2].
    destruct (IH l2 st1 env1 gs' st2 env2) as [B1 B2]; [lia | exact Hwf1 | exact E2 |].
    simpl. lia.
Qed.

Lemma FO_anti_unify_rec_size (t1 : FO.Term) :
  forall t2 st env g st' env',
    FO.env_wf st env ->
    FO.anti_unify_rec t1 t2 st env = (g, st', env') ->
    FO.term_size g <= FO.term_size t1 /\ FO.term_size g <= FO.term_size t2.
Proof.
  assert (Hmis : forall a b st env g st' env',
             FO.env_wf st env -> FO.mismatch a b st env = (g, st', env') ->
             FO.term_size g <= FO.term_size a /\ FO.term_size g <= FO.term_size b).
  { intros a b st env g st' env' Hwf Hm.
    destruct (FO_mismatch_var _ _ _ _ _ _ _ Hwf Hm) as [[n ->] _].
    pose proof (FO_term_size_pos a). pose proof (FO_term_size_pos b).
    simpl. lia. }
  induction t1 as [x|c|s args IH] using FOFacts.Term_ind_args;
    intros t2 st env g st' env' Hwf; rewrite FOFacts.anti_unify_rec_unfold;
    match goal with
    | |- context [FO.anti_unify_body _ ?a t2 _ _] =>
        destruct (FO.term_eqb a t2) eqn:Eq;
        [unfold FO.anti_unify_body; rewrite Eq;
         apply FOFacts.term_eqb_eq in Eq; subst t2;
         intros [= <- <- <-]; lia|]
    end.
  - rewrite FO_same_shape_body by (exact Eq || reflexivity). now apply Hmis.
  - rewrite FO_same_shape_body by (exact Eq || reflexivity). now apply Hmis.
  - destruct (FO.same_shape (FO.Func s args) t2) eqn:Es.
    + unfold FO.anti_unify_body. rewrite Eq.
      destruct t2 as [y|d|s2 args2]; try discriminate Es.
      simpl in Es. rewrite Es.
      apply andb_true_iff in Es as [_ El]. apply Nat.eqb_eq in El.
      destruct (zip_loop FO.anti_unify_rec args args2 st env)
        as [[gs st1] env1] eqn:E.
      intros [= <- <- <-].
      destruct (FO_zip_loop_size args IH _ _ _ _ _ _ El Hwf E) as [A B].
      simpl. lia.
    + rewrite FO_same_shape_body by assumption. now apply Hmis.
Qed.

(** X5: the generalization returned by [anti_unify] has at most as many
    symbols as either input. *)
Theorem generalization_not_larger (t1 t2 g : FO.Term) (env : FO.Env) :
  FO.anti_unify t1 t2 None None = (g, env) ->
  FO.term_size g <= FO.term_size t1 /\ FO.term_size g <= FO.term_size t2.
Proof.
  unfold FO.anti_unify.
  destruct (FO.anti_unify_rec t1 t2 FO.AUState_new []) as [[g0 st0] env0] eqn:E.
  intros [= <- <-].
  exact (FO_anti_unify_rec_size _ _ _ _ _ _ _ FOFacts.env_wf_new E).
Qed.

Lemma generalization_not_larger_witness :
  FO.term_size (FO.Func "f" [FO.Var "X0"; FO.Const "c"])
  <= FO.term_size (FO.Func "f" [FO.Func "g" [FO.Const "a"]; FO.Const "c"]) /\
  FO.term_size (FO.Func "f" [FO.Var "X0"; FO.Const "c"])
  <= FO.term_size (FO.Func "f" [FO.Const "b"; FO.Const "c"]).
Proof.
  apply (generalization_not_larger
           (FO.Func "f" [FO.Func "g" [FO.Const "a"]; FO.Const "c"])
           (FO.Func "f" [FO.Const "b"; FO.Const "c"])
           (FO.Func "f" [FO.Var "X0"; FO.Const "c"])
           [(FO.Var "X0", (FO.Func "g" [FO.Const "a"], FO.Const "b"))]).
  reflexivity.
Defined.

(** ** First-order engine: variables of the generalization *)

Lemma FO_mismatch_vars (t1 t2 : FO.Term) st env g st' env' :
  FO.env_wf st env -> FO.mismatch t1 t2 st env = (g, st', env') ->
  FO.vars_ok (FO.vars t1) (FO.vars t2) (FO.vars g) env env'.
Proof.
  intros Hwf Hm.
  destruct (FO_mismatch_var _ _ _ _ _ _ _ Hwf Hm) as [[n Hg] Hk].
  assert (Hvars : forall m, In m (FO.vars g) -> In (FO.Var m) (dict_keys env')).
  { intros m Hin. rewrite Hg in Hin. simpl in Hin. destruct Hin as [<-|[]].
    now rewrite Hg in Hk. }
  destruct (FO_mismatch_env _ _ _ _ _ _ _ Hwf Hm) as [->|[-> _]].
  - exists []. rewrite app_nil_r. repeat split; [intros k []|auto].
  - exists [(g, (t1, t2))]. repeat split; [|auto].
    intros k [<-|[]]. exists (fresh_name "X" n). rewrite Hg. split; [reflexivity|].
    simpl. now left.
Qed.

Lemma FO_zip_loop_vars (l1 : list FO.Term) :
  Forall (fun a1 => forall a2 st env g st' env',
            FO.env_wf st env ->
            FO.anti_unify_rec a1 a2 st env = (g, st', env') ->
            FO.vars_ok (FO.vars a1) (FO.vars a2) (FO.vars g) env env') l1 ->
  forall l2 st env gs st' env',
    FO.env_wf st env ->
    zip_loop FO.anti_unify_rec l1 l2 st env = (gs, st', env') ->
    FO.vars_ok (flat_map FO.vars l1) (flat_map FO.vars l2)
               (flat_map FO.vars gs) env env'.
Proof.
  induction 1 as [|a1 l1 Ha _ IH]; intros [|a2 l2] st env gs st' env' Hwf; simpl;
    try (intros [= <- <- <-]; exists []; rewrite app_nil_r;
         repeat split; [intros k [] | intros n []]).
  destruct (FO.anti_unify_rec a1 a2 st env) as [[g st1] env1] eqn:E1.
  destruct (zip_loop FO.anti_unify_rec l1 l2 st1 env1) as [[gs' st2] env2] eqn:E2.
  intros [= <- <- <-].
  pose proof (FOFacts.anti_unify_rec_grows _ _ _ _ _ _ _ Hwf E1) as (_ & _ & Hwf1).
  destruct (Ha _ _ _ _ _ _ Hwf E1) as (x1 & -> & K1 & V1).
  destruct (IH _ _ _ _ _ _ Hwf1 E2) as (x2 & -> & K2 & V2).
  exists (x1 ++ x2). split; [now rewrite app_assoc|]. split.
  - intros k Hin. unfold dict_keys in Hin. rewrite map_app in Hin.
    apply in_app_or in Hin as [Hin|Hin].
    + destruct (K1 k Hin) as (n & -> & Hn). exists n. split; [reflexivity|].
      simpl. apply in_or_app. now left.
    + destruct (K2 k Hin) as (n & -> & Hn). exists n. split; [reflexivity|].
      simpl. apply in_or_app. now right.
  - intros n Hin. simpl in Hin. apply in_app_or in Hin as [Hin|Hin].
    + destruct (V1 n Hin) as [Hk|[H1 H2]].
      * left. unfold dict_keys in *. rewrite map_app. apply in_or_app. now left.
      * right. simpl. split; apply in_or_app; now left.
    + destruct (V2 n Hin) as [Hk|[H1 H2]].
      * now left.
      * right. simpl. split; apply in_or_app; now right.
Qed.

Lemma FO_anti_unify_rec_vars (t1 : FO.Term) :
  forall t2 st env g st' env',
    FO.env_wf st env ->
    FO.anti_unify_rec t1 t2 st env = (g, st', env') ->
    FO.vars_ok (FO.vars t1) (FO.vars t2) (FO.vars g) env env'.
Proof.
  induction t1 as [x|c|s args IH] using FOFacts.Term_ind_args;
    intros t2 st env g st' env' Hwf; rewrite FOFacts.anti_unify_rec_unfold;
    match goal with
    | |- context [FO.anti_unify_body _ ?a t2 _ _] =>
        destruct (FO.term_eqb a t2) eqn:Eq;
        [unfold FO.anti_unify_body; rewrite Eq;
         apply FOFacts.term_eqb_eq in Eq; subst t2;
         intros [= <- <- <-]; exists []; rewrite app_nil_r;
         repeat split; [intros k [] | auto]|]
    end.
  - rewrite FO_same_shape_body by (exact Eq || reflexivity).
    now apply FO_mismatch_vars.
  - rewrite FO_same_shape_body by (exact Eq || reflexivity).
    now apply FO_mismatch_vars.
  - destruct (FO.same_shape (FO.Func s args) t2) eqn:Es.
    + unfold FO.anti_unify_body. rewrite Eq.
      destruct t2 as [y|d|s2 args2]; try discriminate Es.
      simpl in Es. rewrite Es.
      destruct (zip_loop FO.anti_unify_rec args args2 st env)
        as [[gs st1] env1] eqn:E.
      intros [= <- <- <-].
      exact (FO_zip_loop_vars args IH _ _ _ _ _ _ Hwf E).
    + rewrite FO_same_shape_body by assumption. now apply FO_mismatch_vars.
Qed.

(** X6: every key of the environment returned by [anti_unify] is a variable
    that occurs in the generalization, and every variable of the
    generalization is a key of the environment or a variable that occurs in
    both inputs. *)
Theorem generalization_variables (t1 t2 g : FO.Term) (env : FO.Env) :
  FO.anti_unify t1 t2 None None = (g, env) ->
  (forall k, In k (dict_keys env) ->
             exists n, k = FO.Var n /\ In n (FO.vars g)) /\
  (forall n, In n (FO.vars g) ->
             In (FO.Var n) (dict_keys env) \/
             (In n (FO.vars t1) /\ In n (FO.vars t2))).
Proof.
  unfold FO.anti_unify.
  destruct (FO.anti_unify_rec t1 t2 FO.AUState_new []) as [[g0 st0] env0] eqn:E.
  intros [= <- <-].
  destruct (FO_anti_unify_rec_vars _ _ _ _ _ _ _ FOFacts.env_wf_new E)
    as (ext & -> & K & V).
  split; assumption.
Qed.

Lemma generalization_variables_witness :
  In (FO.Var "X0") (dict_keys [(FO.Var "X0", (FO.Const "a", FO.Const "b"))]) \/
  (In "X0" (FO.vars (FO.Func "f" [FO.Const "a"; FO.Var "y"])) /\
   In "X0" (FO.vars (FO.Func "f" [FO.Const "b"; FO.Var "y"]))).
Proof.
  apply (proj2 (generalization_variables
                  (FO.Func "f" [FO.Const "a"; FO.Var "y"])
                  (FO.Func "f" [FO.Const "b"; FO.Var "y"])
                  (FO.Func "f" [FO.Var "X0"; FO.Var "y"])
                  [(FO.Var "X0", (FO.Const "a", FO.Const "b"))] eq_refl) "X0").
  simpl. now left.
Defined.

(** ** First-order engine: an environment passed without its state *)

Section DictSetFacts.
Context {K V : Type}.
Variable key_eqb : K -> K -> bool.
Hypothesis key_eqb_eq : forall a b, key_eqb a b = true <-> a = b.

Lemma dict_get_set_same (d : list (K * V)) (k : K) (v : V) :
  dict_get key_eqb (dict_set key_eqb d k v) k = Some v.
Proof.
  induction d as [|[k' v'] d IH]; simpl.
  - now rewrite (key_eqb_refl key_eqb key_eqb_eq).
  - destruct (key_eqb k' k) eqn:E; simpl; rewrite E; [reflexivity | exact IH].
Qed.

Lemma dict_set_keys_present (d : list (K * V)) (k : K) (v : V) :
  In k (dict_keys d) -> dict_keys (dict_set key_eqb d k v) = dict_keys d.
Proof.
  induction d as [|[k' v'] d IH]; simpl; [contradiction|].
  intros Hin. destruct (key_eqb k' k) eqn:E; simpl; [reflexivity|].
  f_equal. apply IH. destruct Hin as [->|Hin]; [|exact Hin].
  now rewrite (key_eqb_refl key_eqb key_eqb_eq) in E.
Qed.

End DictSetFacts.

(** X7: [anti_unify] called with an environment but without a state starts a
    new counter at 0.  For a pair that mismatches at the top and is not yet
    in the environment, the result is the variable [X0] and the pair is
    stored under [X0]; when the environment already had the key [X0], its
    keys stay as they were and the pair it held under [X0] is replaced. *)
Theorem anti_unify_env_without_state (t1 t2 : FO.Term) (env : FO.Env) :
  FO.term_eqb t1 t2 = false -> FO.same_shape t1 t2 = false ->
  FO.find_pair env t1 t2 = None ->
  FO.anti_unify t1 t2 None (Some env)
  = (FO.Var "X0", dict_set FO.term_eqb env (FO.Var "X0") (t1, t2)) /\
  dict_get FO.term_eqb (snd (FO.anti_unify t1 t2 None (Some env))) (FO.Var "X0")
  = Some (t1, t2) /\
  (In (FO.Var "X0") (dict_keys env) ->
   dict_keys (snd (FO.anti_unify t1 t2 None (Some env))) = dict_keys env).
Proof.
  intros Hne Hs Hf.
  assert (E : FO.anti_unify t1 t2 None (Some env)
              = (FO.Var "X0", dict_set FO.term_eqb env (FO.Var "X0") (t1, t2))).
  { unfold FO.anti_unify. rewrite FOFacts.anti_unify_rec_unfold.
    rewrite FO_same_shape_body by assumption.
    unfold FO.mismatch. rewrite Hf. reflexivity. }
  rewrite E. simpl snd. split; [reflexivity|]. split.
  - apply (dict_get_set_same FO.term_eqb FOFacts.term_eqb_eq).
  - apply (dict_set_keys_present FO.term_eqb FOFacts.term_eqb_eq).
Qed.

Lemma anti_unify_env_without_state_witness :
  FO.anti_unify (FO.Const "c") (FO.Const "d") None
    (Some [(FO.Var "X0", (FO.Const "a", FO.Const "b"))])
  = (FO.Var "X0", [(FO.Var "X0", (FO.Const "c", FO.Const "d"))]).
Proof.
  apply (anti_unify_env_without_state (FO.Const "c") (FO.Const "d")
           [(FO.Var "X0", (FO.Const "a", FO.Const "b"))]);
    reflexivity.
Defined.

(** ** Higher-order engine: spines *)

Lemma HO_spine_head_not_app (t : HO.Term) : HO.is_app (fst (HO._spine t)) = false.
Proof.
  induction t as [x|c|f IHf a _|x body _]; try reflexivity.
  rewrite HOFacts._spine_App. exact IHf.
Qed.

Lemma HO_rebuild_app_snoc (h a : HO.Term) (args : list HO.Term) :
  HO._rebuild_app h (args ++ [a]) = HO.App (HO._rebuild_app h args) a.
Proof. unfold HO._rebuild_app. now rewrite fold_left_app. Qed.

Lemma HO_spine_rebuild (h : HO.Term) (args : list HO.Term) :
  HO.is_app h = false -> HO._spine (HO._rebuild_app h args) = (h, args).
Proof.
  intros Hh. induction args as [|a args IH] using rev_ind.
  - destruct h; try reflexivity. discriminate Hh.
  - rewrite HO_rebuild_app_snoc, HOFacts._spine_App, IH. reflexivity.
Qed.

(** X8: [_spine] and [_rebuild_app] are inverse to each other: applying the
    head of a spine to its arguments gives the term back, the spine of a
    head that is not an application applied to arguments is that head with
    those arguments, and the head of a spine is never an application. *)
Theorem spine_rebuild_round_trip :
  (forall t, HO._rebuild_app (fst (HO._spine t)) (snd (HO._spine t)) = t) /\
  (forall h args, HO.is_app h = false ->
                  HO._spine (HO._rebuild_app h args) = (h, args)) /\
  (forall t, HO.is_app (fst (HO._spine t)) = false).
Proof.
  split; [exact HOFacts._rebuild_app_spine|].
  split; [exact HO_spine_rebuild | exact HO_spine_head_not_app].
Qed.

Lemma spine_rebuild_round_trip_witness :
  HO._spine (HO._rebuild_app (HO.Const "f") [HO.Var "a"; HO.Lam "x" (HO.Var "x")])
  = (HO.Const "f", [HO.Var "a"; HO.Lam "x" (HO.Var "x")]).
Proof.
  apply (proj1 (proj2 spine_rebuild_round_trip)). reflexivity.
Defined.

(** ** Higher-order engine: renaming a bound name *)

Lemma HO_subst_bound_same_name (t : HO.Term) (x : string) :
  HO._subst_bound t x (HO.Var x) = t.
Proof.
  induction t as [y|c|f IHf a IHa|y body IH]; simpl.
  - destruct (String.eqb y x) eqn:E; [|reflexivity].
    apply String.eqb_eq in E. now subst.
  - reflexivity.
  - now rewrite IHf, IHa.
  - destruct (String.eqb y x); [reflexivity | now rewrite IH].
Qed.

(** X9: renaming a bound name to itself changes nothing, renaming does not
    change the size of a term, and after a name has been renamed to another
    one, substituting for it again has no effect. *)
Theorem subst_bound_renaming :
  (forall t x, HO._subst_bound t x (HO.Var x) = t) /\
  (forall t old name,
      HO.term_size (HO._subst_bound t old (HO.Var name)) = HO.term_size t) /\
  (forall t old name w, name <> old ->
      HO._subst_bound (HO._subst_bound t old (HO.Var name)) old w
      = HO._subst_bound t old (HO.Var name)).
Proof.
  split; [exact HO_subst_bound_same_name|].
  split; [exact HOFacts._subst_bound_size|].
  intros t old name w Hne.
  apply HO_subst_bound_not_free. now apply HO_subst_bound_removes.
Qed.

Lemma subst_bound_renaming_witness :
  HO._subst_bound
    (HO._subst_bound (HO.App (HO.Var "x") (HO.Lam "x" (HO.Var "x"))) "x" (HO.Var "z"))
    "x" (HO.Const "c")
  = HO._subst_bound (HO.App (HO.Var "x") (HO.Lam "x" (HO.Var "x"))) "x" (HO.Var "z").
Proof.
  apply (proj2 (proj2 subst_bound_renaming)). discriminate.
Defined.

(** ** Higher-order engine: two lambdas *)

Lemma HO_fresh_bound_name_same (x : string) : HO._fresh_bound_name x x = x.
Proof. unfold HO._fresh_bound_name. now rewrite String.eqb_refl. Qed.

(** X10: the generalization of two lambdas is a lambda, bound to the common
    name when the two bound names are equal and to [z] otherwise; and when
    the bound names are equal and the bodies differ, its body is the
    generalization of the two bodies as they are, under the context made of
    that one bound variable. *)
Theorem lambda_generalizes_to_lambda :
  (forall x y b1 b2, exists g env,
      HO.ho_anti_unify (HO.Lam x b1) (HO.Lam y b2)
      = Some (HO.Lam (if String.eqb x y then x else "z") g, env)) /\
  (forall x b1 b2 g st env,
      b1 <> b2 ->
      HO._ho_au (HO.term_size b1) b1 b2 [HO.Var x] HO.HOAUState_new []
      = Some (g, st, env) ->
      HO.ho_anti_unify (HO.Lam x b1) (HO.Lam x b2) = Some (HO.Lam x g, env)).
Proof.
  split.
  - intros x y b1 b2. unfold HO.ho_anti_unify. simpl HO.term_size.
    cbn [HO._ho_au]. unfold HO._ho_au_body.
    destruct (HO.term_eqb (HO.Lam x b1) (HO.Lam y b2)) eqn:Eq.
    + apply HOFacts.ho_term_eqb_eq in Eq. injection Eq as <- <-.
      rewrite String.eqb_refl. now exists b1, [].
    + fold (HO._fresh_bound_name x y).
      destruct (HOFacts._ho_au_total (HO.term_size b1)
                  (HO._subst_bound b1 x (HO.Var (HO._fresh_bound_name x y)))
                  (HO._subst_bound b2 y (HO.Var (HO._fresh_bound_name x y)))
                  ([] ++ [HO.Var (HO._fresh_bound_name x y)])
                  HO.HOAUState_new [])
        as [[[g st] env] E].
      * rewrite HOFacts._subst_bound_size. apply le_n.
      * rewrite E. now exists g, env.
  - intros x b1 b2 g st env Hne E. unfold HO.ho_anti_unify. simpl HO.term_size.
    cbn [HO._ho_au]. unfold HO._ho_au_body.
    destruct (HO.term_eqb (HO.Lam x b1) (HO.Lam x b2)) eqn:Eq.
    + apply HOFacts.ho_term_eqb_eq in Eq. injection Eq as Eq. contradiction.
    + rewrite HO_fresh_bound_name_same, !HO_subst_bound_same_name.
      simpl app. now rewrite E.
Qed.

Lemma lambda_generalizes_to_lambda_witness :
  HO.ho_anti_unify (HO.Lam "x" (HO.Const "a")) (HO.Lam "x" (HO.Const "b"))
  = Some (HO.Lam "x" (HO.App (HO.Var "F0") (HO.Var "x")),
          [(HO.Var "F0", (HO.Const "a", HO.Const "b"))]).
Proof.
  apply (proj2 lambda_generalizes_to_lambda "x" (HO.Const "a") (HO.Const "b")
           (HO.App (HO.Var "F0") (HO.Var "x")) (HO.mkHOAUState 1)).
  - discriminate.
  - reflexivity.
Defined.

(** ** Higher-order engine: a mismatch under binders *)

(** When the terms differ, are not two lambdas and their spines do not match
    rigidly, the body of [_ho_au] is the mismatch case, whatever the
    recursive calls would do. *)
Lemma HO_body_flex rec (t1 t2 : HO.Term) ctx st env :
  HO.term_eqb t1 t2 = false ->
  HO.is_lam t1 && HO.is_lam t2 = false ->
  HO.rigid_rigid (fst (HO._spine t1)) (fst (HO._spine t2))
                 (snd (HO._spine t1)) (snd (HO._spine t2)) = false ->
  HO._ho_au_body rec t1 t2 ctx st env = Some (HO.mismatch t1 t2 ctx st env).
Proof.
  intros Hne Hl Hr. unfold HO._ho_au_body. rewrite Hne.
  assert (Hs : HO.spine_case rec t1 t2 ctx st env
               = Some (HO.mismatch t1 t2 ctx st env)).
  { unfold HO.spine_case.
    destruct (HO._spine t1) as [h1 a1], (HO._spine t2) as [h2 a2].
    simpl in Hr. now rewrite Hr. }
  destruct t1 as [x|c|f a|x b]; try exact Hs.
  destruct t2 as [y|d|f' a'|y b']; try exact Hs.
  discriminate Hl.
Qed.

Lemma HO_lams_term_eqb (names : list string) (u1 u2 : HO.Term) :
  HO.term_eqb (HO.lams names u1) (HO.lams names u2) = HO.term_eqb u1 u2.
Proof.
  induction names as [|x names IH]; simpl; [reflexivity|].
  now rewrite String.eqb_refl, IH.
Qed.

Lemma HO_lams_cons (x : string) (names : list string) (t : HO.Term) :
  HO.lams (x :: names) t = HO.Lam x (HO.lams names t).
Proof. reflexivity. Qed.

Lemma HO_lams_size (names : list string) (t : HO.Term) :
  HO.term_size (HO.lams names t) = List.length names + HO.term_size t.
Proof. induction names as [|x names IH]; simpl; [reflexivity | now rewrite IH]. Qed.

Lemma HO_ho_au_lams (u1 u2 : HO.Term) :
  HO.term_eqb u1 u2 = false ->
  HO.is_lam u1 && HO.is_lam u2 = false ->
  HO.rigid_rigid (fst (HO._spine u1)) (fst (HO._spine u2))
                 (snd (HO._spine u1)) (snd (HO._spine u2)) = false ->
  forall names ctx,
    HO._ho_au (List.length names + HO.term_size u1)
              (HO.lams names u1) (HO.lams names u2) ctx HO.HOAUState_new []
    = Some (HO.lams names
              (HO._apply_ctx (HO.Var "F0") (ctx ++ map HO.Var names)),
            HO.mkHOAUState 1, [(HO.Var "F0", (u1, u2))]).
Proof.
  intros Hne Hl Hr. induction names as [|x names IH]; intros ctx.
  - simpl List.length. simpl plus. destruct (HO_term_size_pos u1) as [n ->].
    cbn [HO._ho_au]. simpl HO.lams. rewrite HO_body_flex by assumption.
    simpl map. now rewrite app_nil_r.
  - simpl List.length. simpl plus. cbn [HO._ho_au]. unfold HO._ho_au_body.
    rewrite HO_lams_term_eqb, Hne, !HO_lams_cons. cbv zeta.
    rewrite HO_fresh_bound_name_same, !HO_subst_bound_same_name.
    rewrite IH. simpl map. now rewrite <- app_assoc.
Qed.

(** X11: two terms that mismatch at the top (they differ, are not two
    lambdas, and their spines do not match rigidly), put under the same
    binders [x1 ... xn], generalize to the fresh variable [F0] applied to
    [x1], ..., [xn] in that order, under the same binders; the environment
    holds the single entry of [F0], bound to the two terms themselves. *)
Theorem mismatch_under_binders (names : list string) (u1 u2 : HO.Term) :
  HO.term_eqb u1 u2 = false ->
  HO.is_lam u1 && HO.is_lam u2 = false ->
  HO.rigid_rigid (fst (HO._spine u1)) (fst (HO._spine u2))
                 (snd (HO._spine u1)) (snd (HO._spine u2)) = false ->
  HO.ho_anti_unify (HO.lams names u1) (HO.lams names u2)
  = Some (HO.lams names (HO._apply_ctx (HO.Var "F0") (map HO.Var names)),
          [(HO.Var "F0", (u1, u2))]).
Proof.
  intros Hne Hl Hr. unfold HO.ho_anti_unify.
  now rewrite HO_lams_size, (HO_ho_au_lams u1 u2 Hne Hl Hr names []).
Qed.

Lemma mismatch_under_binders_witness :
  HO.ho_anti_unify
    (HO.Lam "x" (HO.Lam "y" (HO.App (HO.Const "f") (HO.Var "x"))))
    (HO.Lam "x" (HO.Lam "y" (HO.Var "y")))
  = Some (HO.Lam "x" (HO.Lam "y"
            (HO.App (HO.App (HO.Var "F0") (HO.Var "x")) (HO.Var "y"))),
          [(HO.Var "F0", (HO.App (HO.Const "f") (HO.Var "x"), HO.Var "y"))]).
Proof.
  apply (mismatch_under_binders ["x"; "y"]
           (HO.App (HO.Const "f") (HO.Var "x")) (HO.Var "y"));
    reflexivity.
Defined.

(** ** Higher-order engine: rigid heads *)

Lemma zip_loop_opt_length {T S E : Type}
    (rec : T -> T -> S -> E -> option (T * S * E)) (l1 : list T) :
  forall l2 st env gs st' env',
    List.length l1 = List.length l2 ->
    zip_loop_opt rec l1 l2 st env = Some (gs, st', env') ->
    List.length gs = List.length l1.
Proof.
  induction l1 as [|a1 l1 IH]; intros [|a2 l2] st env gs st' env' Hlen;
    simpl in Hlen; try discriminate; simpl.
  - now intros [= <- <- <-].
  - destruct (rec a1 a2 st env) as [[[g st1] env1]|]; [|discriminate].
    destruct (zip_loop_opt rec l1 l2 st1 env1) as [[[gs' st2] env2]|] eqn:Ez;
      [|discriminate].
    intros [= <- <- <-]. simpl. f_equal. eapply IH; [|exact Ez]. lia.
Qed.

(** X12: when both inputs are the same constant applied to the same number
    of arguments, the generalization is that constant applied to as many
    arguments. *)
Theorem rigid_head_is_kept (t1 t2 : HO.Term) (c : string)
    (args1 args2 : list HO.Term) :
  HO._spine t1 = (HO.Const c, args1) ->
  HO._spine t2 = (HO.Const c, args2) ->
  List.length args1 = List.length args2 ->
  exists g env gs,
    HO.ho_anti_unify t1 t2 = Some (g, env) /\
    HO._spine g = (HO.Const c, gs) /\
    List.length gs = List.length args1.
Proof.
  intros S1 S2 Hlen. unfold HO.ho_anti_unify.
  destruct (HOFacts._ho_au_total (HO.term_size t1) t1 t2 [] HO.HOAUState_new []
              (le_n _)) as [[[g st] env] E].
  rewrite E. exists g, env.
  destruct (HO_term_size_pos t1) as [n Hn]. rewrite Hn in E.
  cbn [HO._ho_au] in E. unfold HO._ho_au_body in E.
  destruct (HO.term_eqb t1 t2) eqn:Eq.
  - injection E as <- _ _. exists args1. now split.
  - assert (Hs : HO.spine_case (HO._ho_au n) t1 t2 [] HO.HOAUState_new []
                 = Some (g, st, env)).
    { destruct t1 as [x|d|f a|x b]; try exact E. discriminate S1. }
    clear E. unfold HO.spine_case in Hs. rewrite S1, S2 in Hs.
    apply Nat.eqb_eq in Hlen. simpl in Hs.
    rewrite String.eqb_refl, Hlen in Hs. simpl in Hs.
    destruct (zip_loop_opt (fun a1 a2 => HO._ho_au n a1 a2 []) args1 args2
                HO.HOAUState_new [])
      as [[[gs st1] env1]|] eqn:Ez; [|discriminate].
    injection Hs as <- _ _. exists gs. split; [reflexivity|]. split.
    + now apply HO_spine_rebuild.
    + apply Nat.eqb_eq in Hlen. exact (zip_loop_opt_length _ _ _ _ _ _ _ _ Hlen Ez).
Qed.

Lemma rigid_head_is_kept_witness :
  exists g env gs,
    HO.ho_anti_unify
      (HO.App (HO.App (HO.Const "f") (HO.Var "u")) (HO.Lam "x" (HO.Var "x")))
      (HO.App (HO.App (HO.Const "f") (HO.Var "w")) (HO.Lam "y" (HO.Var "y")))
    = Some (g, env) /\
    HO._spine g = (HO.Const "f", gs) /\
    List.length gs = 2.
Proof.
  apply (rigid_head_is_kept
           (HO.App (HO.App (HO.Const "f") (HO.Var "u")) (HO.Lam "x" (HO.Var "x")))
           (HO.App (HO.App (HO.Const "f") (HO.Var "w")) (HO.Lam "y" (HO.Var "y")))
           "f" [HO.Var "u"; HO.Lam "x" (HO.Var "x")]
               [HO.Var "w"; HO.Lam "y" (HO.Var "y")]);
    reflexivity.
Defined.

(** ** Higher-order engine: what the environment holds *)

Lemma HO_find_pair_None (env : HO.Env) (t1 t2 : HO.Term) :
  HO.find_pair env t1 t2 = None -> ~ In (t1, t2) (map snd env).
Proof.
  induction env as [|[v [u1 u2]] env IH]; simpl; [tauto|].
  destruct (HO.term_eqb u1 t1 && HO.term_eqb u2 t2) eqn:E; [discriminate|].
  intros Hn [Heq|Hin]; [|now apply IH].
  injection Heq as -> ->. now rewrite !HOFacts.ho_term_eqb_refl in E.
Qed.

(** What a mismatch does to the environment: nothing, or one new entry at
    the end, for a pair that no entry holds yet. *)
Lemma HO_mismatch_env (t1 t2 : HO.Term) ctx st env g st' env' :
  HO.env_wf st env -> HO.mismatch t1 t2 ctx st env = (g, st', env') ->
  env' = env \/
  (exists k, env' = env ++ [(k, (t1, t2))]) /\ ~ In (t1, t2) (map snd env).
Proof.
  unfold HO.mismatch; intros Hwf.
  destruct (HO.find_pair env t1 t2) as [v|] eqn:Ef; simpl.
  - intros [= <- <- <-]. now left.
  - intros [= <- <- <-]. right.
    destruct (keys_wf_set HO.term_eqb HOFacts.ho_term_eqb_eq HO.fresh_key
                HOFacts.ho_fresh_key_inj (HO.counter st) env (t1, t2) Hwf)
      as [E _].
    split; [eexists; exact E | now apply HO_find_pair_None].
Qed.

Section HOEnvInvariant.
Import HO.

(** [I] is the property of the environment to be kept. *)
Variable I : Env -> Prop.
Hypothesis I_mismatch : forall t1 t2 ctx st env g st' env',
  env_wf st env -> I env ->
  term_eqb t1 t2 = false ->
  is_lam t1 && is_lam t2 = false ->
  rigid_rigid (fst (_spine t1)) (fst (_spine t2))
              (snd (_spine t1)) (snd (_spine t2)) = false ->
  mismatch t1 t2 ctx st env = (g, st', env') -> I env'.

Lemma HO_zip_loop_opt_keeps rec ctx :
  keeps_env rec -> keeps_inv I rec ->
  forall l1 l2 st env gs st' env',
    env_wf st env -> I env ->
    zip_loop_opt (fun a1 a2 => rec a1 a2 ctx) l1 l2 st env = Some (gs, st', env') ->
    I env'.
Proof.
  intros Hk Hrec. induction l1 as [|a1 l1 IH];
    intros [|a2 l2] st env gs st' env' Hwf HI; simpl;
    try (now intros [= <- <- <-]).
  destruct (rec a1 a2 ctx st env) as [[[g st1] env1]|] eqn:E1; [|discriminate].
  destruct (zip_loop_opt _ l1 l2 st1 env1) as [[[gs' st2] env2]|] eqn:E2;
    [|discriminate].
  intros [= <- <- <-].
  pose proof (Hk _ _ _ _ _ _ _ _ Hwf E1) as (_ & _ & Hwf1).
  eapply IH; [exact Hwf1 | | exact E2].
  exact (Hrec _ _ _ _ _ _ _ _ Hwf HI E1).
Qed.

Lemma HO_ho_au_body_keeps rec :
  keeps_env rec -> keeps_inv I rec -> keeps_inv I (_ho_au_body rec).
Proof.
  intros Hk Hrec t1 t2 ctx st env g st' env' Hwf HI. unfold _ho_au_body.
  destruct (term_eqb t1 t2) eqn:Eq; [now intros [= <- <- <-]|].
  assert (Hs : is_lam t1 && is_lam t2 = false ->
               spine_case rec t1 t2 ctx st env = Some (g, st', env') -> I env').
  { intros Hl. unfold spine_case.
    pose proof (I_mismatch t1 t2 ctx st env) as Hm.
    destruct (_spine t1) as [h1 args1], (_spine t2) as [h2 args2]. simpl in Hm.
    destruct (rigid_rigid h1 h2 args1 args2).
    - destruct (zip_loop_opt _ args1 args2 st env) as [[[gs st1] env1]|] eqn:E;
        [|discriminate].
      intros [= <- <- <-].
      exact (HO_zip_loop_opt_keeps rec ctx Hk Hrec _ _ _ _ _ _ _ Hwf HI E).
    - intros [= H]. exact (Hm _ _ _ Hwf HI Eq Hl eq_refl H). }
  destruct t1 as [x|c|f a|x b]; try (now apply Hs).
  destruct t2 as [y|d|f' a'|y b']; try (now apply Hs).
  destruct (rec _ _ _ st env) as [[[gb st1] env1]|] eqn:E; [|discriminate].
  intros [= <- <- <-]. exact (Hrec _ _ _ _ _ _ _ _ Hwf HI E).
Qed.

Lemma HO_ho_au_keeps (fuel : nat) : keeps_inv I (_ho_au fuel).
Proof.
  induction fuel as [|fuel IH].
  - intros t1 t2 ctx st env g st' env' _ _; discriminate.
  - exact (HO_ho_au_body_keeps _ (HOFacts._ho_au_grows fuel) IH).
Qed.

End HOEnvInvariant.

(** X13: in the environment returned by [ho_anti_unify] no two variables are
    bound to the same pair, and every pair is a real disagreement: two
    unequal terms that are not two lambdas and whose spines do not match
    rigidly. *)
Theorem ho_env_pairs_are_distinct_mismatches (t1 t2 g : HO.Term) (env : HO.Env) :
  HO.ho_anti_unify t1 t2 = Some (g, env) ->
  NoDup (map snd env) /\
  forall v u1 u2, In (v, (u1, u2)) env ->
    u1 <> u2 /\
    HO.is_lam u1 && HO.is_lam u2 = false /\
    HO.rigid_rigid (fst (HO._spine u1)) (fst (HO._spine u2))
                   (snd (HO._spine u1)) (snd (HO._spine u2)) = false.
Proof.
  unfold HO.ho_anti_unify.
  destruct (HO._ho_au (HO.term_size t1) t1 t2 [] HO.HOAUState_new [])
    as [[[g0 st0] env0]|] eqn:E; [|discriminate].
  intros [= <- <-].
  pose (Q := fun e : HO.Term * (HO.Term * HO.Term) =>
               fst (snd e) <> snd (snd e) /\
               HO.is_lam (fst (snd e)) && HO.is_lam (snd (snd e)) = false /\
               HO.rigid_rigid (fst (HO._spine (fst (snd e))))
                              (fst (HO._spine (snd (snd e))))
                              (snd (HO._spine (fst (snd e))))
                              (snd (HO._spine (snd (snd e)))) = false).
  pose (I := fun env : HO.Env => NoDup (map snd env) /\ Forall Q env).
  assert (HI : I env0).
  { apply (HO_ho_au_keeps I) with (4 := E);
      [ | exact HOFacts.ho_env_wf_new | split; constructor].
    intros a b ctx st env k st' env' Hwf [Hnd Hall] Hne Hl Hr Hm.
    destruct (HO_mismatch_env _ _ _ _ _ _ _ _ Hwf Hm) as [->|[[v ->] Hnew]];
      [now split|].
    split.
    - rewrite map_app. now apply NoDup_snoc.
    - apply Forall_app. split; [exact Hall|].
      constructor; [|constructor]. unfold Q. simpl. repeat split; try assumption.
      intros ->. now rewrite HOFacts.ho_term_eqb_refl in Hne. }
  destruct HI as [Hnd Hall]. split; [exact Hnd|].
  intros v u1 u2 Hin. rewrite Forall_forall in Hall. exact (Hall _ Hin).
Qed.

Lemma ho_env_pairs_are_distinct_mismatches_witness :
  NoDup (map snd [(HO.Var "F0", (HO.App (HO.Const "G") (HO.Var "z"),
                                 HO.App (HO.Const "H") (HO.Var "z")))]).
Proof.
  apply (ho_env_pairs_are_distinct_mismatches
           (HO.Lam "x" (HO.App (HO.Const "T") (HO.App (HO.Const "G") (HO.Var "x"))))
           (HO.Lam "y" (HO.App (HO.Const "T") (HO.App (HO.Const "H") (HO.Var "y"))))
           (HO.Lam "z" (HO.App (HO.Const "T") (HO.App (HO.Var "F0") (HO.Var "z"))))).
  reflexivity.
Defined.

(** ** Higher-order engine: more fuel, same result *)

Lemma HO_zip_loop_opt_mono {T S E : Type}
    (rec rec' : T -> T -> S -> E -> option (T * S * E)) :
  (forall a1 a2 st env r, rec a1 a2 st env = Some r -> rec' a1 a2 st env = Some r) ->
  forall l1 l2 st env r,
    zip_loop_opt rec l1 l2 st env = Some r ->
    zip_loop_opt rec' l1 l2 st env = Some r.
Proof.
  intros Hm. induction l1 as [|a1 l1 IH]; intros [|a2 l2] st env r; simpl; trivial.
  destruct (rec a1 a2 st env) as [[[g st1] env1]|] eqn:E1; [|discriminate].
  rewrite (Hm _ _ _ _ _ E1).
  destruct (zip_loop_opt rec l1 l2 st1 env1) as [[[gs st2] env2]|] eqn:E2;
    [|discriminate].
  now rewrite (IH _ _ _ _ E2).
Qed.

Lemma HO_body_mono rec rec' :
  (forall t1 t2 ctx st env r,
      rec t1 t2 ctx st env = Some r -> rec' t1 t2 ctx st env = Some r) ->
  forall t1 t2 ctx st env r,
    HO._ho_au_body rec t1 t2 ctx st env = Some r ->
    HO._ho_au_body rec' t1 t2 ctx st env = Some r.
Proof.
  intros Hm t1 t2 ctx st env r. unfold HO._ho_au_body.
  destruct (HO.term_eqb t1 t2); trivial.
  assert (Hs : HO.spine_case rec t1 t2 ctx st env = Some r ->
               HO.spine_case rec' t1 t2 ctx st env = Some r).
  { unfold HO.spine_case.
    destruct (HO._spine t1) as [h1 args1], (HO._spine t2) as [h2 args2].
    destruct (HO.rigid_rigid h1 h2 args1 args2); trivial.
    destruct (zip_loop_opt (fun a1 a2 => rec a1 a2 ctx) args1 args2 st env)
      as [[[gs st1] env1]|] eqn:Ez; [|discriminate].
    now rewrite (HO_zip_loop_opt_mono _ (fun a1 a2 => rec' a1 a2 ctx)
                   (fun a1 a2 => Hm a1 a2 ctx) _ _ _ _ _ Ez). }
  destruct t1 as [x|c|f a|x b]; try exact Hs.
  destruct t2 as [y|d|f' a'|y b']; try exact Hs.
  destruct (rec _ _ _ st env) as [[[gb st1] env1]|] eqn:E; [|discriminate].
  now rewrite (Hm _ _ _ _ _ _ E).
Qed.

Lemma HO_ho_au_fuel_step (fuel : nat) :
  forall t1 t2 ctx st env r,
    HO._ho_au fuel t1 t2 ctx st env = Some r ->
    HO._ho_au (S fuel) t1 t2 ctx st env = Some r.
Proof.
  induction fuel as [|fuel IH]; intros t1 t2 ctx st env r; [discriminate|].
  intros H. cbn [HO._ho_au] in *. exact (HO_body_mono _ _ IH _ _ _ _ _ _ H).
Qed.

(** A call that returns with some fuel returns the same with more. *)
Lemma HO_ho_au_fuel_mono (fuel fuel' : nat) t1 t2 ctx st env r :
  fuel <= fuel' ->
  HO._ho_au fuel t1 t2 ctx st env = Some r ->
  HO._ho_au fuel' t1 t2 ctx st env = Some r.
Proof.
  induction 1 as [|m _ IH]; [trivial|].
  intros H. apply HO_ho_au_fuel_step. now apply IH.
Qed.

(** ** Higher-order engine: exchanging the inputs *)

Lemma HO_term_eqb_sym (a b : HO.Term) : HO.term_eqb a b = HO.term_eqb b a.
Proof.
  destruct (HO.term_eqb a b) eqn:E1, (HO.term_eqb b a) eqn:E2; try reflexivity.
  - apply HOFacts.ho_term_eqb_eq in E1. subst.
    now rewrite HOFacts.ho_term_eqb_refl in E2.
  - apply HOFacts.ho_term_eqb_eq in E2. subst.
    now rewrite HOFacts.ho_term_eqb_refl in E1.
Qed.

Lemma HO_find_pair_swap (env : HO.Env) (t1 t2 : HO.Term) :
  HO.find_pair (HO.swap_env env) t2 t1 = HO.find_pair env t1 t2.
Proof.
  induction env as [|[v [u1 u2]] env IH]; simpl; [reflexivity|].
  rewrite andb_comm, IH. reflexivity.
Qed.

Lemma HO_dict_set_swap (env : HO.Env) (v t1 t2 : HO.Term) :
  dict_set HO.term_eqb (HO.swap_env env) v (t2, t1)
  = HO.swap_env (dict_set HO.term_eqb env v (t1, t2)).
Proof.
  induction env as [|[k [u1 u2]] env IH]; simpl; [reflexivity|].
  destruct (HO.term_eqb k v); simpl; [reflexivity | now rewrite IH].
Qed.

Lemma HO_mismatch_swap (t1 t2 : HO.Term) ctx st env :
  HO.mismatch t2 t1 ctx st (HO.swap_env env)
  = (fst (fst (HO.mismatch t1 t2 ctx st env)),
     snd (fst (HO.mismatch t1 t2 ctx st env)),
     HO.swap_env (snd (HO.mismatch t1 t2 ctx st env))).
Proof.
  unfold HO.mismatch. rewrite HO_find_pair_swap.
  destruct (HO.find_pair env t1 t2) as [v|]; simpl; [reflexivity|].
  now rewrite HO_dict_set_swap.
Qed.

Lemma HO_fresh_bound_name_sym (x y : string) :
  HO._fresh_bound_name y x = HO._fresh_bound_name x y.
Proof.
  unfold HO._fresh_bound_name. rewrite (String.eqb_sym y x).
  destruct (String.eqb x y) eqn:E; [|reflexivity].
  apply String.eqb_eq in E. now subst.
Qed.

Lemma HO_rigid_rigid_sym (h1 h2 : HO.Term) (a1 a2 : list HO.Term) :
  HO.rigid_rigid h2 h1 a2 a1 = HO.rigid_rigid h1 h2 a1 a2.
Proof.
  destruct h1, h2; simpl; try reflexivity.
  now rewrite String.eqb_sym, Nat.eqb_sym.
Qed.

Lemma HO_zip_loop_opt_swap rec ctx :
  HO.exchanges rec ->
  forall l1 l2 st env gs st' env',
    zip_loop_opt (fun a1 a2 => rec a1 a2 ctx) l1 l2 st env = Some (gs, st', env') ->
    zip_loop_opt (fun a1 a2 => rec a1 a2 ctx) l2 l1 st (HO.swap_env env)
    = Some (gs, st', HO.swap_env env').
Proof.
  intros Hrec. induction l1 as [|a1 l1 IH]; intros [|a2 l2] st env gs st' env';
    simpl; try (now intros [= <- <- <-]).
  destruct (rec a1 a2 ctx st env) as [[[g st1] env1]|] eqn:E1; [|discriminate].
  destruct (zip_loop_opt _ l1 l2 st1 env1) as [[[gs' st2] env2]|] eqn:E2;
    [|discriminate].
  intros [= <- <- <-].
  now rewrite (Hrec _ _ _ _ _ _ _ _ E1), (IH _ _ _ _ _ _ E2).
Qed.

Lemma HO_spine_case_swap rec : HO.exchanges rec -> HO.exchanges (HO.spine_case rec).
Proof.
  intros Hrec t1 t2 ctx st env g st' env'. unfold HO.spine_case.
  destruct (HO._spine t1) as [h1 args1], (HO._spine t2) as [h2 args2].
  rewrite (HO_rigid_rigid_sym h1 h2).
  destruct (HO.rigid_rigid h1 h2 args1 args2) eqn:Er.
  - apply HOFacts.rigid_rigid_true in Er as [(c & -> & ->) _].
    destruct (zip_loop_opt (fun a1 a2 => rec a1 a2 ctx) args1 args2 st env)
      as [[[gs st1] env1]|] eqn:Ez; [|discriminate].
    intros [= <- <- <-].
    now rewrite (HO_zip_loop_opt_swap rec ctx Hrec _ _ _ _ _ _ _ Ez).
  - intros [= H]. rewrite HO_mismatch_swap, H. reflexivity.
Qed.

Lemma HO_body_swap rec : HO.exchanges rec -> HO.exchanges (HO._ho_au_body rec).
Proof.
  intros Hrec t1 t2 ctx st env g st' env'. unfold HO._ho_au_body.
  rewrite (HO_term_eqb_sym t2 t1).
  destruct (HO.term_eqb t1 t2) eqn:Eq.
  - apply HOFacts.ho_term_eqb_eq in Eq. subst t2. now intros [= <- <- <-].
  - pose proof (HO_spine_case_swap rec Hrec t1 t2 ctx st env g st' env') as Hs.
    destruct t1 as [x|c|f a|x b], t2 as [y|d|f' a'|y b']; try exact Hs.
    rewrite (HO_fresh_bound_name_sym x y).
    destruct (rec _ _ _ st env) as [[[gb st1] env1]|] eqn:E; [|discriminate].
    intros [= <- <- <-]. now rewrite (Hrec _ _ _ _ _ _ _ _ E).
Qed.

Lemma HO_ho_au_swap (fuel : nat) : HO.exchanges (HO._ho_au fuel).
Proof.
  induction fuel as [|fuel IH].
  - intros t1 t2 ctx st env g st' env'; discriminate.
  - exact (HO_body_swap _ IH).
Qed.

(** X14: exchanging the two inputs of [ho_anti_unify] gives the same
    generalization, and the same environment with the components of every
    pair exchanged. *)
Theorem ho_anti_unify_exchange (t1 t2 g : HO.Term) (env : HO.Env) :
  HO.ho_anti_unify t1 t2 = Some (g, env) ->
  HO.ho_anti_unify t2 t1 = Some (g, HO.swap_env env).
Proof.
  unfold HO.ho_anti_unify.
  destruct (HO._ho_au (HO.term_size t1) t1 t2 [] HO.HOAUState_new [])
    as [[[g0 st0] env0]|] eqn:E; [|discriminate].
  intros [= <- <-].
  destruct (HOFacts._ho_au_total (HO.term_size t2) t2 t1 [] HO.HOAUState_new []
              (le_n _)) as [r E2].
  rewrite E2.
  apply (HO_ho_au_fuel_mono _ (Nat.max (HO.term_size t1) (HO.term_size t2)))
    in E; [|apply Nat.le_max_l].
  apply (HO_ho_au_fuel_mono _ (Nat.max (HO.term_size t1) (HO.term_size t2)))
    in E2; [|apply Nat.le_max_r].
  apply HO_ho_au_swap in E. simpl HO.swap_env in E.
  rewrite E in E2. now injection E2 as <-.
Qed.

Lemma ho_anti_unify_exchange_witness :
  HO.ho_anti_unify (HO.Lam "x" (HO.Const "b")) (HO.Lam "x" (HO.Const "a"))
  = Some (HO.Lam "x" (HO.App (HO.Var "F0") (HO.Var "x")),
          HO.swap_env [(HO.Var "F0", (HO.Const "a", HO.Const "b"))]).
Proof.
  apply (ho_anti_unify_exchange
           (HO.Lam "x" (HO.Const "a")) (HO.Lam "x" (HO.Const "b"))).
  reflexivity.
Defined.

(** ** Higher-order engine: lambdas that agree after renaming *)

(** X15: when two different lambdas have the same body once each bound name
    is renamed to the common name ([z] when the names differ), the
    generalization is the lambda on the common name over that body and the
    environment is empty.  Nothing checks that the common name is absent from
    the bodies, so a free [z] is taken for the bound variable. *)
Theorem lambdas_equal_after_renaming (x y : string) (b1 b2 : HO.Term) :
  HO.Lam x b1 <> HO.Lam y b2 ->
  HO._subst_bound b1 x (HO.Var (HO._fresh_bound_name x y))
  = HO._subst_bound b2 y (HO.Var (HO._fresh_bound_name x y)) ->
  HO.ho_anti_unify (HO.Lam x b1) (HO.Lam y b2)
  = Some (HO.Lam (HO._fresh_bound_name x y)
            (HO._subst_bound b1 x (HO.Var (HO._fresh_bound_name x y))),
          []).
Proof.
  intros Hne Hb. unfold HO.ho_anti_unify. simpl HO.term_size.
  cbn [HO._ho_au]. unfold HO._ho_au_body.
  destruct (HO.term_eqb (HO.Lam x b1) (HO.Lam y b2)) eqn:Eq.
  - apply HOFacts.ho_term_eqb_eq in Eq. contradiction.
  - cbv zeta. rewrite <- Hb.
    destruct (HO_term_size_pos b1) as [n ->]. cbn [HO._ho_au].
    unfold HO._ho_au_body. now rewrite HOFacts.ho_term_eqb_refl.
Qed.

Lemma lambdas_equal_after_renaming_witness :
  HO.ho_anti_unify (HO.Lam "x" (HO.Var "x")) (HO.Lam "y" (HO.Var "z"))
  = Some (HO.Lam "z" (HO.Var "z"), []).
Proof.
  apply (lambdas_equal_after_renaming "x" "y" (HO.Var "x") (HO.Var "z")).
  - discriminate.
  - reflexivity.
Defined.

(** ** First-order engine: running again on the returned environment *)

Lemma FO_find_pair_In (env : FO.Env) (v t1 t2 : FO.Term) :
  NoDup (map snd env) -> In (v, (t1, t2)) env ->
  FO.find_pair env t1 t2 = Some v.
Proof.
  induction env as [|[k [u1 u2]] env IH]; simpl; [contradiction|].
  intros Hnd Hin. inversion Hnd as [|? ? Hnot Hnd']; subst.
  destruct Hin as [Heq|Hin].
  - injection Heq as -> -> ->. now rewrite !FOFacts.term_eqb_refl.
  - destruct (FO.term_eqb u1 t1 && FO.term_eqb u2 t2) eqn:E; [|now apply IH].
    apply andb_true_iff in E as [E1 E2].
    apply FOFacts.term_eqb_eq in E1, E2. subst. exfalso. apply Hnot.
    change (t1, t2) with (snd (v, (t1, t2))). now apply in_map.
Qed.

(** The pair of a mismatch is in the environment afterwards, under the
    variable returned. *)
Lemma FO_mismatch_In (t1 t2 : FO.Term) st env g st' env' :
  FO.env_wf st env -> FO.mismatch t1 t2 st env = (g, st', env') ->
  In (g, (t1, t2)) env'.
Proof.
  unfold FO.mismatch; intros Hwf.
  destruct (FO.find_pair env t1 t2) as [v|] eqn:Ef; simpl.
  - intros [= <- <- <-]. now apply FOFacts.find_pair_Some.
  - intros [= <- <- <-].
    destruct (keys_wf_set FO.term_eqb FOFacts.term_eqb_eq FO.fresh_key
                FOFacts.fresh_key_inj (FO.counter st) env (t1, t2) Hwf) as [E _].
    fold (FO.fresh_key (FO.counter st)). rewrite E.
    apply in_or_app. right. now left.
Qed.

Lemma FO_zip_loop_again (l1 : list FO.Term) :
  Forall (fun a1 => forall a2 st env g st' env',
            FO.env_wf st env ->
            FO.anti_unify_rec a1 a2 st env = (g, st', env') ->
            forall ext st2, NoDup (map snd (env' ++ ext)) ->
              FO.anti_unify_rec a1 a2 st2 (env' ++ ext)
              = (g, st2, env' ++ ext)) l1 ->
  forall l2 st env gs st' env',
    FO.env_wf st env ->
    zip_loop FO.anti_unify_rec l1 l2 st env = (gs, st', env') ->
    forall ext st2, NoDup (map snd (env' ++ ext)) ->
      zip_loop FO.anti_unify_rec l1 l2 st2 (env' ++ ext)
      = (gs, st2, env' ++ ext).
Proof.
  induction 1 as [|a1 l1 Ha _ IH]; intros [|a2 l2] st env gs st' env' Hwf; simpl;
    try (now intros [= <- <- <-]).
  destruct (FO.anti_unify_rec a1 a2 st env) as [[g st1] env1] eqn:E1.
  destruct (zip_loop FO.anti_unify_rec l1 l2 st1 env1) as [[gs' st3] env3] eqn:E2.
  intros [= <- <- <-] ext st2 Hnd.
  pose proof (FOFacts.anti_unify_rec_grows _ _ _ _ _ _ _ Hwf E1) as (_ & _ & Hwf1).
  pose proof (FOFacts.zip_loop_grows FO.anti_unify_rec l1
                (proj2 (Forall_forall _ _)
                   (fun a _ => FOFacts.anti_unify_rec_grows a))
                _ _ _ _ _ _ Hwf1 E2) as (_ & [e2 Ee] & _).
  subst env3.
  pose proof (Ha _ _ _ _ _ _ Hwf E1 (e2 ++ ext) st2) as H1.
  rewrite app_assoc in H1. rewrite (H1 Hnd).
  now rewrite (IH _ _ _ _ _ _ Hwf1 E2 ext st2 Hnd).
Qed.

Lemma FO_anti_unify_rec_again (t1 : FO.Term) :
  forall t2 st env g st' env',
    FO.env_wf st env ->
    FO.anti_unify_rec t1 t2 st env = (g, st', env') ->
    forall ext st2, NoDup (map snd (env' ++ ext)) ->
      FO.anti_unify_rec t1 t2 st2 (env' ++ ext) = (g, st2, env' ++ ext).
Proof.
  assert (Hmis : forall a b st env g st' env',
             FO.env_wf st env -> FO.mismatch a b st env = (g, st', env') ->
             forall ext st2, NoDup (map snd (env' ++ ext)) ->
               FO.mismatch a b st2 (env' ++ ext) = (g, st2, env' ++ ext)).
  { intros a b st env g st' env' Hwf Hm ext st2 Hnd.
    pose proof (FO_mismatch_In _ _ _ _ _ _ _ Hwf Hm) as Hin.
    unfold FO.mismatch.
    rewrite (FO_find_pair_In (env' ++ ext) g a b Hnd); [reflexivity|].
    apply in_or_app. now left. }
  induction t1 as [x|c|s args IH] using FOFacts.Term_ind_args;
    intros t2 st env g st' env' Hwf;
    rewrite FOFacts.anti_unify_rec_unfold;
    match goal with
    | |- context [FO.anti_unify_body _ ?a t2 _ _] =>
        destruct (FO.term_eqb a t2) eqn:Eq;
        [unfold FO.anti_unify_body; rewrite Eq;
         intros [= <- <- <-] ext st2 _;
         rewrite FOFacts.anti_unify_rec_unfold; unfold FO.anti_unify_body;
         now rewrite Eq|]
    end.
  - rewrite FO_same_shape_body by (exact Eq || reflexivity).
    intros Hm ext st2 Hnd. rewrite FOFacts.anti_unify_rec_unfold.
    rewrite FO_same_shape_body by (exact Eq || reflexivity).
    exact (Hmis _ _ _ _ _ _ _ Hwf Hm ext st2 Hnd).
  - rewrite FO_same_shape_body by (exact Eq || reflexivity).
    intros Hm ext st2 Hnd. rewrite FOFacts.anti_unify_rec_unfold.
    rewrite FO_same_shape_body by (exact Eq || reflexivity).
    exact (Hmis _ _ _ _ _ _ _ Hwf Hm ext st2 Hnd).
  - destruct (FO.same_shape (FO.Func s args) t2) eqn:Es.
    + unfold FO.anti_unify_body at 1. rewrite Eq.
      destruct t2 as [y|d|s2 args2]; try discriminate Es.
      simpl in Es. rewrite Es.
      destruct (zip_loop FO.anti_unify_rec args args2 st env)
        as [[gs st1] env1] eqn:E.
      intros [= <- <- <-] ext st2 Hnd.
      rewrite FOFacts.anti_unify_rec_unfold. unfold FO.anti_unify_body.
      rewrite Eq, Es.
      now rewrite (FO_zip_loop_again args IH _ _ _ _ _ _ Hwf E ext st2 Hnd).
    + rewrite FO_same_shape_body by assumption.
      intros Hm ext st2 Hnd. rewrite FOFacts.anti_unify_rec_unfold.
      rewrite FO_same_shape_body by assumption.
      exact (Hmis _ _ _ _ _ _ _ Hwf Hm ext st2 Hnd).
Qed.

Lemma FO_anti_unify_rec_pairs_NoDup (t1 t2 : FO.Term) st env g st' env' :
  FO.env_wf st env -> NoDup (map snd env) ->
  FO.anti_unify_rec t1 t2 st env = (g, st', env') ->
  NoDup (map snd env').
Proof.
  intros Hwf Hnd E.
  apply (FO_anti_unify_rec_keeps (fun _ _ => True)
           (fun env => NoDup (map snd env))) with (6 := E);
    [trivial | | trivial | exact Hwf | exact Hnd].
  intros a b st0 env0 k st0' env0' _ Hwf0 Hnd0 _ _ Hm.
  destruct (FO_mismatch_env _ _ _ _ _ _ _ Hwf0 Hm) as [->|[-> Hnew]];
    [exact Hnd0|].
  rewrite map_app. now apply NoDup_snoc.
Qed.

(** X16: calling [anti_unify] again on the same inputs with the environment
    it returned, and any state, returns the same generalization and the
    same environment: every disagreement is found in the environment and
    nothing is minted. *)
Theorem anti_unify_again_is_stable (t1 t2 g : FO.Term) (env : FO.Env) :
  FO.anti_unify t1 t2 None None = (g, env) ->
  forall st, FO.anti_unify t1 t2 (Some st) (Some env) = (g, env).
Proof.
  unfold FO.anti_unify.
  destruct (FO.anti_unify_rec t1 t2 FO.AUState_new []) as [[g0 st0] env0] eqn:E.
  intros [= <- <-] st.
  pose proof (FO_anti_unify_rec_pairs_NoDup _ _ _ _ _ _ _
                FOFacts.env_wf_new (NoDup_nil _) E) as Hnd.
  pose proof (FO_anti_unify_rec_again _ _ _ _ _ _ _ FOFacts.env_wf_new E [] st) as H.
  rewrite app_nil_r in H. now rewrite (H Hnd).
Qed.

Lemma anti_unify_again_is_stable_witness :
  FO.anti_unify (FO.Func "f" [FO.Const "a"; FO.Const "a"])
                (FO.Func "f" [FO.Const "b"; FO.Const "b"])
                (Some (FO.mkAUState 7))
                (Some [(FO.Var "X0", (FO.Const "a", FO.Const "b"))])
  = (FO.Func "f" [FO.Var "X0"; FO.Var "X0"],
     [(FO.Var "X0", (FO.Const "a", FO.Const "b"))]).
Proof.
  apply (anti_unify_again_is_stable
           (FO.Func "f" [FO.Const "a"; FO.Const "a"])
           (FO.Func "f" [FO.Const "b"; FO.Const "b"])).
  reflexivity.
Defined.

(** ** Sharing across positions *)

(** The generalization at one position of the argument loop comes from a call
    on the arguments at that position, and the environment of that call is
    a prefix of the final one. *)
Lemma FO_zip_loop_nth (l1 : list FO.Term) :
  forall l2 st env gs st' env' i a1 a2,
    FO.env_wf st env ->
    zip_loop FO.anti_unify_rec l1 l2 st env = (gs, st', env') ->
    nth_error l1 i = Some a1 -> nth_error l2 i = Some a2 ->
    exists sti envi gi sti' envi' ext,
      FO.env_wf sti envi /\
      FO.anti_unify_rec a1 a2 sti envi = (gi, sti', envi') /\
      nth_error gs i = Some gi /\
      env' = envi' ++ ext.
Proof.
  induction l1 as [|b1 l1 IH]; intros [|b2 l2] st env gs st' env' i a1 a2 Hwf;
    simpl; try (intros _; destruct i; discriminate).
  destruct (FO.anti_unify_rec b1 b2 st env) as [[g st1] env1] eqn:E1.
  destruct (zip_loop FO.anti_unify_rec l1 l2 st1 env1) as [[gs' st2] env2] eqn:E2.
  intros [= <- <- <-].
  pose proof (FOFacts.anti_unify_rec_grows _ _ _ _ _ _ _ Hwf E1) as (_ & _ & Hwf1).
  destruct i as [|i]; simpl.
  - intros [= <-] [= <-].
    pose proof (FOFacts.zip_loop_grows FO.anti_unify_rec l1
                  (proj2 (Forall_forall _ _)
                     (fun a _ => FOFacts.anti_unify_rec_grows a))
                  _ _ _ _ _ _ Hwf1 E2) as (_ & [e2 ->] & _).
    now exists st, env, g, st1, env1, e2.
  - intros H1 H2. exact (IH _ _ _ _ _ _ _ _ _ Hwf1 E2 H1 H2).
Qed.

(** The variable put at a mismatch position is bound to the pair found
    there. *)
Lemma FO_mismatch_at_var p t1 t2 u1 u2 :
  FO.mismatch_at p t1 t2 u1 u2 ->
  forall st env g st' env',
    FO.env_wf st env -> FO.anti_unify_rec t1 t2 st env = (g, st', env') ->
    exists v, FO.subterm_at p g = Some v /\ In (v, (u1, u2)) env'.
Proof.
  induction 1 as [t1 t2 Hne Hs
                 |i p s1 args1 s2 args2 a1 a2 u1 u2 Hne Hs H1 H2 _ IH];
    intros st env g st' env' Hwf; rewrite FOFacts.anti_unify_rec_unfold.
  - rewrite FO_same_shape_body by assumption. intros Hm.
    exists g. split; [reflexivity|].
    exact (FO_mismatch_In _ _ _ _ _ _ _ Hwf Hm).
  - unfold FO.anti_unify_body. rewrite Hne. simpl in Hs. rewrite Hs.
    destruct (zip_loop FO.anti_unify_rec args1 args2 st env)
      as [[gs st1] env1] eqn:E.
    intros [= <- <- <-].
    destruct (FO_zip_loop_nth _ _ _ _ _ _ _ _ _ _ Hwf E H1 H2)
      as (sti & envi & gi & sti' & envi' & ext & Hwfi & Ei & Hg & ->).
    destruct (IH _ _ _ _ _ Hwfi Ei) as (v & Hv & Hin).
    exists v. split.
    + simpl. now rewrite Hg.
    + apply in_or_app. now left.
Qed.

(** C5: [f(a, a)] against [f(b, b)] gives [f(X0, X0)] with the single entry
    [X0 |-> (a, b)].  In general, for every result [(g, env)] of
    [anti_unify(t1, t2)]: no pair is bound twice in [env], and whenever the
    same mismatched pair [(u1, u2)] is met at two positions [p] and [q], at
    any depth, the generalization has the same minted variable at [p] and at
    [q], and [env] binds that variable to [(u1, u2)]. *)
Theorem sharing_across_positions :
  FO.anti_unify
    (FO.Func "f" [FO.Const "a"; FO.Const "a"])
    (FO.Func "f" [FO.Const "b"; FO.Const "b"]) None None
  = (FO.Func "f" [FO.Var "X0"; FO.Var "X0"],
     [(FO.Var "X0", (FO.Const "a", FO.Const "b"))]) /\
  (forall t1 t2 g env,
      FO.anti_unify t1 t2 None None = (g, env) ->
      NoDup (map snd env) /\
      forall p q u1 u2,
        FO.mismatch_at p t1 t2 u1 u2 -> FO.mismatch_at q t1 t2 u1 u2 ->
        exists v,
          FO.subterm_at p g = Some v /\
          FO.subterm_at q g = Some v /\
          (exists n, v = FO.fresh_key n) /\
          dict_get FO.term_eqb env v = Some (u1, u2)).
Proof.
  split; [reflexivity|].
  intros t1 t2 g env. unfold FO.anti_unify.
  destruct (FO.anti_unify_rec t1 t2 FO.AUState_new []) as [[g0 st0] env0] eqn:E.
  intros [= <- <-].
  pose proof (FO_anti_unify_rec_pairs_NoDup _ _ _ _ _ _ _
                FOFacts.env_wf_new (NoDup_nil _) E) as Hnd.
  pose proof (FOFacts.anti_unify_rec_grows _ _ _ _ _ _ _ FOFacts.env_wf_new E)
    as (_ & _ & Hwf).
  split; [exact Hnd|].
  intros p q u1 u2 Hp Hq.
  destruct (FO_mismatch_at_var _ _ _ _ _ Hp _ _ _ _ _ FOFacts.env_wf_new E)
    as (v & Hv & Hin).
  destruct (FO_mismatch_at_var _ _ _ _ _ Hq _ _ _ _ _ FOFacts.env_wf_new E)
    as (v' & Hv' & Hin').
  assert (v' = v).
  { pose proof (FO_find_pair_In _ _ _ _ Hnd Hin) as F1.
    pose proof (FO_find_pair_In _ _ _ _ Hnd Hin') as F2. congruence. }
  subst v'. exists v. split; [exact Hv|]. split; [exact Hv'|]. split.
  - assert (Hk : In v (dict_keys env0))
      by (unfold dict_keys; change v with (fst (v, (u1, u2))); now apply in_map).
    destruct (keys_wf_minted FO.fresh_key _ _ _ Hwf Hk) as (n & _ & ->).
    now exists n.
  - apply (dict_get_In FO.term_eqb FOFacts.term_eqb_eq); [|exact Hin].
    exact (keys_wf_NoDup FO.fresh_key FOFacts.fresh_key_inj _ _ Hwf).
Qed.

Lemma sharing_across_positions_witness :
  exists v,
    FO.subterm_at [0]
      (FO.Func "f" [FO.Var "X0"; FO.Func "g" [FO.Var "X0"; FO.Var "X1"]])
    = Some v /\
    FO.subterm_at [1; 0]
      (FO.Func "f" [FO.Var "X0"; FO.Func "g" [FO.Var "X0"; FO.Var "X1"]])
    = Some v /\
    (exists n, v = FO.fresh_key n) /\
    dict_get FO.term_eqb
      [(FO.Var "X0", (FO.Const "a", FO.Const "b"));
       (FO.Var "X1", (FO.Const "c", FO.Const "d"))] v
    = Some (FO.Const "a", FO.Const "b").
Proof.
  apply (proj2 (proj2 sharing_across_positions
                  (FO.Func "f" [FO.Const "a"; FO.Func "g" [FO.Const "a"; FO.Const "c"]])
                  (FO.Func "f" [FO.Const "b"; FO.Func "g" [FO.Const "b"; FO.Const "d"]])
                  (FO.Func "f" [FO.Var "X0"; FO.Func "g" [FO.Var "X0"; FO.Var "X1"]])
                  [(FO.Var "X0", (FO.Const "a", FO.Const "b"));
                   (FO.Var "X1", (FO.Const "c", FO.Const "d"))]
                  eq_refl)).
  - apply (FO.mismatch_below 0 [] "f" _ "f" _ (FO.Const "a") (FO.Const "b"));
      try reflexivity.
    apply FO.mismatch_here; reflexivity.
  - apply (FO.mismatch_below 1 [0] "f" _ "f" _
             (FO.Func "g" [FO.Const "a"; FO.Const "c"])
             (FO.Func "g" [FO.Const "b"; FO.Const "d"])); try reflexivity.
    apply (FO.mismatch_below 0 [] "g" _ "g" _ (FO.Const "a") (FO.Const "b"));
      try reflexivity.
    apply FO.mismatch_here; reflexivity.
Defined.

(** ** Private state of a top-level call *)

Section ListSetFacts.
Context {A : Type}.

Lemma list_set_length (l : list A) (i : nat) (x : A) :
  List.length (list_set l i x) = List.length l.
Proof.
  revert i. induction l as [|a l IH]; intros [|i]; simpl; auto.
Qed.

Lemma nth_list_set_same (l : list A) (i : nat) (x d : A) :
  i < List.length l -> nth i (list_set l i x) d = x.
Proof.
  revert i. induction l as [|a l IH]; intros [|i] Hi; simpl in *;
    try lia; [reflexivity | apply IH; lia].
Qed.

Lemma list_set_twice (l : list A) (i : nat) (x y : A) :
  list_set (list_set l i x) i y = list_set l i y.
Proof.
  revert i. induction l as [|a l IH]; intros [|i]; simpl; auto.
  now rewrite IH.
Qed.

Lemma list_set_nth (l : list A) (i : nat) (d : A) :
  list_set l i (nth i l d) = l.
Proof.
  revert i. induction l as [|a l IH]; intros [|i]; simpl; auto.
  now rewrite IH.
Qed.

Lemma list_set_last (l : list A) (x y : A) :
  list_set (l ++ [x]) (List.length l) y = l ++ [y].
Proof. induction l as [|a l IH]; simpl; [reflexivity | now rewrite IH]. Qed.

Lemma nth_last (l : list A) (x d : A) : nth (List.length l) (l ++ [x]) d = x.
Proof. induction l as [|a l IH]; simpl; auto. Qed.

End ListSetFacts.

(** *** First-order engine *)

Lemma FO_mismatch_h_sim (t1 t2 : FO.Term) (st env : nat) ss ds :
  FO.mismatch_h t1 t2 st env (FO.mkHeap ss ds)
  = let '(g, s', e') :=
      FO.mismatch t1 t2 (nth st ss FO.AUState_new) (nth env ds []) in
    (g, FO.mkHeap (list_set ss st s') (list_set ds env e')).
Proof.
  unfold FO.mismatch_h, FO.mismatch, FO.get_dict. simpl.
  destruct (FO.find_pair (nth env ds []) t1 t2) as [v|]; simpl.
  - now rewrite !list_set_nth.
  - reflexivity.
Qed.

Lemma FO_heap_loop_sim (st env : nat) (l1 : list FO.Term) :
  Forall FO.sim_at l1 ->
  forall l2 ss ds,
    st < List.length ss -> env < List.length ds ->
    heap_loop (fun a1 a2 => FO.anti_unify_h a1 a2 st env) l1 l2 (FO.mkHeap ss ds)
    = let '(gs, s', e') :=
        zip_loop FO.anti_unify_rec l1 l2 (nth st ss FO.AUState_new) (nth env ds []) in
      (gs, FO.mkHeap (list_set ss st s') (list_set ds env e')).
Proof.
  induction 1 as [|a1 l1 Ha _ IH]; intros [|a2 l2] ss ds Hs He; simpl;
    try (now rewrite !list_set_nth).
  rewrite (Ha a2 st env ss ds Hs He).
  destruct (FO.anti_unify_rec a1 a2 (nth st ss FO.AUState_new) (nth env ds []))
    as [[g s1] e1].
  rewrite IH by (rewrite list_set_length; assumption).
  rewrite !nth_list_set_same by assumption.
  destruct (zip_loop FO.anti_unify_rec l1 l2 s1 e1) as [[gs s2] e2].
  now rewrite !list_set_twice.
Qed.

Lemma FO_anti_unify_h_sim (t1 : FO.Term) : FO.sim_at t1.
Proof.
  induction t1 as [x|c|s args IH] using FOFacts.Term_ind_args;
    intros t2 st env ss ds Hs He; rewrite FOFacts.anti_unify_rec_unfold;
    unfold FO.anti_unify_body; cbn [FO.anti_unify_h];
    match goal with
    | |- context [FO.term_eqb ?a t2] =>
        destruct (FO.term_eqb a t2); [now rewrite !list_set_nth|]
    end.
  - apply FO_mismatch_h_sim.
  - apply FO_mismatch_h_sim.
  - destruct t2 as [y|d|s2 args2]; try apply FO_mismatch_h_sim.
    destruct (String.eqb s s2 && Nat.eqb (List.length args) (List.length args2));
      [|apply FO_mismatch_h_sim].
    rewrite (FO_heap_loop_sim st env args IH args2 ss ds Hs He).
    now destruct (zip_loop FO.anti_unify_rec args args2
                    (nth st ss FO.AUState_new) (nth env ds [])) as [[gs s1] e1].
Qed.

Lemma FO_anti_unify_in_heap_spec (t1 t2 : FO.Term) (h : FO.Heap) :
  exists st_final,
    FO.anti_unify_in_heap t1 t2 None None h
    = ((fst (FO.anti_unify t1 t2 None None), List.length (FO.dicts h)),
       FO.mkHeap (FO.states h ++ [st_final])
                 (FO.dicts h ++ [snd (FO.anti_unify t1 t2 None None)])).
Proof.
  destruct h as [ss ds].
  unfold FO.anti_unify_in_heap, FO.anti_unify, FO.new_state, FO.new_dict. simpl.
  rewrite FO_anti_unify_h_sim
    by (rewrite length_app; simpl; lia).
  rewrite !nth_last.
  destruct (FO.anti_unify_rec t1 t2 FO.AUState_new []) as [[g s'] e'].
  exists s'. simpl. now rewrite !list_set_last.
Qed.

(** *** Higher-order engine *)

Lemma HO_mismatch_h_sim (t1 t2 : HO.Term) ctx (st env : nat) ss ds :
  HO.mismatch_h t1 t2 ctx st env (HO.mkHeap ss ds)
  = let '(g, s', e') :=
      HO.mismatch t1 t2 ctx (nth st ss HO.HOAUState_new) (nth env ds []) in
    (g, HO.mkHeap (list_set ss st s') (list_set ds env e')).
Proof.
  unfold HO.mismatch_h, HO.mismatch, HO.get_dict. simpl.
  destruct (HO.find_pair (nth env ds []) t1 t2) as [v|]; simpl.
  - now rewrite !list_set_nth.
  - reflexivity.
Qed.

Lemma HO_heap_loop_opt_sim rec_h rec ctx (st env : nat) :
  HO.simulates rec_h rec ->
  forall l1 l2 ss ds,
    st < List.length ss -> env < List.length ds ->
    heap_loop_opt (fun a1 a2 => rec_h a1 a2 ctx st env) l1 l2 (HO.mkHeap ss ds)
    = match
        zip_loop_opt (fun a1 a2 => rec a1 a2 ctx) l1 l2
                     (nth st ss HO.HOAUState_new) (nth env ds [])
      with
      | Some (gs, s', e') =>
          Some (gs, HO.mkHeap (list_set ss st s') (list_set ds env e'))
      | None => None
      end.
Proof.
  intros Hsim. induction l1 as [|a1 l1 IH]; intros [|a2 l2] ss ds Hs He; simpl;
    try (now rewrite !list_set_nth).
  rewrite (Hsim a1 a2 ctx st env ss ds Hs He).
  destruct (rec a1 a2 ctx (nth st ss HO.HOAUState_new) (nth env ds []))
    as [[[g s1] e1]|]; [|reflexivity].
  rewrite IH by (rewrite list_set_length; assumption).
  rewrite !nth_list_set_same by assumption.
  destruct (zip_loop_opt (fun a1 a2 => rec a1 a2 ctx) l1 l2 s1 e1)
    as [[[gs s2] e2]|]; [|reflexivity].
  now rewrite !list_set_twice.
Qed.

Lemma HO_body_h_sim rec_h rec :
  HO.simulates rec_h rec ->
  HO.simulates (HO._ho_au_body_h rec_h) (HO._ho_au_body rec).
Proof.
  intros Hsim t1 t2 ctx st env ss ds Hs He.
  unfold HO._ho_au_body_h, HO._ho_au_body.
  destruct (HO.term_eqb t1 t2); [now rewrite !list_set_nth|].
  assert (Hspine :
    HO.spine_case_h rec_h t1 t2 ctx st env (HO.mkHeap ss ds)
    = match HO.spine_case rec t1 t2 ctx (nth st ss HO.HOAUState_new) (nth env ds [])
      with
      | Some (g, s', e') =>
          Some (g, HO.mkHeap (list_set ss st s') (list_set ds env e'))
      | None => None
      end).
  { unfold HO.spine_case_h, HO.spine_case.
    destruct (HO._spine t1) as [h1 args1], (HO._spine t2) as [h2 args2].
    destruct (HO.rigid_rigid h1 h2 args1 args2).
    - rewrite (HO_heap_loop_opt_sim rec_h rec ctx st env Hsim _ _ ss ds Hs He).
      now destruct (zip_loop_opt (fun a1 a2 => rec a1 a2 ctx) args1 args2
                      (nth st ss HO.HOAUState_new) (nth env ds []))
        as [[[gs s1] e1]|].
    - rewrite HO_mismatch_h_sim.
      now destruct (HO.mismatch t1 t2 ctx (nth st ss HO.HOAUState_new)
                      (nth env ds [])) as [[g s1] e1]. }
  destruct t1 as [x|c|f a|x b]; try exact Hspine.
  destruct t2 as [y|d|f' a'|y b']; try exact Hspine.
  cbv zeta. rewrite (Hsim _ _ _ st env ss ds Hs He).
  now destruct (rec _ _ _ (nth st ss HO.HOAUState_new) (nth env ds []))
    as [[[g s1] e1]|].
Qed.

Lemma HO_ho_au_h_sim (fuel : nat) :
  HO.simulates (HO._ho_au_h fuel) (HO._ho_au fuel).
Proof.
  induction fuel as [|fuel IH].
  - intros t1 t2 ctx st env ss ds _ _. reflexivity.
  - exact (HO_body_h_sim _ _ IH).
Qed.

Lemma HO_ho_anti_unify_in_heap_spec (t1 t2 : HO.Term) (h : HO.Heap) :
  exists g env st_final,
    HO.ho_anti_unify t1 t2 = Some (g, env) /\
    HO.ho_anti_unify_in_heap t1 t2 h
    = Some ((g, List.length (HO.dicts h)),
            HO.mkHeap (HO.states h ++ [st_final]) (HO.dicts h ++ [env])).
Proof.
  destruct h as [ss ds].
  unfold HO.ho_anti_unify_in_heap, HO.ho_anti_unify, HO.new_state, HO.new_dict.
  simpl.
  rewrite HO_ho_au_h_sim by (rewrite length_app; simpl; lia).
  rewrite !nth_last.
  destruct (HOFacts._ho_au_total (HO.term_size t1) t1 t2 [] HO.HOAUState_new []
              (le_n _)) as [[[g s'] e'] ->].
  exists g, e', s'. split; [reflexivity|]. now rewrite !list_set_last.
Qed.

(** C9: a top-level call of either engine, run in a process with any heap of
    state and dict objects, creates one state object and one dict, works on
    these two and on no other object, and leaves every earlier object with
    the contents it had.  The term it returns and the contents of the dict
    it returns are the same for every heap; so two separate calls on the
    same terms return structurally equal results, whatever ran in between.
    They are the term and environment of the state-passing functions
    [anti_unify] and [ho_anti_unify]. *)
Theorem engines_own_their_state :
  (forall t1 t2 h, exists g env st_final,
      FO.anti_unify_in_heap t1 t2 None None h
      = ((g, List.length (FO.dicts h)),
         FO.mkHeap (FO.states h ++ [st_final]) (FO.dicts h ++ [env])) /\
      FO.anti_unify_in_heap t1 t2 None None (FO.mkHeap [] [])
      = ((g, 0), FO.mkHeap [st_final] [env])) /\
  (forall t1 t2 h h',
      FO.result_of (FO.anti_unify_in_heap t1 t2 None None h)
      = FO.result_of (FO.anti_unify_in_heap t1 t2 None None h')) /\
  (forall t1 t2 h,
      FO.result_of (FO.anti_unify_in_heap t1 t2 None None
                      (snd (FO.anti_unify_in_heap t1 t2 None None h)))
      = FO.result_of (FO.anti_unify_in_heap t1 t2 None None h)) /\
  (forall t1 t2 h, exists g env st_final,
      HO.ho_anti_unify_in_heap t1 t2 h
      = Some ((g, List.length (HO.dicts h)),
              HO.mkHeap (HO.states h ++ [st_final]) (HO.dicts h ++ [env])) /\
      HO.ho_anti_unify_in_heap t1 t2 (HO.mkHeap [] [])
      = Some ((g, 0), HO.mkHeap [st_final] [env])) /\
  (forall t1 t2 h h',
      option_map HO.result_of (HO.ho_anti_unify_in_heap t1 t2 h)
      = option_map HO.result_of (HO.ho_anti_unify_in_heap t1 t2 h')) /\
  (forall t1 t2 h,
      FO.result_of (FO.anti_unify_in_heap t1 t2 None None h)
      = FO.anti_unify t1 t2 None None) /\
  (forall t1 t2 h,
      option_map HO.result_of (HO.ho_anti_unify_in_heap t1 t2 h)
      = HO.ho_anti_unify t1 t2).
Proof.
  assert (RFO : forall t1 t2 h,
             FO.result_of (FO.anti_unify_in_heap t1 t2 None None h)
             = FO.anti_unify t1 t2 None None).
  { intros t1 t2 h. destruct (FO_anti_unify_in_heap_spec t1 t2 h) as [s ->].
    unfold FO.result_of, FO.get_dict. simpl. rewrite nth_last.
    now destruct (FO.anti_unify t1 t2 None None). }
  assert (RHO : forall t1 t2 h,
             option_map HO.result_of (HO.ho_anti_unify_in_heap t1 t2 h)
             = HO.ho_anti_unify t1 t2).
  { intros t1 t2 h.
    destruct (HO_ho_anti_unify_in_heap_spec t1 t2 h) as (g & e & s & -> & ->).
    unfold HO.result_of, HO.get_dict. simpl. now rewrite nth_last. }
  split; [|split; [|split; [|split; [|split; [|split; [exact RFO | exact RHO]]]]]].
  - intros t1 t2 h.
    destruct (FO_anti_unify_in_heap_spec t1 t2 h) as [s E].
    destruct (FO_anti_unify_in_heap_spec t1 t2 (FO.mkHeap [] [])) as [s0 E0].
    assert (s0 = s).
    { revert E E0. destruct h as [ss ds].
      unfold FO.anti_unify_in_heap, FO.new_state, FO.new_dict. simpl.
      rewrite !FO_anti_unify_h_sim by (rewrite ?length_app; simpl; lia).
      rewrite !nth_last. simpl.
      destruct (FO.anti_unify_rec t1 t2 FO.AUState_new []) as [[g s'] e'].
      rewrite !list_set_last. simpl.
      intros [= _ Hs _] [= _ Hs0 _].
      apply app_inj_tail in Hs as [_ ->]. now subst. }
    subst s0. eexists _, _, s. split; [exact E | exact E0].
  - intros t1 t2 h h'. now rewrite !RFO.
  - intros t1 t2 h. now rewrite !RFO.
  - intros t1 t2 h.
    destruct (HO_ho_anti_unify_in_heap_spec t1 t2 h) as (g & e & s & Hp & E).
    destruct (HO_ho_anti_unify_in_heap_spec t1 t2 (HO.mkHeap [] []))
      as (g0 & e0 & s0 & Hp0 & E0).
    assert (g0 = g /\ e0 = e) as [-> ->] by (split; congruence).
    assert (s0 = s).
    { revert E E0. destruct h as [ss ds].
      unfold HO.ho_anti_unify_in_heap, HO.new_state, HO.new_dict. simpl.
      rewrite !HO_ho_au_h_sim by (rewrite ?length_app; simpl; lia).
      rewrite !nth_last. simpl.
      destruct (HO._ho_au (HO.term_size t1) t1 t2 [] HO.HOAUState_new [])
        as [[[g' s'] e']|]; [|discriminate].
      rewrite !list_set_last. simpl.
      intros [= _ Hs _] [= _ Hs0 _].
      apply app_inj_tail in Hs as [_ ->]. now subst. }
    subst s0. exists g, e, s. split; [exact E | exact E0].
  - intros t1 t2 h h'. now rewrite !RHO.
Qed.
